(** * Spectral: quantities of a one-dimensional spectral discretisation

    A shallow embedding of [src/NumericalAlgorithms/Spectral/Spectral.cpp].

    Scalars.  The C++ code computes in [double].  Here a scalar is an element
    of a type [F] with the operations the code uses ([+], [-], [*], [/]).
    Every definition is written against the bare operations, so it can be
    evaluated in any arithmetic.  The theorems that need algebra assume that
    the operations form a field: they describe the code in exact arithmetic
    and say nothing about rounding.

    Containers.  [DataVector] is a list of scalars.  [Matrix] keeps its
    entries in one array in column-major order, as the BLAS call and the
    blaze work matrix of the source expect.

    Effects.  Every quantity is obtained through
    [precomputed_spectral_quantity], which owns one table per
    (basis, quadrature, generator).  The tables are an explicit [Cache]
    threaded by a small state-and-failure monad.

    Parameters.  The per-basis functions, the bounds on the number of
    points, the comparison within round-off and the matrix inversion are
    defined outside Spectral.cpp; they are the fields of [Primitives].
    Three instances serve to evaluate the definitions and to apply the
    theorems: over the rationals, over the reals, and over the binary64
    floating-point numbers, the arithmetic of the code, where the
    statements about round-off are settled by evaluation. *)

From Stdlib Require Import Ascii String.
From Stdlib Require Import Arith Bool List Lia.
From Stdlib Require Import Ring_theory Field_theory Ring Field.
From Stdlib Require QArith Qcanon.
From Stdlib Require Reals RealField Lra.
From Stdlib Require Floats.
Import ListNotations.

Set Implicit Arguments.

(** ** Counted loops *)

(** [for (size_t i = a; i < b; i++) s = body i s]. *)
Definition for_loop {S : Type} (a b : nat) (body : nat -> S -> S) (s : S) : S :=
  fold_left (fun s i => body i s) (seq a (b - a)) s.

(** ** Enumerations of Spectral.hpp *)

(** Modelled from the spec: the enumerations [Basis] and [Quadrature] of
    Spectral.hpp, which is not among the sources.  The specification has
    one basis family and two quadrature rules; Spectral.cpp names them
    [Legendre], [Gauss] and [GaussLobatto].  Each type has one more value,
    for what a [switch] sends to its [default:] label. *)
Inductive Basis : Type :=
| Legendre
| UnknownBasis.

Inductive Quadrature : Type :=
| Gauss
| GaussLobatto
| UnknownQuadrature.

(** One tag per generator struct of the source: together with the basis and
    the quadrature it names one instantiation of
    [precomputed_spectral_quantity], that is, one static table. *)
Inductive GeneratorKind : Type :=
| CollocationPointsAndWeights
| BarycentricWeights
| DifferentiationMatrix
| SpectralToGridPointsMatrix
| GridPointsToSpectralMatrix
| LinearFilterMatrix.

Definition Basis_eqb (a b : Basis) : bool :=
  match a, b with
  | Legendre, Legendre | UnknownBasis, UnknownBasis => true
  | _, _ => false
  end.

Definition Quadrature_eqb (a b : Quadrature) : bool :=
  match a, b with
  | Gauss, Gauss | GaussLobatto, GaussLobatto
  | UnknownQuadrature, UnknownQuadrature => true
  | _, _ => false
  end.

Definition GeneratorKind_eqb (a b : GeneratorKind) : bool :=
  match a, b with
  | CollocationPointsAndWeights, CollocationPointsAndWeights
  | BarycentricWeights, BarycentricWeights
  | DifferentiationMatrix, DifferentiationMatrix
  | SpectralToGridPointsMatrix, SpectralToGridPointsMatrix
  | GridPointsToSpectralMatrix, GridPointsToSpectralMatrix
  | LinearFilterMatrix, LinearFilterMatrix => true
  | _, _ => false
  end.

(** ** Failures *)

(** Modelled from the spec: the failures of [ASSERT] and [ERROR]
    (ErrorHandling, not among the sources).  Both stop the request with a
    message; the two kinds carry the names the specification gives them. *)
Inductive Failure : Type :=
| RangeError (message : string)
| UnsupportedCombinationError (message : string).

Inductive Result (A : Type) : Type :=
| Ok (a : A)
| Err (e : Failure).

Arguments Ok {A} a.
Arguments Err {A} e.

Declare Scope F_scope.
Delimit Scope F_scope with Sc.
Declare Scope cache_scope.
Delimit Scope cache_scope with cache.

(** ** Scalars *)

(** The arithmetic of the scalars: the carrier, the two constants and the
    operations.  (The source uses [double]; the signature is that of a
    field, with negation and inverse alongside subtraction and division.) *)
Class Arithmetic : Type := {
  F : Type;
  F0 : F;
  F1 : F;
  Fadd : F -> F -> F;
  Fmul : F -> F -> F;
  Fsub : F -> F -> F;
  Fopp : F -> F;
  Fdiv : F -> F -> F;
  Finv : F -> F
}.

Section Spectral.

Context {arith : Arithmetic}.

Local Infix "+" := Fadd : F_scope.
Local Infix "*" := Fmul : F_scope.
Local Infix "-" := Fsub : F_scope.
Local Infix "/" := Fdiv : F_scope.

(** [sumF f n] is [f 0 + ... + f (n-1)], accumulated from zero in index
    order, as [sum += ...] does. *)
Fixpoint sumF (f : nat -> F) (n : nat) : F :=
  match n with
  | O => F0
  | S m => (sumF f m + f m)%Sc
  end.

Fixpoint prodF (f : nat -> F) (n : nat) : F :=
  match n with
  | O => F1
  | S m => (prodF f m * f m)%Sc
  end.

Definition delta (i j : nat) : F := if i =? j then F1 else F0.

(** ** DataVector *)

Definition DataVector : Type := list F.

(** [v[i]] *)
Definition vget (v : DataVector) (i : nat) : F := nth i v F0.

(** [v[i] = a] *)
Fixpoint vset (v : DataVector) (i : nat) (a : F) : DataVector :=
  match v, i with
  | [], _ => []
  | _ :: t, O => a :: t
  | h :: t, S k => h :: vset t k a
  end.

(** [DataVector(n, a)] *)
Definition DataVector_fill (n : nat) (a : F) : DataVector := repeat a n.

(** ** Matrix *)

(** Modelled from the spec: the dense [Matrix] of DataStructures/Matrix.hpp,
    which is not among the sources.  [data] holds the columns one after
    another, so entry [(i, j)] sits at offset [i + j * rows]: lines 168-173
    build a column-major blaze matrix from [data()] and read the inverse
    back entry by entry, and line 215 hands [data()] to BLAS. *)
Record Matrix : Type := mkMatrix {
  rows : nat;
  columns : nat;
  data : list F
}.

(** [Matrix(m, n)]: storage for [m * n] entries.  The source writes every
    entry before it reads it; the initial content is taken to be zero. *)
Definition Matrix_new (m n : nat) : Matrix :=
  mkMatrix m n (repeat F0 (m * n)).

(** [A(i, j)] *)
Definition mget (A : Matrix) (i j : nat) : F :=
  nth (i + j * rows A) (data A) F0.

(** [A(i, j) = a] *)
Definition mset (A : Matrix) (i j : nat) (a : F) : Matrix :=
  mkMatrix (rows A) (columns A) (vset (data A) (i + j * rows A) a).

(** Entry [(i, j)] of the matrix product [A * B]. *)
Definition mat_mul_entry (A B : Matrix) (i j : nat) : F :=
  sumF (fun l => (mget A i l * mget B l j)%Sc) (columns A).

(** [A] is the [n] by [n] identity. *)
Definition is_identity (n : nat) (A : nat -> nat -> F) : Prop :=
  forall i j, i < n -> j < n -> A i j = delta i j.

(** ** What the source takes from other files *)

(** The functions and constants that Spectral.cpp uses and other files
    define; they are parameters of everything below. *)
Class Primitives : Type := {
  (** Declared at the head of Spectral.cpp and defined per basis: the basis
      function [Phi_k] at a point, the integral of its square, and the
      collocation points with their quadrature weights. *)
  compute_basis_function_value : Basis -> nat -> F -> F;
  compute_basis_function_normalization_square : Basis -> nat -> F;
  compute_collocation_points_and_weights :
    Basis -> Quadrature -> nat -> DataVector * DataVector;
  (** The bounds on the number of points (Spectral.hpp). *)
  maximum_number_of_points : Basis -> nat;
  minimum_number_of_points : Basis -> Quadrature -> nat;
  (** Utilities/EqualWithinRoundoff.hpp *)
  equal_within_roundoff : F -> F -> bool;
  (** [blaze::invert], which overwrites a matrix with its inverse. *)
  blaze_invert : Matrix -> Matrix
}.

Context {prims : Primitives}.

(** [blaze::DynamicMatrix<double, blaze::columnMajor>(m, n, array)] copies
    [m * n] entries of [array], column by column. *)
Definition blaze_DynamicMatrix (m n : nat) (array : list F) : Matrix :=
  mkMatrix m n (firstn (m * n) array).

(** BLAS [dgemm_], by its documented effect
    [C := alpha * op(A) * op(B) + beta * C], column by column.  The arrays
    are column-major with leading dimensions [lda], [ldb], [ldc]; [op(X)] is
    [X] for ['N'] and the transpose otherwise. *)
Definition dgemm_op (trans : ascii) (a : list F) (ld : nat) (i j : nat) : F :=
  if Ascii.eqb trans "N"%char then nth (i + j * ld) a F0
  else nth (j + i * ld) a F0.

Definition dgemm_ (transa transb : ascii) (m n k : nat) (alpha : F)
    (a : list F) (lda : nat) (b : list F) (ldb : nat) (beta : F)
    (c : list F) (ldc : nat) : list F :=
  data
    (for_loop 0 n (fun j C =>
       for_loop 0 m (fun i C =>
         mset C i j
           (alpha * sumF (fun l => (dgemm_op transa a lda i l *
                                    dgemm_op transb b ldb l j)%Sc) k
            + beta * mget C i j)%Sc) C)
       (mkMatrix ldc n c)).

(** ** The loops of the generators

    Each generator of the source first fetches the quantities it builds on
    and then runs loops over them.  The loops come first; the fetching is
    in the next part. *)

(** BarycentricWeightsGenerator, lines 94-104. *)
Definition barycentric_weights_loops (x : DataVector) (num_points : nat)
  : DataVector :=
  let bary_weights := DataVector_fill num_points F1 in
  let bary_weights :=
    for_loop 1 num_points (fun j bary_weights =>
      for_loop 0 j (fun k bary_weights =>
        let bary_weights :=
          vset bary_weights k
            (vget bary_weights k * (vget x k - vget x j))%Sc in
        vset bary_weights j
          (vget bary_weights j * (vget x j - vget x k))%Sc)
        bary_weights)
      bary_weights in
  for_loop 0 num_points (fun j bary_weights =>
    vset bary_weights j (F1 / vget bary_weights j)%Sc) bary_weights.

(** DifferentiationMatrixGenerator, lines 126-138.  [diagonal] is a
    reference to [diff_matrix(i, i)]. *)
Definition differentiation_matrix_loops (collocation_pts bary_weights : DataVector)
    (num_points : nat) : Matrix :=
  for_loop 0 num_points (fun i diff_matrix =>
    let diff_matrix := mset diff_matrix i i F0 in
    for_loop 0 num_points (fun j diff_matrix =>
      if negb (i =? j) then
        let diff_matrix :=
          mset diff_matrix i j
            (vget bary_weights j /
             (vget bary_weights i *
              (vget collocation_pts i - vget collocation_pts j)))%Sc in
        mset diff_matrix i i (mget diff_matrix i i - mget diff_matrix i j)%Sc
      else diff_matrix)
      diff_matrix)
    (Matrix_new num_points num_points).

(** SpectralToGridPointsMatrixGenerator, lines 150-157. *)
Definition vandermonde_loops (BasisType : Basis) (x : DataVector)
    (num_points : nat) : Matrix :=
  for_loop 0 num_points (fun i vandermonde_matrix =>
    for_loop 0 num_points (fun j vandermonde_matrix =>
      mset vandermonde_matrix i j
        (compute_basis_function_value BasisType j (vget x i)))
      vandermonde_matrix)
    (Matrix_new num_points num_points).

(** GridPointsToSpectralMatrixGenerator, primary template, lines 167-176. *)
Definition numeric_inverse_loops (vandermonde_matrix : Matrix)
    (num_points : nat) : Matrix :=
  let work :=
    blaze_invert
      (blaze_DynamicMatrix num_points num_points (data vandermonde_matrix)) in
  for_loop 0 num_points (fun i vandermonde_inverse =>
    for_loop 0 num_points (fun j vandermonde_inverse =>
      mset vandermonde_inverse i j (mget work i j))
      vandermonde_inverse)
    (Matrix_new num_points num_points).

(** GridPointsToSpectralMatrixGenerator<BasisType, Quadrature::Gauss>,
    lines 192-201. *)
Definition analytic_inverse_loops (BasisType : Basis) (weights : DataVector)
    (vandermonde_matrix : Matrix) (num_points : nat) : Matrix :=
  for_loop 0 num_points (fun i vandermonde_inverse =>
    for_loop 0 num_points (fun j vandermonde_inverse =>
      mset vandermonde_inverse i j
        (mget vandermonde_matrix j i * vget weights j /
         compute_basis_function_normalization_square BasisType i)%Sc)
      vandermonde_inverse)
    (Matrix_new num_points num_points).

(** LinearFilterMatrixGenerator, lines 214-223. *)
Definition linear_filter_dgemm (spectral_to_grid grid_to_spectral : Matrix)
    (num_points : nat) : Matrix :=
  let lin_filter := Matrix_new num_points num_points in
  mkMatrix (rows lin_filter) (columns lin_filter)
    (dgemm_ "N" "N" num_points num_points (Nat.min 2 num_points) F1
       (data spectral_to_grid) num_points
       (data grid_to_spectral) num_points F0
       (data lin_filter) num_points).

(** interpolation_matrix, lines 290-319.  The first inner loop carries the
    matrix and [row_has_match], the second the matrix and [sum]. *)
Definition interpolation_matrix_loops (collocation_pts bary_weights : DataVector)
    (num_points : nat) (target_points : list F) : Matrix :=
  let num_target_points := length target_points in
  for_loop 0 num_target_points (fun k interp_matrix =>
    let scanned :=
      for_loop 0 num_points (fun j st =>
        let interp_matrix := mset (fst st) k j F0 in
        if equal_within_roundoff (vget target_points k) (vget collocation_pts j)
        then (mset interp_matrix k j F1, true)
        else (interp_matrix, snd st))
        (interp_matrix, false) in
    let interp_matrix := fst scanned in
    let row_has_match := snd scanned in
    if negb row_has_match then
      let summed :=
        for_loop 0 num_points (fun j st =>
          let interp_matrix :=
            mset (fst st) k j
              (vget bary_weights j /
               (vget target_points k - vget collocation_pts j))%Sc in
          (interp_matrix, (snd st + mget interp_matrix k j)%Sc))
          (interp_matrix, F0) in
      let sum := snd summed in
      for_loop 0 num_points (fun j interp_matrix =>
        mset interp_matrix k j (mget interp_matrix k j / sum)%Sc)
        (fst summed)
    else interp_matrix)
    (Matrix_new num_target_points num_points).

(** ** The cache and the monad of requests *)

(** What a table holds: the pair of a [CollocationPointsAndWeightsGenerator],
    a [DataVector] or a [Matrix]. *)
Inductive Quantity : Type :=
| PointsAndWeights (p : DataVector * DataVector)
| Vector (v : DataVector)
| Dense (m : Matrix).

Definition as_pair (q : Quantity) : DataVector * DataVector :=
  match q with PointsAndWeights p => p | _ => ([], []) end.

Definition as_vector (q : Quantity) : DataVector :=
  match q with Vector v => v | _ => [] end.

Definition as_matrix (q : Quantity) : Matrix :=
  match q with Dense m => m | _ => Matrix_new 0 0 end.

(** One [static const precomputed_data] per instantiation of
    [precomputed_spectral_quantity]: [None] until its first initialisation. *)
Definition Key : Type := (Basis * Quadrature * GeneratorKind)%type.

Definition Key_eqb (a b : Key) : bool :=
  Basis_eqb (fst (fst a)) (fst (fst b)) &&
  Quadrature_eqb (snd (fst a)) (snd (fst b)) &&
  GeneratorKind_eqb (snd a) (snd b).

Definition Cache : Type := Key -> option (list Quantity).

Definition empty_cache : Cache := fun _ => None.

Definition cache_store (c : Cache) (key : Key) (table : list Quantity) : Cache :=
  fun key' => if Key_eqb key key' then Some table else c key'.

(** A request reads and extends the cache and either returns or fails; a
    failure leaves the cache as it was when the failure happened. *)
Definition Request (A : Type) : Type := Cache -> Result A * Cache.

Definition ret {A : Type} (a : A) : Request A := fun c => (Ok a, c).

Definition fail {A : Type} (e : Failure) : Request A := fun c => (Err e, c).

Definition bind {A B : Type} (m : Request A) (f : A -> Request B) : Request B :=
  fun c =>
    match m c with
    | (Ok a, c') => f a c'
    | (Err e, c') => (Err e, c')
    end.

Local Notation "x <- m ;; f" := (bind m (fun x => f))
  (at level 61, m at next level, right associativity) : cache_scope.
Local Notation "m ;; f" := (bind m (fun _ => f))
  (at level 61, right associativity) : cache_scope.
Local Open Scope cache_scope.

Fixpoint for_each {A B : Type} (f : A -> Request B) (l : list A)
  : Request (list B) :=
  match l with
  | [] => ret []
  | a :: t => b <- f a ;; bs <- for_each f t ;; ret (b :: bs)
  end.

(** Modelled from the spec: the macro [ASSERT(condition, message)] of
    ErrorHandling/Assert.hpp, which is not among the sources.  A range
    assertion that does not hold fails the request with a RangeError. *)
Definition ASSERT (condition : bool) (message : string) : Request unit :=
  if condition then ret tt else fail (RangeError message).

(** Modelled from the spec: the macro [ERROR(message)] of
    ErrorHandling/Error.hpp, which is not among the sources.  It fails the
    request with an UnsupportedCombinationError. *)
Definition ERROR {A : Type} (message : string) : Request A :=
  fail (UnsupportedCombinationError message).

(** Modelled from the spec: [make_static_cache<CacheRange<start, stop>>]
    of Utilities/StaticCache.hpp, which is not among the sources.  As the
    comment at line 66 says, the generator is run for every index of the
    range when the cache is made. *)
Definition make_static_cache (start stop : nat)
    (generator : nat -> Request Quantity) : Request (list Quantity) :=
  for_each generator (seq start (stop - start)).

(** Modelled from the spec: the call operator of the static cache, which
    returns the entry computed for [index]. *)
Definition static_cache_get (start : nat) (table : list Quantity) (index : nat)
  : Quantity :=
  nth (index - start) table (Vector []).

(** A function-local [static const]: initialised on the first pass. *)
Definition static_local (key : Key) (init : Request (list Quantity))
  : Request (list Quantity) :=
  fun c =>
    match c key with
    | Some table => (Ok table, c)
    | None =>
        match init c with
        | (Ok table, c') => (Ok table, cache_store c' key table)
        | (Err e, c') => (Err e, c')
        end
    end.

(** precomputed_spectral_quantity, lines 54-74. *)
Definition precomputed_spectral_quantity (BasisType : Basis)
    (QuadratureType : Quadrature) (kind : GeneratorKind)
    (SpectralQuantityGenerator : nat -> Request Quantity) (num_points : nat)
  : Request Quantity :=
  let max_num_points := maximum_number_of_points BasisType in
  let min_num_points := minimum_number_of_points BasisType QuadratureType in
  ASSERT (min_num_points <=? num_points)
    "Tried to work with less than the minimum number of collocation points for this quadrature." ;;
  ASSERT (num_points <=? max_num_points)
    "Exceeded maximum number of collocation points." ;;
  precomputed_data <-
    static_local (BasisType, QuadratureType, kind)
      (make_static_cache min_num_points (max_num_points + 1)
         SpectralQuantityGenerator) ;;
  ret (static_cache_get min_num_points precomputed_data num_points).

(** ** Generators and the public interface *)

Definition CollocationPointsAndWeightsGenerator (BasisType : Basis)
    (QuadratureType : Quadrature) (num_points : nat) : Request Quantity :=
  ret (PointsAndWeights
         (compute_collocation_points_and_weights BasisType QuadratureType
            num_points)).

Definition collocation_points (BasisType : Basis) (QuadratureType : Quadrature)
    (num_points : nat) : Request DataVector :=
  q <- precomputed_spectral_quantity BasisType QuadratureType
         CollocationPointsAndWeights
         (CollocationPointsAndWeightsGenerator BasisType QuadratureType)
         num_points ;;
  ret (fst (as_pair q)).

Definition quadrature_weights (BasisType : Basis) (QuadratureType : Quadrature)
    (num_points : nat) : Request DataVector :=
  q <- precomputed_spectral_quantity BasisType QuadratureType
         CollocationPointsAndWeights
         (CollocationPointsAndWeightsGenerator BasisType QuadratureType)
         num_points ;;
  ret (snd (as_pair q)).

Definition BarycentricWeightsGenerator (BasisType : Basis)
    (QuadratureType : Quadrature) (num_points : nat) : Request Quantity :=
  x <- collocation_points BasisType QuadratureType num_points ;;
  ret (Vector (barycentric_weights_loops x num_points)).

Definition barycentric_weights (BasisType : Basis) (QuadratureType : Quadrature)
    (num_points : nat) : Request DataVector :=
  q <- precomputed_spectral_quantity BasisType QuadratureType
         BarycentricWeights
         (BarycentricWeightsGenerator BasisType QuadratureType) num_points ;;
  ret (as_vector q).

Definition DifferentiationMatrixGenerator (BasisType : Basis)
    (QuadratureType : Quadrature) (num_points : nat) : Request Quantity :=
  collocation_pts <- collocation_points BasisType QuadratureType num_points ;;
  bary_weights <- barycentric_weights BasisType QuadratureType num_points ;;
  ret (Dense (differentiation_matrix_loops collocation_pts bary_weights
                num_points)).

Definition differentiation_matrix (BasisType : Basis)
    (QuadratureType : Quadrature) (num_points : nat) : Request Matrix :=
  q <- precomputed_spectral_quantity BasisType QuadratureType
         DifferentiationMatrix
         (DifferentiationMatrixGenerator BasisType QuadratureType)
         num_points ;;
  ret (as_matrix q).

Definition SpectralToGridPointsMatrixGenerator (BasisType : Basis)
    (QuadratureType : Quadrature) (num_points : nat) : Request Quantity :=
  x <- collocation_points BasisType QuadratureType num_points ;;
  ret (Dense (vandermonde_loops BasisType x num_points)).

Definition spectral_to_grid_points_matrix (BasisType : Basis)
    (QuadratureType : Quadrature) (num_points : nat) : Request Matrix :=
  q <- precomputed_spectral_quantity BasisType QuadratureType
         SpectralToGridPointsMatrix
         (SpectralToGridPointsMatrixGenerator BasisType QuadratureType)
         num_points ;;
  ret (as_matrix q).

(** The primary template: numeric inversion. *)
Definition GridPointsToSpectralMatrixGenerator_primary (BasisType : Basis)
    (QuadratureType : Quadrature) (num_points : nat) : Request Quantity :=
  vandermonde_matrix <-
    spectral_to_grid_points_matrix BasisType QuadratureType num_points ;;
  ret (Dense (numeric_inverse_loops vandermonde_matrix num_points)).

(** The specialisation for [Quadrature::Gauss]: the analytic expression. *)
Definition GridPointsToSpectralMatrixGenerator_Gauss (BasisType : Basis)
    (num_points : nat) : Request Quantity :=
  weights <- quadrature_weights BasisType Gauss num_points ;;
  vandermonde_matrix <-
    spectral_to_grid_points_matrix BasisType Gauss num_points ;;
  ret (Dense (analytic_inverse_loops BasisType weights vandermonde_matrix
                num_points)).

(** Template selection: the specialisation wins for [Gauss]. *)
Definition GridPointsToSpectralMatrixGenerator (BasisType : Basis)
    (QuadratureType : Quadrature) (num_points : nat) : Request Quantity :=
  match QuadratureType with
  | Gauss => GridPointsToSpectralMatrixGenerator_Gauss BasisType num_points
  | _ =>
      GridPointsToSpectralMatrixGenerator_primary BasisType QuadratureType
        num_points
  end.

Definition grid_points_to_spectral_matrix (BasisType : Basis)
    (QuadratureType : Quadrature) (num_points : nat) : Request Matrix :=
  q <- precomputed_spectral_quantity BasisType QuadratureType
         GridPointsToSpectralMatrix
         (GridPointsToSpectralMatrixGenerator BasisType QuadratureType)
         num_points ;;
  ret (as_matrix q).

(** The two matrices are arguments of one call; they are fetched here in
    the order in which they are written. *)
Definition LinearFilterMatrixGenerator (BasisType : Basis)
    (QuadratureType : Quadrature) (num_points : nat) : Request Quantity :=
  spectral_to_grid <-
    spectral_to_grid_points_matrix BasisType QuadratureType num_points ;;
  grid_to_spectral <-
    grid_points_to_spectral_matrix BasisType QuadratureType num_points ;;
  ret (Dense (linear_filter_dgemm spectral_to_grid grid_to_spectral
                num_points)).

Definition linear_filter_matrix (BasisType : Basis)
    (QuadratureType : Quadrature) (num_points : nat) : Request Matrix :=
  q <- precomputed_spectral_quantity BasisType QuadratureType
         LinearFilterMatrix
         (LinearFilterMatrixGenerator BasisType QuadratureType) num_points ;;
  ret (as_matrix q).

(** interpolation_matrix, lines 274-320. *)
Definition interpolation_matrix (BasisType : Basis)
    (QuadratureType : Quadrature) (num_points : nat) (target_points : list F)
  : Request Matrix :=
  let max_num_points := maximum_number_of_points BasisType in
  let min_num_points := minimum_number_of_points BasisType QuadratureType in
  ASSERT (min_num_points <=? num_points)
    "Tried to work with less than the minimum number of collocation points for this quadrature." ;;
  ASSERT (num_points <=? max_num_points)
    "Exceeded maximum number of collocation points." ;;
  collocation_pts <- collocation_points BasisType QuadratureType num_points ;;
  bary_weights <- barycentric_weights BasisType QuadratureType num_points ;;
  ret (interpolation_matrix_loops collocation_pts bary_weights num_points
         target_points).

(** ** Mesh dispatch *)

(** Modelled from the spec: [Mesh<1>] of DataStructures/Mesh.hpp, which is
    not among the sources.  It carries a basis, a quadrature and an extent
    per dimension; the source reads them at dimension 0. *)
Record Mesh : Type := mkMesh {
  extents : nat -> nat;
  basis : nat -> Basis;
  quadrature : nat -> Quadrature
}.

(** get_spectral_quantity_for_mesh, lines 324-353. *)
Definition get_spectral_quantity_for_mesh {A : Type}
    (f : Basis -> Quadrature -> nat -> Request A) (mesh : Mesh) : Request A :=
  let num_points := extents mesh 0 in
  match basis mesh 0 with
  | Legendre =>
      match quadrature mesh 0 with
      | Gauss => f Legendre Gauss num_points
      | GaussLobatto => f Legendre GaussLobatto num_points
      | _ => ERROR "Missing quadrature case for spectral quantity"
      end
  | _ => ERROR "Missing basis case for spectral quantity"
  end.

(** SPECTRAL_QUANTITY_FOR_MESH, lines 360-376. *)
Definition collocation_points_mesh (mesh : Mesh) : Request DataVector :=
  get_spectral_quantity_for_mesh
    (fun basis quadrature num_points =>
       collocation_points basis quadrature num_points) mesh.

Definition quadrature_weights_mesh (mesh : Mesh) : Request DataVector :=
  get_spectral_quantity_for_mesh
    (fun basis quadrature num_points =>
       quadrature_weights basis quadrature num_points) mesh.

Definition differentiation_matrix_mesh (mesh : Mesh) : Request Matrix :=
  get_spectral_quantity_for_mesh
    (fun basis quadrature num_points =>
       differentiation_matrix basis quadrature num_points) mesh.

Definition spectral_to_grid_points_matrix_mesh (mesh : Mesh) : Request Matrix :=
  get_spectral_quantity_for_mesh
    (fun basis quadrature num_points =>
       spectral_to_grid_points_matrix basis quadrature num_points) mesh.

Definition grid_points_to_spectral_matrix_mesh (mesh : Mesh) : Request Matrix :=
  get_spectral_quantity_for_mesh
    (fun basis quadrature num_points =>
       grid_points_to_spectral_matrix basis quadrature num_points) mesh.

Definition linear_filter_matrix_mesh (mesh : Mesh) : Request Matrix :=
  get_spectral_quantity_for_mesh
    (fun basis quadrature num_points =>
       linear_filter_matrix basis quadrature num_points) mesh.

(** interpolation_matrix(mesh, target_points), lines 381-392. *)
Definition interpolation_matrix_mesh (mesh : Mesh) (target_points : list F)
  : Request Matrix :=
  get_spectral_quantity_for_mesh
    (fun basis quadrature num_points =>
       interpolation_matrix basis quadrature num_points target_points) mesh.

(** ** The value of each quantity

    What a request returns does not depend on the cache (lemma
    [precomputed_spectral_quantity_in_range] below): it is the value defined here, the
    generator's loops run on the values of the quantities it fetches. *)

Definition collocation_points_value (BasisType : Basis)
    (QuadratureType : Quadrature) (num_points : nat) : DataVector :=
  fst (compute_collocation_points_and_weights BasisType QuadratureType
         num_points).

Definition quadrature_weights_value (BasisType : Basis)
    (QuadratureType : Quadrature) (num_points : nat) : DataVector :=
  snd (compute_collocation_points_and_weights BasisType QuadratureType
         num_points).

Definition barycentric_weights_value (BasisType : Basis)
    (QuadratureType : Quadrature) (num_points : nat) : DataVector :=
  barycentric_weights_loops
    (collocation_points_value BasisType QuadratureType num_points) num_points.

Definition differentiation_matrix_value (BasisType : Basis)
    (QuadratureType : Quadrature) (num_points : nat) : Matrix :=
  differentiation_matrix_loops
    (collocation_points_value BasisType QuadratureType num_points)
    (barycentric_weights_value BasisType QuadratureType num_points)
    num_points.

Definition spectral_to_grid_points_matrix_value (BasisType : Basis)
    (QuadratureType : Quadrature) (num_points : nat) : Matrix :=
  vandermonde_loops BasisType
    (collocation_points_value BasisType QuadratureType num_points) num_points.

(** The generic path, for any quadrature. *)
Definition numeric_inverse_value (BasisType : Basis)
    (QuadratureType : Quadrature) (num_points : nat) : Matrix :=
  numeric_inverse_loops
    (spectral_to_grid_points_matrix_value BasisType QuadratureType num_points)
    num_points.

(** The analytic path of the Gauss quadrature. *)
Definition analytic_inverse_value (BasisType : Basis) (num_points : nat)
  : Matrix :=
  analytic_inverse_loops BasisType
    (quadrature_weights_value BasisType Gauss num_points)
    (spectral_to_grid_points_matrix_value BasisType Gauss num_points)
    num_points.

Definition grid_points_to_spectral_matrix_value (BasisType : Basis)
    (QuadratureType : Quadrature) (num_points : nat) : Matrix :=
  match QuadratureType with
  | Gauss => analytic_inverse_value BasisType num_points
  | _ => numeric_inverse_value BasisType QuadratureType num_points
  end.

Definition linear_filter_matrix_value (BasisType : Basis)
    (QuadratureType : Quadrature) (num_points : nat) : Matrix :=
  linear_filter_dgemm
    (spectral_to_grid_points_matrix_value BasisType QuadratureType num_points)
    (grid_points_to_spectral_matrix_value BasisType QuadratureType num_points)
    num_points.

Definition interpolation_matrix_value (BasisType : Basis)
    (QuadratureType : Quadrature) (num_points : nat) (target_points : list F)
  : Matrix :=
  interpolation_matrix_loops
    (collocation_points_value BasisType QuadratureType num_points)
    (barycentric_weights_value BasisType QuadratureType num_points)
    num_points target_points.

(** The entry of the table of [(BasisType, QuadratureType, kind)] for
    [num_points]. *)
Definition quantity_value (BasisType : Basis) (QuadratureType : Quadrature)
    (kind : GeneratorKind) (num_points : nat) : Quantity :=
  match kind with
  | CollocationPointsAndWeights =>
      PointsAndWeights
        (compute_collocation_points_and_weights BasisType QuadratureType
           num_points)
  | BarycentricWeights =>
      Vector (barycentric_weights_value BasisType QuadratureType num_points)
  | DifferentiationMatrix =>
      Dense (differentiation_matrix_value BasisType QuadratureType num_points)
  | SpectralToGridPointsMatrix =>
      Dense (spectral_to_grid_points_matrix_value BasisType QuadratureType
               num_points)
  | GridPointsToSpectralMatrix =>
      Dense (grid_points_to_spectral_matrix_value BasisType QuadratureType
               num_points)
  | LinearFilterMatrix =>
      Dense (linear_filter_matrix_value BasisType QuadratureType num_points)
  end.

(** The generator struct behind each kind of table. *)
Definition generator (BasisType : Basis) (QuadratureType : Quadrature)
    (kind : GeneratorKind) : nat -> Request Quantity :=
  match kind with
  | CollocationPointsAndWeights =>
      CollocationPointsAndWeightsGenerator BasisType QuadratureType
  | BarycentricWeights => BarycentricWeightsGenerator BasisType QuadratureType
  | DifferentiationMatrix =>
      DifferentiationMatrixGenerator BasisType QuadratureType
  | SpectralToGridPointsMatrix =>
      SpectralToGridPointsMatrixGenerator BasisType QuadratureType
  | GridPointsToSpectralMatrix =>
      GridPointsToSpectralMatrixGenerator BasisType QuadratureType
  | LinearFilterMatrix => LinearFilterMatrixGenerator BasisType QuadratureType
  end.

(** A request for the table entry of any kind. *)
Definition request (BasisType : Basis) (QuadratureType : Quadrature)
    (kind : GeneratorKind) (num_points : nat) : Request Quantity :=
  precomputed_spectral_quantity BasisType QuadratureType kind
    (generator BasisType QuadratureType kind) num_points.

Definition in_range (BasisType : Basis) (QuadratureType : Quadrature)
    (num_points : nat) : Prop :=
  minimum_number_of_points BasisType QuadratureType <= num_points /\
  num_points <= maximum_number_of_points BasisType.

(** Every initialised table holds the values of its whole range. *)
Definition cache_ok (c : Cache) : Prop :=
  forall BasisType QuadratureType kind table,
    c (BasisType, QuadratureType, kind) = Some table ->
    table =
    map (quantity_value BasisType QuadratureType kind)
      (seq (minimum_number_of_points BasisType QuadratureType)
         (maximum_number_of_points BasisType + 1
          - minimum_number_of_points BasisType QuadratureType)).

(** [c'] has every table of [c]. *)
Definition cache_extends (c c' : Cache) : Prop :=
  forall key table, c key = Some table -> c' key = Some table.

(** The product of [x_j - x_k] over [k < n], [k <> j]. *)
Definition node_product (x : DataVector) (j n : nat) : F :=
  prodF (fun k => if k =? j then F1 else (vget x j - vget x k)%Sc) n.

(** The nodes [x_0 .. x_(n-1)] are pairwise distinct. *)
Definition distinct_nodes (x : DataVector) (n : nat) : Prop :=
  forall i j, i < n -> j < n -> i <> j -> vget x i <> vget x j.

(** The basis is orthogonal under the Gauss quadrature with [n] points:
    the quadrature sum of [Phi_i * Phi_j] is the normalisation square of
    [Phi_i] when [i = j] and zero otherwise. *)
Definition gauss_orthogonality (BasisType : Basis) (n : nat) : Prop :=
  let x := collocation_points_value BasisType Gauss n in
  let w := quadrature_weights_value BasisType Gauss n in
  (forall i, i < n ->
     compute_basis_function_normalization_square BasisType i <> F0) /\
  forall i j, i < n -> j < n ->
    sumF (fun k =>
            (compute_basis_function_value BasisType i (vget x k) *
             compute_basis_function_value BasisType j (vget x k) *
             vget w k)%Sc) n =
    (compute_basis_function_normalization_square BasisType i * delta i j)%Sc.

(** [blaze::invert] returns the inverse of the [n] by [n] matrix [V]. *)
Definition blaze_inverts (V : Matrix) (n : nat) : Prop :=
  rows (blaze_invert V) = n /\ columns (blaze_invert V) = n /\
  is_identity n (mat_mul_entry (blaze_invert V) V) /\
  is_identity n (mat_mul_entry V (blaze_invert V)).

(** What the transform from grid points to spectral coefficients relies
    on: orthogonality on the analytic path, the inversion routine on the
    generic path. *)
Definition transform_contract (BasisType : Basis) (QuadratureType : Quadrature)
    (n : nat) : Prop :=
  match QuadratureType with
  | Gauss => gauss_orthogonality BasisType n
  | _ =>
      blaze_inverts
        (spectral_to_grid_points_matrix_value BasisType QuadratureType n) n
  end.

(** Whether the target [t] equals one of the first [n] nodes within
    round-off. *)
Definition has_match (x : DataVector) (n : nat) (t : F) : bool :=
  existsb (fun j => equal_within_roundoff t (vget x j)) (seq 0 n).

(** The unnormalised barycentric weight of node [j] at the target [t]. *)
Definition interpolation_weight (x bw : DataVector) (t : F) (j : nat) : F :=
  (vget bw j / (t - vget x j))%Sc.

(** Within round-off every one of the first [n] nodes equals itself and no
    other node. *)
Definition nodes_separated (x : DataVector) (n : nat) : Prop :=
  forall i j, i < n -> j < n ->
    equal_within_roundoff (vget x i) (vget x j) = (i =? j).

(** ** Invariants of the loops and of the cache *)

(** [A] is an [m] by [n] matrix with all its storage. *)
Definition shaped (m n : nat) (A : Matrix) : Prop :=
  rows A = m /\ columns A = n /\ length (data A) = m * n.

(** The state of [bary_weights] while the inner loop of line 96 runs for
    the outer index [j]: [K] pairs [(k, j)] have been multiplied in. *)
Definition bary_inner_state (x : DataVector) (n j K : nat) (bw : DataVector)
  : Prop :=
  length bw = n /\
  forall m, m < n ->
    vget bw m =
    if m <? K then node_product x m (S j)
    else if m <? j then node_product x m j
    else if m =? j then prodF (fun k => (vget x j - vget x k)%Sc) K
    else F1.

(** The state before the outer iteration [J]. *)
Definition bary_outer_state (x : DataVector) (n J : nat) (bw : DataVector)
  : Prop :=
  length bw = n /\
  forall m, m < n ->
    vget bw m = if m <? J then node_product x m J else F1.

(** The state before iteration [J] of the loop of line 101. *)
Definition bary_final_state (x : DataVector) (n J : nat) (bw : DataVector)
  : Prop :=
  length bw = n /\
  forall m, m < n ->
    vget bw m =
    if m <? J then (F1 / node_product x m n)%Sc else node_product x m n.

(** The off-diagonal entry of line 131. *)
Definition diff_entry (x bw : DataVector) (i j : nat) : F :=
  (vget bw j / (vget bw i * (vget x i - vget x j)))%Sc.

(** The sum over [j < n], [j <> i]. *)
Definition sum_except (i : nat) (f : nat -> F) (n : nat) : F :=
  sumF (fun j => if j =? i then F0 else f j) n.

(** The state of the matrix while the loop of line 129 fills row [i]:
    columns below [J] are done, other rows are as in [D0]. *)
Definition diff_row_state (x bw : DataVector) (n i : nat) (D0 : Matrix)
    (J : nat) (D : Matrix) : Prop :=
  shaped n n D /\
  (forall i' j', i' < n -> j' < n -> i' <> i -> mget D i' j' = mget D0 i' j') /\
  (forall j, j < J -> j <> i -> mget D i j = diff_entry x bw i j) /\
  mget D i i = (F0 - sum_except i (diff_entry x bw i) J)%Sc.

(** Rows below [I] are complete. *)
Definition diff_state (x bw : DataVector) (n I : nat) (D : Matrix) : Prop :=
  shaped n n D /\
  forall i, i < I ->
    (forall j, j < n -> j <> i -> mget D i j = diff_entry x bw i j) /\
    mget D i i = (F0 - sum_except i (diff_entry x bw i) n)%Sc.

(** Columns below [J] are updated, the others are as in [A0]. *)
Definition columns_updated (m n : nat) (e : nat -> nat -> F -> F)
    (A0 : Matrix) (J : nat) (A : Matrix) : Prop :=
  shaped m n A /\
  (forall i j, i < m -> j < J -> mget A i j = e i j (mget A0 i j)) /\
  (forall i j, i < m -> J <= j -> mget A i j = mget A0 i j).

(** The scan of lines 298-305 over row [k]. *)
Definition scan_state (x : DataVector) (m n k : nat) (t : F) (A0 : Matrix)
    (J : nat) (st : Matrix * bool) : Prop :=
  shaped m n (fst st) /\
  (forall i' j', i' < m -> j' < n -> i' <> k ->
     mget (fst st) i' j' = mget A0 i' j') /\
  (forall j, j < J ->
     mget (fst st) k j =
     if equal_within_roundoff t (vget x j) then F1 else F0) /\
  snd st = has_match x J t.

(** The loop of lines 309-313 over row [k]. *)
Definition weigh_state (x bw : DataVector) (m n k : nat) (t : F) (A0 : Matrix)
    (J : nat) (st : Matrix * F) : Prop :=
  shaped m n (fst st) /\
  (forall i' j', i' < m -> j' < n -> i' <> k ->
     mget (fst st) i' j' = mget A0 i' j') /\
  (forall j, j < J -> mget (fst st) k j = interpolation_weight x bw t j) /\
  snd st = sumF (interpolation_weight x bw t) J.

(** Row [k] after one iteration of the loop of line 294. *)
Definition interpolation_row (x bw : DataVector) (n : nat) (t : F) (j : nat)
  : F :=
  if has_match x n t
  then (if equal_within_roundoff t (vget x j) then F1 else F0)
  else (interpolation_weight x bw t j /
        sumF (interpolation_weight x bw t) n)%Sc.

Definition interpolation_state (x bw : DataVector) (n : nat)
    (target_points : list F) (K : nat) (A : Matrix) : Prop :=
  shaped (length target_points) n A /\
  forall k j, k < K -> j < n ->
    mget A k j = interpolation_row x bw n (vget target_points k) j.

(** The request [m] succeeds with the value [v] from every cache that
    satisfies [cache_ok], and leaves such a cache with at least the tables
    it had. *)
Definition returns {A : Type} (m : Request A) (v : A) : Prop :=
  forall c, cache_ok c ->
    exists c', m c = (Ok v, c') /\ cache_ok c' /\ cache_extends c c'.

(** ** Polynomials, to say what the matrices do to samples *)

(** The value at [t] of the polynomial with the coefficients [p], the
    constant term first. *)
Fixpoint poly_eval (p : list F) (t : F) : F :=
  match p with
  | [] => F0
  | a :: q => (a + t * poly_eval q t)%Sc
  end.

(** The value at [t] of its derivative: [(a + t q)' = q + t q']. *)
Fixpoint poly_deriv_eval (p : list F) (t : F) : F :=
  match p with
  | [] => F0
  | _ :: q => (poly_eval q t + t * poly_deriv_eval q t)%Sc
  end.

(** The value at [s] of the quotient of [p - p(a)] by the factor
    [s - a]. *)
Fixpoint poly_quot_eval (p : list F) (a s : F) : F :=
  match p with
  | [] => F0
  | _ :: q => (poly_eval q s + a * poly_quot_eval q a s)%Sc
  end.

(** ** The tables a request initialises *)

(** The kinds of the tables that the generator of [kind] requests, itself
    or through the generators behind its requests. *)
Definition fetched (kind : GeneratorKind) : list GeneratorKind :=
  match kind with
  | CollocationPointsAndWeights => []
  | BarycentricWeights => [CollocationPointsAndWeights]
  | DifferentiationMatrix => [CollocationPointsAndWeights; BarycentricWeights]
  | SpectralToGridPointsMatrix => [CollocationPointsAndWeights]
  | GridPointsToSpectralMatrix =>
      [CollocationPointsAndWeights; SpectralToGridPointsMatrix]
  | LinearFilterMatrix =>
      [CollocationPointsAndWeights; SpectralToGridPointsMatrix;
       GridPointsToSpectralMatrix]
  end.

(** [key] is the table of one of [kinds] for the given basis and
    quadrature. *)
Definition among (BasisType : Basis) (QuadratureType : Quadrature)
    (kinds : list GeneratorKind) (key : Key) : bool :=
  existsb (fun kind => Key_eqb (BasisType, QuadratureType, kind) key) kinds.

(** The tables that exist after a request for [kind]. *)
Definition initialised_by (BasisType : Basis) (QuadratureType : Quadrature)
    (kind : GeneratorKind) : Key -> bool :=
  among BasisType QuadratureType (kind :: fetched kind).

(** The table of [key] once it is initialised: the values of the whole
    range. *)
Definition full_table (key : Key) : list Quantity :=
  map (quantity_value (fst (fst key)) (snd (fst key)) (snd key))
    (seq (minimum_number_of_points (fst (fst key)) (snd (fst key)))
       (maximum_number_of_points (fst (fst key)) + 1
        - minimum_number_of_points (fst (fst key)) (snd (fst key)))).

(** [c] with the tables of [needs] initialised where they were not. *)
Definition cache_fill (needs : Key -> bool) (c : Cache) : Cache :=
  fun key =>
    match c key with
    | Some table => Some table
    | None => if needs key then Some (full_table key) else None
    end.

(** With a table, the cache has the tables its generator requested. *)
Definition cache_closed (c : Cache) : Prop :=
  forall BasisType QuadratureType kind kind',
    c (BasisType, QuadratureType, kind) <> None ->
    In kind' (fetched kind) ->
    c (BasisType, QuadratureType, kind') <> None.

(** The request [m] succeeds with [v] from every cache that satisfies
    [cache_ok] and [cache_closed], keeps both, and leaves the cache filled
    with the tables of [needs]. *)
Definition fills {A : Type} (m : Request A) (v : A) (needs : Key -> bool)
  : Prop :=
  forall c, cache_ok c -> cache_closed c ->
    exists c',
      m c = (Ok v, c') /\ cache_ok c' /\ cache_closed c' /\
      forall key, c' key = cache_fill needs c key.

(** ** Failing requests for a mesh *)

(** Every function that takes [mesh] fails from the cache [c] with a
    failure that satisfies [P], and leaves the cache as it was. *)
Definition mesh_requests_fail (mesh : Mesh) (c : Cache) (P : Failure -> Prop)
  : Prop :=
  (exists e, P e /\ collocation_points_mesh mesh c = (Err e, c)) /\
  (exists e, P e /\ quadrature_weights_mesh mesh c = (Err e, c)) /\
  (exists e, P e /\ differentiation_matrix_mesh mesh c = (Err e, c)) /\
  (exists e, P e /\ spectral_to_grid_points_matrix_mesh mesh c = (Err e, c)) /\
  (exists e, P e /\ grid_points_to_spectral_matrix_mesh mesh c = (Err e, c)) /\
  (exists e, P e /\ linear_filter_matrix_mesh mesh c = (Err e, c)) /\
  forall target_points,
    exists e, P e /\ interpolation_matrix_mesh mesh target_points c = (Err e, c).

End Spectral.

(** * Instances to evaluate on

    The code of the Legendre basis is not among the sources.  To evaluate
    the definitions above, the instances below supply the Legendre
    polynomials by their three-term recurrence, the Gauss and Gauss-Lobatto
    points and weights of up to four points, a comparison within round-off
    and a matrix inverse by cofactors. *)

Section Standard.

Context {arith : Arithmetic}.

(** The scalar [n]. *)
Fixpoint Fnat (n : nat) : F :=
  match n with
  | O => F0
  | S m => Fadd (Fnat m) F1
  end.

(** [(P_k x, P_(k-1) x)] by the recurrence
    [(m + 1) P_(m+1) = (2 m + 1) x P_m - m P_(m-1)]. *)
Fixpoint legendre (k : nat) (x : F) : F * F :=
  match k with
  | O => (F1, F0)
  | S m =>
      let p := fst (legendre m x) in
      let p' := snd (legendre m x) in
      (Fdiv
         (Fsub (Fmul (Fmul (Fnat (2 * m + 1)) x) p) (Fmul (Fnat m) p'))
         (Fnat (m + 1)),
       p)
  end.

(** The integral of [P_k ^ 2] over [-1, 1] is [2 / (2 k + 1)]. *)
Definition legendre_normalization_square (k : nat) : F :=
  Fdiv (Fadd F1 F1) (Fnat (2 * k + 1)).

(** The inverse by cofactors of the leading [rows] by [rows] block. *)
Definition skip (k i : nat) : nat := if i <? k then i else S i.

Definition sign (i : nat) : F := if Nat.even i then F1 else Fopp F1.

Fixpoint det (n : nat) (a : nat -> nat -> F) : F :=
  match n with
  | O => F1
  | S m =>
      sumF (fun i =>
              Fmul (Fmul (sign i) (a i 0))
                (det m (fun r c => a (skip i r) (S c)))) (S m)
  end.

Definition cofactor_inverse (M : Matrix) : Matrix :=
  let n := rows M in
  mkMatrix n n
    (flat_map (fun j =>
       map (fun i =>
              Fdiv
                (Fmul (sign (i + j))
                   (det (n - 1) (fun r c => mget M (skip j r) (skip i c))))
                (det n (mget M)))
         (seq 0 n))
       (seq 0 n)).

Definition value {A : Type} (r : Result A * Cache) (d : A) : A :=
  match fst r with Ok a => a | Err _ => d end.

Definition three_point_mesh : Mesh :=
  mkMesh (fun _ => 3) (fun _ => Legendre) (fun _ => GaussLobatto).

End Standard.

(** ** Rational arithmetic

    Exact where the points are rational, rounded to sixteen digits where
    they are not. *)

Module Rational.

Import Stdlib.QArith.QArith_base Stdlib.QArith.Qcanon.
#[local] Close Scope Qc_scope.
#[local] Close Scope Q_scope.

#[local] Instance rational_arithmetic : Arithmetic := {|
  F := Qc;
  F0 := Q2Qc (0 # 1);
  F1 := Q2Qc (1 # 1);
  Fadd := Qcplus;
  Fmul := Qcmult;
  Fsub := Qcminus;
  Fopp := Qcopp;
  Fdiv := Qcdiv;
  Finv := Qcinv
|}.

Definition rational_field :
  field_theory F0 F1 Fadd Fmul Fsub Fopp Fdiv Finv (@eq F) := Qcft.

(** The rational [n / d]. *)
Definition q (n : Z) (d : positive) : Qc := Q2Qc (n # d).

Definition legendre_points_and_weights (QuadratureType : Quadrature)
    (n : nat) : list Qc * list Qc :=
  match QuadratureType, n with
  | Gauss, 1 => ([q 0 1], [q 2 1])
  | Gauss, 2 =>
      ([q (-5773502691896257) 10000000000000000;
        q 5773502691896257 10000000000000000],
       [q 1 1; q 1 1])
  | Gauss, 3 =>
      ([q (-7745966692414834) 10000000000000000; q 0 1;
        q 7745966692414834 10000000000000000],
       [q 5 9; q 8 9; q 5 9])
  | GaussLobatto, 2 => ([q (-1) 1; q 1 1], [q 1 1; q 1 1])
  | GaussLobatto, 3 => ([q (-1) 1; q 0 1; q 1 1], [q 1 3; q 4 3; q 1 3])
  | GaussLobatto, 4 =>
      ([q (-1) 1; q (-4472135954999579) 10000000000000000;
        q 4472135954999579 10000000000000000; q 1 1],
       [q 1 6; q 5 6; q 5 6; q 1 6])
  | _, _ => (repeat (q 0 1) n, repeat (q 0 1) n)
  end.

Definition Qc_abs (a : Qc) : Qc :=
  if Qle_bool (0 # 1) a then a else Qcopp a.

Definition Qc_max (a b : Qc) : Qc := if Qle_bool a b then b else a.

Definition Qc_ltb (a b : Qc) : bool := negb (Qle_bool b a).

(** [|a - b| < (max(|a|, |b|) + 1) * 100 * 2^-52] *)
Definition within_roundoff (a b : Qc) : bool :=
  Qc_ltb (Qc_abs (Qcminus a b))
    (Qcmult (Qcplus (Qc_max (Qc_abs a) (Qc_abs b)) (q 1 1))
       (q 100 4503599627370496)).

#[local] Instance legendre_primitives : Primitives := {|
  compute_basis_function_value := fun _ k x => fst (legendre k x);
  compute_basis_function_normalization_square :=
    fun _ k => legendre_normalization_square k;
  compute_collocation_points_and_weights :=
    fun _ QuadratureType n => legendre_points_and_weights QuadratureType n;
  maximum_number_of_points := fun _ => 4;
  minimum_number_of_points :=
    fun _ QuadratureType =>
      match QuadratureType with GaussLobatto => 2 | _ => 1 end;
  equal_within_roundoff := within_roundoff;
  blaze_invert := cofactor_inverse
|}.

(** The numerators and denominators of a matrix, row by row. *)
Definition entries (M : Matrix) : list (list Q) :=
  map (fun i => map (fun j => this (mget M i j)) (seq 0 (columns M)))
    (seq 0 (rows M)).

End Rational.

(** ** Real arithmetic

    The points of the quadratures as they are, square roots included. *)

Module Real.

Import Stdlib.Reals.Reals Stdlib.setoid_ring.RealField.
#[local] Open Scope R_scope.

#[local] Instance real_arithmetic : Arithmetic := {|
  F := R;
  F0 := 0;
  F1 := 1;
  Fadd := Rplus;
  Fmul := Rmult;
  Fsub := Rminus;
  Fopp := Ropp;
  Fdiv := Rdiv;
  Finv := Rinv
|}.

Definition real_field :
  field_theory F0 F1 Fadd Fmul Fsub Fopp Fdiv Finv (@eq F) := Rfield.

Definition legendre_points_and_weights (QuadratureType : Quadrature)
    (n : nat) : list R * list R :=
  match QuadratureType, n with
  | Gauss, 1%nat => ([0], [2])
  | Gauss, 2%nat => ([- sqrt (1 / 3); sqrt (1 / 3)], [1; 1])
  | Gauss, 3%nat =>
      ([- sqrt (3 / 5); 0; sqrt (3 / 5)], [5 / 9; 8 / 9; 5 / 9])
  | GaussLobatto, 2%nat => ([-1; 1], [1; 1])
  | GaussLobatto, 3%nat => ([-1; 0; 1], [1 / 3; 4 / 3; 1 / 3])
  | GaussLobatto, 4%nat =>
      ([-1; - sqrt (1 / 5); sqrt (1 / 5); 1], [1 / 6; 5 / 6; 5 / 6; 1 / 6])
  | _, _ => (repeat 0 n, repeat 0 n)
  end.

(** [|a - b| < (max(|a|, |b|) + 1) * 100 * 2^-52] *)
Definition within_roundoff (a b : R) : bool :=
  if Rlt_dec (Rabs (a - b)) ((Rmax (Rabs a) (Rabs b) + 1) * (100 / 2 ^ 52))
  then true else false.

#[local] Instance legendre_primitives : Primitives := {|
  compute_basis_function_value := fun _ k x => fst (legendre k x);
  compute_basis_function_normalization_square :=
    fun _ k => legendre_normalization_square k;
  compute_collocation_points_and_weights :=
    fun _ QuadratureType n => legendre_points_and_weights QuadratureType n;
  maximum_number_of_points := fun _ => 4%nat;
  minimum_number_of_points :=
    fun _ QuadratureType =>
      match QuadratureType with GaussLobatto => 2%nat | _ => 1%nat end;
  equal_within_roundoff := within_roundoff;
  blaze_invert := cofactor_inverse
|}.

End Real.

(** ** Binary64 arithmetic

    The arithmetic of the code: [double] is the binary64 format, whose
    operations round to nearest.  Here the field laws fail, and what the
    code computes is found by evaluation.  The points and the weights are
    the exact ones rounded to the nearest double; the tables go up to four
    points for both quadratures. *)

Module Binary64.

Import Stdlib.Floats.Floats.
#[local] Open Scope float_scope.

#[local] Instance binary64_arithmetic : Arithmetic := {|
  F := float;
  F0 := 0;
  F1 := 1;
  Fadd := PrimFloat.add;
  Fmul := PrimFloat.mul;
  Fsub := PrimFloat.sub;
  Fopp := PrimFloat.opp;
  Fdiv := PrimFloat.div;
  Finv := fun a => 1 / a
|}.

Definition legendre_points_and_weights (QuadratureType : Quadrature)
    (n : nat) : list float * list float :=
  match QuadratureType, n with
  | Gauss, 1%nat => ([0], [2])
  | Gauss, 2%nat =>
      ([- 0x1.279a74590331cp-1; 0x1.279a74590331cp-1], [1; 1])
  | Gauss, 3%nat =>
      ([- 0x1.8c97ef43f7248p-1; 0; 0x1.8c97ef43f7248p-1],
       [0x1.1c71c71c71c72p-1; 0x1.c71c71c71c71cp-1; 0x1.1c71c71c71c72p-1])
  | Gauss, 4%nat =>
      ([- 0x1.b8e6dbcf63985p-1; - 0x1.5c23fd9dd3dfcp-2;
        0x1.5c23fd9dd3dfcp-2; 0x1.b8e6dbcf63985p-1],
       [0x1.64340f7e7b66bp-2; 0x1.4de5f840c24cap-1;
        0x1.4de5f840c24cap-1; 0x1.64340f7e7b66bp-2])
  | GaussLobatto, 2%nat => ([-1; 1], [1; 1])
  | GaussLobatto, 3%nat =>
      ([-1; 0; 1],
       [0x1.5555555555555p-2; 0x1.5555555555555p+0; 0x1.5555555555555p-2])
  | GaussLobatto, 4%nat =>
      ([-1; - 0x1.c9f25c5bfedd9p-2; 0x1.c9f25c5bfedd9p-2; 1],
       [0x1.5555555555555p-3; 0x1.aaaaaaaaaaaabp-1;
        0x1.aaaaaaaaaaaabp-1; 0x1.5555555555555p-3])
  | _, _ => (repeat 0 n, repeat 0 n)
  end.

Definition float_max (a b : float) : float := if a <? b then b else a.

(** [|a - b| < (max(|a|, |b|) + 1) * 100 * 2^-52] *)
Definition within_roundoff (a b : float) : bool :=
  abs (a - b) <? (float_max (abs a) (abs b) + 1) * (100 * 0x1p-52).

#[local] Instance legendre_primitives : Primitives := {|
  compute_basis_function_value := fun _ k x => fst (legendre k x);
  compute_basis_function_normalization_square :=
    fun _ k => legendre_normalization_square k;
  compute_collocation_points_and_weights :=
    fun _ QuadratureType n => legendre_points_and_weights QuadratureType n;
  maximum_number_of_points := fun _ => 4%nat;
  minimum_number_of_points :=
    fun _ QuadratureType =>
      match QuadratureType with GaussLobatto => 2%nat | _ => 1%nat end;
  equal_within_roundoff := within_roundoff;
  blaze_invert := cofactor_inverse
|}.


End Binary64.

(** * Lemmas *)

Section Properties.

Context {arith : Arithmetic}.
Context {prims : Primitives}.

Local Infix "+" := Fadd : F_scope.
Local Infix "*" := Fmul : F_scope.
Local Infix "-" := Fsub : F_scope.
Local Infix "/" := Fdiv : F_scope.

(** ** Loops *)

Lemma for_loop_empty (S : Type) (a b : nat) (body : nat -> S -> S) (s : S) :
  b <= a -> for_loop a b body s = s.
Proof.
  intro H. unfold for_loop. replace (b - a) with 0 by lia. reflexivity.
Qed.

Lemma for_loop_S (S : Type) (a b : nat) (body : nat -> S -> S) (s : S) :
  a <= b -> for_loop a (Datatypes.S b) body s = body b (for_loop a b body s).
Proof.
  intro H. unfold for_loop.
  replace (Datatypes.S b - a) with (Datatypes.S (b - a)) by lia.
  rewrite seq_S, fold_left_app. simpl.
  replace (a + (b - a)) with b by lia. reflexivity.
Qed.

(** Invariant rule: [P i s] holds before iteration [i]. *)
Lemma for_loop_inv (S : Type) (P : nat -> S -> Prop) (a b : nat)
    (body : nat -> S -> S) (s : S) :
  a <= b ->
  P a s ->
  (forall i t, a <= i < b -> P i t -> P (Datatypes.S i) (body i t)) ->
  P b (for_loop a b body s).
Proof.
  intros Hab H0 Hstep. induction b as [|b IH].
  - assert (a = 0) by lia. subst. rewrite for_loop_empty by lia. exact H0.
  - destruct (Nat.eq_dec a (Datatypes.S b)) as [->|Hne].
    + rewrite for_loop_empty by lia. exact H0.
    + rewrite for_loop_S by lia. apply Hstep; [lia|].
      apply IH; [lia|]. intros i t Hi. apply Hstep. lia.
Qed.

(** ** Vectors *)

Lemma length_vset (v : DataVector) (i : nat) (a : F) :
  length (vset v i a) = length v.
Proof.
  revert i. induction v as [|h t IH]; intros [|i]; simpl; auto.
Qed.

Lemma vget_vset_eq (v : DataVector) (i : nat) (a : F) :
  i < length v -> vget (vset v i a) i = a.
Proof.
  unfold vget. revert i. induction v as [|h t IH]; intros [|i]; simpl;
    intro H; try lia; auto. apply IH. lia.
Qed.

Lemma vget_vset_neq (v : DataVector) (i k : nat) (a : F) :
  k <> i -> vget (vset v i a) k = vget v k.
Proof.
  unfold vget. revert i k.
  induction v as [|h t IH]; intros [|i] [|k]; simpl; intro H;
    try reflexivity; try congruence.
  apply IH. congruence.
Qed.

Lemma vget_fill (n i : nat) (a : F) :
  i < n -> vget (DataVector_fill n a) i = a.
Proof.
  unfold vget, DataVector_fill. intro H.
  apply nth_repeat_lt. exact H.
Qed.

Lemma length_fill (n : nat) (a : F) : length (DataVector_fill n a) = n.
Proof. apply repeat_length. Qed.

(** ** Matrices *)

Lemma shaped_new (m n : nat) : shaped m n (Matrix_new m n).
Proof.
  unfold shaped, Matrix_new; simpl. rewrite repeat_length. auto.
Qed.

Lemma shaped_mset (m n : nat) (A : Matrix) (i j : nat) (a : F) :
  shaped m n A -> shaped m n (mset A i j a).
Proof.
  unfold shaped, mset; simpl. rewrite length_vset. auto.
Qed.

(** Distinct entries have distinct offsets. *)
Lemma offset_injective (m i j i' j' : nat) :
  i < m -> i' < m -> (i <> i' \/ j <> j') -> i + j * m <> i' + j' * m.
Proof.
  intros Hi Hi' Hne Heq.
  destruct (Nat.lt_trichotomy j j') as [H|[H|H]].
  - assert (Datatypes.S j * m <= j' * m) by (apply Nat.mul_le_mono_r; lia).
    simpl in *. lia.
  - subst j'. lia.
  - assert (Datatypes.S j' * m <= j * m) by (apply Nat.mul_le_mono_r; lia).
    simpl in *. lia.
Qed.

Lemma mget_mset_eq (m n : nat) (A : Matrix) (i j : nat) (a : F) :
  shaped m n A -> i < m -> j < n -> mget (mset A i j a) i j = a.
Proof.
  intros (Hr & Hc & Hl) Hi Hj. unfold mget, mset; simpl.
  apply vget_vset_eq. rewrite Hl, Hr. nia.
Qed.

Lemma mget_mset_neq (m n : nat) (A : Matrix) (i j i' j' : nat) (a : F) :
  shaped m n A -> i < m -> i' < m -> (i <> i' \/ j <> j') ->
  mget (mset A i j a) i' j' = mget A i' j'.
Proof.
  intros (Hr & Hc & Hl) Hi Hi' Hne. unfold mget, mset; simpl.
  apply vget_vset_neq. rewrite Hr.
  apply not_eq_sym, offset_injective; assumption.
Qed.

Lemma mget_new (m n i j : nat) : mget (Matrix_new m n) i j = F0.
Proof.
  unfold mget, Matrix_new; simpl.
  destruct (Nat.lt_ge_cases (i + j * m) (m * n)) as [H|H].
  - apply nth_repeat_lt; exact H.
  - apply nth_overflow. rewrite repeat_length. exact H.
Qed.

(** ** Exact arithmetic *)

Hypothesis Fth :
  field_theory F0 F1 Fadd Fmul Fsub Fopp Fdiv Finv (@eq F).

Add Field Ffield : Fth.

Ltac cases :=
  repeat match goal with
    | |- context [?a <? ?b] => destruct (Nat.ltb_spec a b)
    | |- context [?a =? ?b] => destruct (Nat.eqb_spec a b)
    | H : context [?a <? ?b] |- _ => destruct (Nat.ltb_spec a b)
    | H : context [?a =? ?b] |- _ => destruct (Nat.eqb_spec a b)
    end; try lia.

Lemma F1_neq_F0 : F1 <> F0.
Proof. exact (F_1_neq_0 Fth). Qed.

Lemma Fmul_neq_0 (a b : F) : a <> F0 -> b <> F0 -> (a * b)%Sc <> F0.
Proof.
  intros Ha Hb H. apply Hb.
  assert (E : b = (a * b / a)%Sc) by (field; exact Ha).
  rewrite E, H. field. exact Ha.
Qed.

Lemma Fsub_neq_0 (a b : F) : a <> b -> (a - b)%Sc <> F0.
Proof.
  intros Hab H. apply Hab.
  assert (E : a = (a - b + b)%Sc) by ring.
  rewrite E, H. ring.
Qed.

Lemma Fdiv_neq_0 (a b : F) : a <> F0 -> b <> F0 -> (a / b)%Sc <> F0.
Proof.
  intros Ha Hb H. apply Ha.
  assert (E : a = (a / b * b)%Sc) by (field; exact Hb).
  rewrite E, H. ring.
Qed.

Lemma sumF_ext (f g : nat -> F) (n : nat) :
  (forall i, i < n -> f i = g i) -> sumF f n = sumF g n.
Proof.
  induction n as [|n IH]; intro H; simpl; [reflexivity|].
  rewrite IH, H by auto. reflexivity.
Qed.

Lemma prodF_ext (f g : nat -> F) (n : nat) :
  (forall i, i < n -> f i = g i) -> prodF f n = prodF g n.
Proof.
  induction n as [|n IH]; intro H; simpl; [reflexivity|].
  rewrite IH, H by auto. reflexivity.
Qed.

Lemma prodF_neq_0 (f : nat -> F) (n : nat) :
  (forall i, i < n -> f i <> F0) -> prodF f n <> F0.
Proof.
  induction n as [|n IH]; intro H; simpl.
  - exact F1_neq_F0.
  - apply Fmul_neq_0; auto.
Qed.

Lemma sumF_zero (n : nat) : sumF (fun _ => F0) n = F0.
Proof. induction n as [|n IH]; simpl; [reflexivity|]. rewrite IH. ring. Qed.

Lemma sumF_add (f g : nat -> F) (n : nat) :
  sumF (fun i => (f i + g i)%Sc) n = (sumF f n + sumF g n)%Sc.
Proof. induction n as [|n IH]; simpl; [ring|]. rewrite IH. ring. Qed.

Lemma sumF_mul_l (c : F) (f : nat -> F) (n : nat) :
  sumF (fun i => (c * f i)%Sc) n = (c * sumF f n)%Sc.
Proof. induction n as [|n IH]; simpl; [ring|]. rewrite IH. ring. Qed.

Lemma sumF_mul_r (c : F) (f : nat -> F) (n : nat) :
  sumF (fun i => (f i * c)%Sc) n = (sumF f n * c)%Sc.
Proof. induction n as [|n IH]; simpl; [ring|]. rewrite IH. ring. Qed.

Lemma sumF_div_r (c : F) (f : nat -> F) (n : nat) :
  c <> F0 -> sumF (fun i => (f i / c)%Sc) n = (sumF f n / c)%Sc.
Proof.
  intro Hc. induction n as [|n IH]; simpl; [field; exact Hc|].
  rewrite IH. field. exact Hc.
Qed.

Lemma sumF_swap (f : nat -> nat -> F) (m n : nat) :
  sumF (fun i => sumF (fun j => f i j) n) m =
  sumF (fun j => sumF (fun i => f i j) m) n.
Proof.
  induction m as [|m IH]; simpl.
  - symmetry. apply sumF_zero.
  - rewrite IH, <- sumF_add. reflexivity.
Qed.

(** A sum against the Kronecker delta picks one term. *)
Lemma sumF_delta_r (f : nat -> F) (j n : nat) :
  j < n -> sumF (fun l => (f l * delta l j)%Sc) n = f j.
Proof.
  unfold delta. induction n as [|n IH]; intro H; [lia|]. simpl.
  destruct (Nat.eq_dec j n) as [->|Hne].
  - rewrite Nat.eqb_refl.
    rewrite (@sumF_ext _ (fun _ => F0)), sumF_zero; [ring|].
    intros i Hi. cases. ring.
  - rewrite IH by lia. cases. ring.
Qed.

Lemma sumF_delta_l (f : nat -> F) (i n : nat) :
  i < n -> sumF (fun l => (delta i l * f l)%Sc) n = f i.
Proof.
  intro H. rewrite <- (@sumF_delta_r f i n H). apply sumF_ext.
  intros l _. unfold delta. rewrite (Nat.eqb_sym i l). ring.
Qed.

(** ** Barycentric weights *)

Lemma node_product_S_other (x : DataVector) (m j : nat) :
  m <> j ->
  node_product x m (S j) = (node_product x m j * (vget x m - vget x j))%Sc.
Proof.
  intro H. unfold node_product. simpl. cases. reflexivity.
Qed.

Lemma node_product_S_self (x : DataVector) (j : nat) :
  node_product x j (S j) = prodF (fun k => (vget x j - vget x k)%Sc) j.
Proof.
  unfold node_product. simpl. rewrite Nat.eqb_refl.
  rewrite (@prodF_ext _ (fun k => (vget x j - vget x k)%Sc)).
  - ring.
  - intros i Hi. cases. reflexivity.
Qed.

Lemma node_product_neq_0 (x : DataVector) (j n : nat) :
  distinct_nodes x n -> j < n -> node_product x j n <> F0.
Proof.
  intros Hd Hj. apply prodF_neq_0. intros k Hk. cases.
  - apply F1_neq_F0.
  - apply Fsub_neq_0. apply Hd; auto.
Qed.

Lemma bary_inner_loop (x : DataVector) (n j : nat) (bw : DataVector) :
  j < n ->
  bary_outer_state x n j bw ->
  bary_outer_state x n (S j)
    (for_loop 0 j (fun k bary_weights =>
       let bary_weights :=
         vset bary_weights k
           (vget bary_weights k * (vget x k - vget x j))%Sc in
       vset bary_weights j
         (vget bary_weights j * (vget x j - vget x k))%Sc) bw).
Proof.
  intros Hj [Hlen Hbw].
  assert (Hinv : bary_inner_state x n j j
    (for_loop 0 j (fun k bary_weights =>
       let bary_weights :=
         vset bary_weights k
           (vget bary_weights k * (vget x k - vget x j))%Sc in
       vset bary_weights j
         (vget bary_weights j * (vget x j - vget x k))%Sc) bw)).
  { apply for_loop_inv with (P := bary_inner_state x n j); [lia| |].
    - split; [exact Hlen|]. intros m Hm. rewrite (Hbw m Hm). cases; reflexivity.
    - intros K t HK [Hl Ht]. split.
      + cbv zeta. rewrite !length_vset. exact Hl.
      + intros m Hm. cbv zeta.
        destruct (Nat.eq_dec m j) as [->|Hmj].
        * rewrite vget_vset_eq by (rewrite length_vset; lia).
          rewrite vget_vset_neq by lia. rewrite (Ht j Hm). cases.
          reflexivity.
        * rewrite vget_vset_neq by exact Hmj.
          destruct (Nat.eq_dec m K) as [->|HmK].
          -- rewrite vget_vset_eq by lia. rewrite (Ht K Hm). cases.
             symmetry. apply node_product_S_other. lia.
          -- rewrite vget_vset_neq by exact HmK. rewrite (Ht m Hm).
             cases; reflexivity. }
  destruct Hinv as [Hl Ht]. split; [exact Hl|].
  intros m Hm. rewrite (Ht m Hm). cases; try reflexivity.
  subst m. symmetry. apply node_product_S_self.
Qed.

Lemma bary_outer_loop (x : DataVector) (n : nat) :
  0 < n ->
  bary_outer_state x n n
    (for_loop 1 n (fun j bary_weights =>
       for_loop 0 j (fun k bary_weights =>
         let bary_weights :=
           vset bary_weights k
             (vget bary_weights k * (vget x k - vget x j))%Sc in
         vset bary_weights j
           (vget bary_weights j * (vget x j - vget x k))%Sc)
         bary_weights)
       (DataVector_fill n F1)).
Proof.
  intro Hn. apply for_loop_inv with (P := bary_outer_state x n); [lia| |].
  - split; [apply length_fill|]. intros m Hm. rewrite vget_fill by exact Hm.
    cases; [|reflexivity]. assert (m = 0) by lia. subst m.
    unfold node_product. simpl. ring.
  - intros j t Hj Hstate. apply bary_inner_loop; [lia|exact Hstate].
Qed.

Lemma length_barycentric_weights_loops (x : DataVector) (n : nat) :
  length (barycentric_weights_loops x n) = n.
Proof.
  unfold barycentric_weights_loops.
  assert (H : forall (a b : nat) (body : nat -> DataVector -> DataVector) v,
             (forall i t, length (body i t) = length t) ->
             length (for_loop a b body v) = length v).
  { intros a b body v Hb. unfold for_loop.
    generalize (seq a (b - a)). intro l. revert v.
    induction l as [|h l IH]; intro v; simpl; [reflexivity|].
    rewrite IH. apply Hb. }
  rewrite !H; try apply length_fill.
  - intros i t. apply H. intros k u. cbv zeta. now rewrite !length_vset.
  - intros i t. apply length_vset.
Qed.

(** After both loops, entry [j] is the reciprocal of the product. *)
Lemma vget_barycentric_weights_loops (x : DataVector) (n j : nat) :
  j < n ->
  vget (barycentric_weights_loops x n) j = (F1 / node_product x j n)%Sc.
Proof.
  intro Hj. unfold barycentric_weights_loops. cbv zeta.
  destruct (bary_outer_loop x (n := n)) as [Hlen Hbw]; [lia|].
  set (bw := for_loop 1 n _ _) in *.
  assert (Hinv : bary_final_state x n n
    (for_loop 0 n (fun j bary_weights =>
       vset bary_weights j (F1 / vget bary_weights j)%Sc) bw)).
  { apply for_loop_inv with (P := bary_final_state x n); [lia| |].
    - split; [exact Hlen|]. intros m Hm. rewrite (Hbw m Hm). cases.
      reflexivity.
    - intros J t HJ [Hl Ht]. split; [now rewrite length_vset|].
      intros m Hm. destruct (Nat.eq_dec m J) as [->|HmJ].
      + rewrite vget_vset_eq by lia. rewrite (Ht J Hm). cases. reflexivity.
      + rewrite vget_vset_neq by exact HmJ. rewrite (Ht m Hm).
        cases; reflexivity. }
  destruct Hinv as [_ Ht]. rewrite (Ht j Hj). cases. reflexivity.
Qed.

(** ** Differentiation matrix *)

Lemma sumF_split_at (i : nat) (a : F) (f : nat -> F) (n : nat) :
  i < n ->
  sumF (fun j => if j =? i then a else f j) n = (a + sum_except i f n)%Sc.
Proof.
  unfold sum_except. induction n as [|n IH]; intro H; [lia|]. simpl.
  destruct (Nat.eq_dec i n) as [->|Hne].
  - rewrite Nat.eqb_refl.
    rewrite (@sumF_ext (fun j => if j =? n then a else f j)
                       (fun j => if j =? n then F0 else f j)).
    + ring.
    + intros j Hj. cases. reflexivity.
  - rewrite IH by lia. cases. ring.
Qed.

Lemma diff_row_loop (x bw : DataVector) (n i : nat) (D0 : Matrix) :
  i < n -> shaped n n D0 ->
  diff_row_state x bw n i D0 n
    (for_loop 0 n (fun j diff_matrix =>
       if negb (i =? j) then
         let diff_matrix :=
           mset diff_matrix i j
             (vget bw j / (vget bw i * (vget x i - vget x j)))%Sc in
         mset diff_matrix i i (mget diff_matrix i i - mget diff_matrix i j)%Sc
       else diff_matrix)
       (mset D0 i i F0)).
Proof.
  intros Hi Hs.
  apply for_loop_inv with (P := diff_row_state x bw n i D0); [lia| |].
  - repeat split; try apply shaped_mset; try apply Hs.
    + intros i' j' Hi' Hj' Hne.
      apply mget_mset_neq with (m := n) (n := n); auto.
    + intros j Hj. lia.
    + rewrite mget_mset_eq with (m := n) (n := n); auto.
      unfold sum_except. simpl. ring.
  - intros J D HJ (HsD & Hrows & Hdone & Hdiag).
    destruct (Nat.eqb_spec i J) as [->|HiJ]; simpl.
    + repeat split; auto; try apply HsD.
      * intros j Hj Hne. apply Hdone; lia.
      * rewrite Hdiag. unfold sum_except. simpl. rewrite Nat.eqb_refl. ring.
    + assert (Hs1 : shaped n n
                (mset D i J
                   (vget bw J / (vget bw i * (vget x i - vget x J)))%Sc))
        by (apply shaped_mset; exact HsD).
      repeat split; try (apply shaped_mset; exact Hs1); try apply Hs1.
      * intros i' j' Hi' Hj' Hne.
        rewrite !mget_mset_neq with (m := n) (n := n); auto.
      * intros j Hj Hne.
        rewrite mget_mset_neq with (m := n) (n := n); auto.
        destruct (Nat.eq_dec j J) as [->|HjJ].
        -- apply mget_mset_eq with (m := n) (n := n); auto. lia.
        -- rewrite mget_mset_neq with (m := n) (n := n); auto.
           apply Hdone; lia.
      * rewrite mget_mset_eq with (m := n) (n := n); auto.
        rewrite mget_mset_neq with (m := n) (n := n); auto.
        rewrite mget_mset_eq with (m := n) (n := n); auto; try lia.
        rewrite Hdiag. unfold sum_except. simpl. cases.
        unfold diff_entry. ring.
Qed.

Lemma differentiation_matrix_loops_state (x bw : DataVector) (n : nat) :
  diff_state x bw n n (differentiation_matrix_loops x bw n).
Proof.
  unfold differentiation_matrix_loops.
  apply for_loop_inv with (P := diff_state x bw n); [lia| |].
  - split; [apply shaped_new|]. intros i Hi. lia.
  - intros I D HI [HsD Hrows]. cbv zeta.
    destruct (@diff_row_loop x bw n I D) as (Hs' & Hother & Hdone & Hdiag);
      [lia|exact HsD|].
    split; [exact Hs'|]. intros i Hi.
    destruct (Nat.eq_dec i I) as [->|Hne].
    + split; [|exact Hdiag]. intros j Hj Hji. apply Hdone; auto.
    + destruct (Hrows i) as [Hoff Hd]; [lia|]. split.
      * intros j Hj Hji. rewrite Hother by lia. apply Hoff; auto.
      * rewrite Hother by lia. exact Hd.
Qed.

(** ** Loops that write every entry once *)

(** One pass over row [i]: entry [(i, j)] becomes [e j] of its old value. *)
Lemma row_loop (m n i : nat) (e : nat -> F -> F) (A0 : Matrix) (J : nat) :
  shaped m n A0 -> i < m -> J <= n ->
  let A := for_loop 0 J (fun j A => mset A i j (e j (mget A i j))) A0 in
  shaped m n A /\
  (forall j, j < J -> mget A i j = e j (mget A0 i j)) /\
  (forall i' j', i' < m -> (i' <> i \/ J <= j') ->
     mget A i' j' = mget A0 i' j').
Proof.
  intros Hs Hi HJ. cbv zeta. revert HJ.
  apply for_loop_inv with
    (P := fun J A =>
       J <= n ->
       shaped m n A /\
       (forall j, j < J -> mget A i j = e j (mget A0 i j)) /\
       (forall i' j', i' < m -> (i' <> i \/ J <= j') ->
          mget A i' j' = mget A0 i' j')); [lia| |].
  - intros _. split; [exact Hs|]. split; [intros j Hj; lia|reflexivity].
  - intros K A HK IH HSK. destruct IH as (HsA & Hdone & Hrest); [lia|].
    split; [|split].
    + apply shaped_mset. exact HsA.
    + intros j Hj. destruct (Nat.eq_dec j K) as [->|Hne].
      * rewrite mget_mset_eq with (m := m) (n := n); auto.
        rewrite Hrest; auto.
      * rewrite mget_mset_neq with (m := m) (n := n); auto.
        apply Hdone. lia.
    + intros i' j' Hi' Hor.
      rewrite mget_mset_neq with (m := m) (n := n); auto; try lia.
      apply Hrest; auto. lia.
Qed.

(** One pass over column [j]. *)
Lemma column_loop (m n j : nat) (e : nat -> F -> F) (A0 : Matrix) (I : nat) :
  shaped m n A0 -> j < n -> I <= m ->
  let A := for_loop 0 I (fun i A => mset A i j (e i (mget A i j))) A0 in
  shaped m n A /\
  (forall i, i < I -> mget A i j = e i (mget A0 i j)) /\
  (forall i' j', i' < m -> (j' <> j \/ I <= i') ->
     mget A i' j' = mget A0 i' j').
Proof.
  intros Hs Hj HI. cbv zeta. revert HI.
  apply for_loop_inv with
    (P := fun I A =>
       I <= m ->
       shaped m n A /\
       (forall i, i < I -> mget A i j = e i (mget A0 i j)) /\
       (forall i' j', i' < m -> (j' <> j \/ I <= i') ->
          mget A i' j' = mget A0 i' j')); [lia| |].
  - intros _. split; [exact Hs|]. split; [intros i Hi; lia|reflexivity].
  - intros K A HK IH HSK. destruct IH as (HsA & Hdone & Hrest); [lia|].
    split; [|split].
    + apply shaped_mset. exact HsA.
    + intros i Hi. destruct (Nat.eq_dec i K) as [->|Hne].
      * rewrite mget_mset_eq with (m := m) (n := n); auto.
        rewrite Hrest; auto.
      * rewrite mget_mset_neq with (m := m) (n := n); auto; try lia.
        apply Hdone. lia.
    + intros i' j' Hi' Hor.
      rewrite mget_mset_neq with (m := m) (n := n); auto; try lia.
      apply Hrest; auto. lia.
Qed.

(** Row by row, as the generators fill their matrices. *)
Lemma fill_by_rows (m n : nat) (e : nat -> nat -> F) (A0 : Matrix) :
  shaped m n A0 ->
  let A :=
    for_loop 0 m (fun i A => for_loop 0 n (fun j A => mset A i j (e i j)) A)
      A0 in
  shaped m n A /\ forall i j, i < m -> j < n -> mget A i j = e i j.
Proof.
  intro Hs. cbv zeta.
  apply for_loop_inv with
    (P := fun I A =>
       shaped m n A /\ forall i j, i < I -> j < n -> mget A i j = e i j);
    [lia| |].
  - split; [exact Hs|]. intros i j Hi. lia.
  - intros I A HI [HsA Hdone].
    destruct (@row_loop m n I (fun j _ => e I j) A n) as (Hs' & Hrow & Hrest);
      [exact HsA|lia|lia|].
    cbv zeta in *. split; [exact Hs'|].
    intros i j Hi Hj. destruct (Nat.eq_dec i I) as [->|Hne].
    + apply Hrow. exact Hj.
    + rewrite Hrest by (auto; lia). apply Hdone; lia.
Qed.

(** Column by column, every entry from its old value. *)
Lemma update_by_columns (m n : nat) (e : nat -> nat -> F -> F) (A0 : Matrix) :
  shaped m n A0 ->
  let A :=
    for_loop 0 n (fun j A =>
      for_loop 0 m (fun i A => mset A i j (e i j (mget A i j))) A) A0 in
  shaped m n A /\
  forall i j, i < m -> j < n -> mget A i j = e i j (mget A0 i j).
Proof.
  intro Hs. cbv zeta.
  assert (H : columns_updated m n e A0 n
    (for_loop 0 n (fun j A =>
       for_loop 0 m (fun i A => mset A i j (e i j (mget A i j))) A) A0)).
  { apply for_loop_inv with (P := columns_updated m n e A0); [lia| |].
    - split; [exact Hs|]. split; [intros i j Hi Hj; lia|reflexivity].
    - intros J A HJ (HsA & Hdone & Htodo).
      destruct (@column_loop m n J (fun i => e i J) A m)
        as (Hs' & Hcol & Hrest); [exact HsA|lia|lia|].
      cbv zeta in *. split; [exact Hs'|]. split.
      + intros i j Hi Hj. destruct (Nat.eq_dec j J) as [->|Hne].
        * rewrite Hcol by exact Hi. rewrite Htodo; auto.
        * rewrite Hrest by (auto; lia). apply Hdone; lia.
      + intros i j Hi Hj. rewrite Hrest by (auto; lia). apply Htodo; lia. }
  destruct H as (H1 & H2 & _). split; [exact H1|].
  intros i j Hi Hj. apply H2; assumption.
Qed.

(** ** Entries of the transform matrices *)

Lemma vandermonde_loops_entries (BasisType : Basis) (x : DataVector) (n : nat) :
  shaped n n (vandermonde_loops BasisType x n) /\
  forall i j, i < n -> j < n ->
    mget (vandermonde_loops BasisType x n) i j =
    compute_basis_function_value BasisType j (vget x i).
Proof.
  unfold vandermonde_loops.
  apply (@fill_by_rows n n
           (fun i j => compute_basis_function_value BasisType j (vget x i))).
  apply shaped_new.
Qed.

Lemma analytic_inverse_loops_entries (BasisType : Basis) (w : DataVector)
    (V : Matrix) (n : nat) :
  shaped n n (analytic_inverse_loops BasisType w V n) /\
  forall i j, i < n -> j < n ->
    mget (analytic_inverse_loops BasisType w V n) i j =
    (mget V j i * vget w j /
     compute_basis_function_normalization_square BasisType i)%Sc.
Proof.
  unfold analytic_inverse_loops.
  apply (@fill_by_rows n n
           (fun i j =>
              (mget V j i * vget w j /
               compute_basis_function_normalization_square BasisType i)%Sc)).
  apply shaped_new.
Qed.

(** The blaze work matrix is a copy of the matrix whose storage it is
    built from. *)
Lemma blaze_DynamicMatrix_data (V : Matrix) (n : nat) :
  shaped n n V -> blaze_DynamicMatrix n n (data V) = V.
Proof.
  destruct V as [r c d]. unfold shaped, blaze_DynamicMatrix; simpl.
  intros (-> & -> & Hl). f_equal. rewrite <- Hl. apply firstn_all.
Qed.

Lemma numeric_inverse_loops_entries (V : Matrix) (n : nat) :
  shaped n n V ->
  shaped n n (numeric_inverse_loops V n) /\
  forall i j, i < n -> j < n ->
    mget (numeric_inverse_loops V n) i j = mget (blaze_invert V) i j.
Proof.
  intro Hs. unfold numeric_inverse_loops. cbv zeta.
  rewrite (blaze_DynamicMatrix_data Hs).
  apply (@fill_by_rows n n (fun i j => mget (blaze_invert V) i j)).
  apply shaped_new.
Qed.

(** The call of line 215 multiplies the first [min 2 n] columns of the
    first matrix with the first [min 2 n] rows of the second. *)
Lemma linear_filter_dgemm_entries (V W : Matrix) (n : nat) :
  shaped n n V -> shaped n n W ->
  shaped n n (linear_filter_dgemm V W n) /\
  forall i j, i < n -> j < n ->
    mget (linear_filter_dgemm V W n) i j =
    sumF (fun l => (mget V i l * mget W l j)%Sc) (Nat.min 2 n).
Proof.
  intros (HrV & _ & _) (HrW & _ & _). unfold linear_filter_dgemm, dgemm_.
  set (e := fun i j old =>
         (F1 * sumF (fun l => (dgemm_op "N" (data V) n i l *
                               dgemm_op "N" (data W) n l j)%Sc) (Nat.min 2 n)
          + F0 * old)%Sc).
  destruct (@update_by_columns n n e
              (mkMatrix n n (data (Matrix_new n n)))) as [Hs He].
  { unfold shaped; simpl. rewrite repeat_length. auto. }
  cbv zeta in *. unfold e in *. simpl rows. simpl columns.
  set (C := for_loop 0 n _ _) in *.
  assert (HC : mkMatrix n n (data C) = C).
  { destruct C as [r c d]. destruct Hs as (Hr & Hc & _). simpl in *.
    subst. reflexivity. }
  rewrite HC. split; [exact Hs|].
  intros i j Hi Hj. rewrite (He i j Hi Hj).
  unfold dgemm_op, mget. simpl. rewrite HrV, HrW.
  set (s := sumF _ _). ring.
Qed.

Lemma shaped_spectral_to_grid (BasisType : Basis) (QuadratureType : Quadrature)
    (n : nat) :
  shaped n n (spectral_to_grid_points_matrix_value BasisType QuadratureType n).
Proof. apply vandermonde_loops_entries. Qed.

Lemma spectral_to_grid_entries (BasisType : Basis)
    (QuadratureType : Quadrature) (n i j : nat) :
  i < n -> j < n ->
  mget (spectral_to_grid_points_matrix_value BasisType QuadratureType n) i j =
  compute_basis_function_value BasisType j
    (vget (collocation_points_value BasisType QuadratureType n) i).
Proof. apply vandermonde_loops_entries. Qed.

Lemma analytic_inverse_entries (BasisType : Basis) (n i j : nat) :
  i < n -> j < n ->
  mget (analytic_inverse_value BasisType n) i j =
  (mget (spectral_to_grid_points_matrix_value BasisType Gauss n) j i *
   vget (quadrature_weights_value BasisType Gauss n) j /
   compute_basis_function_normalization_square BasisType i)%Sc.
Proof. apply analytic_inverse_loops_entries. Qed.

Lemma numeric_inverse_entries (BasisType : Basis)
    (QuadratureType : Quadrature) (n i j : nat) :
  i < n -> j < n ->
  mget (numeric_inverse_value BasisType QuadratureType n) i j =
  mget (blaze_invert
          (spectral_to_grid_points_matrix_value BasisType QuadratureType n))
    i j.
Proof.
  apply numeric_inverse_loops_entries. apply shaped_spectral_to_grid.
Qed.

Lemma shaped_grid_to_spectral (BasisType : Basis) (QuadratureType : Quadrature)
    (n : nat) :
  shaped n n (grid_points_to_spectral_matrix_value BasisType QuadratureType n).
Proof.
  destruct QuadratureType; simpl;
    try apply analytic_inverse_loops_entries;
    apply numeric_inverse_loops_entries; apply shaped_spectral_to_grid.
Qed.

(** On the analytic path the product with the Vandermonde matrix is the
    quadrature sum of two basis functions over the normalisation. *)
Lemma analytic_inverse_left (BasisType : Basis) (n : nat) :
  gauss_orthogonality BasisType n ->
  is_identity n
    (mat_mul_entry (analytic_inverse_value BasisType n)
       (spectral_to_grid_points_matrix_value BasisType Gauss n)).
Proof.
  intros [Hnorm Horth] i j Hi Hj. unfold mat_mul_entry.
  destruct (analytic_inverse_loops_entries BasisType
              (quadrature_weights_value BasisType Gauss n)
              (spectral_to_grid_points_matrix_value BasisType Gauss n) n)
    as [(_ & Hc & _) _].
  fold (analytic_inverse_value BasisType n) in Hc. rewrite Hc.
  rewrite (@sumF_ext _
    (fun k =>
       (compute_basis_function_value BasisType i
          (vget (collocation_points_value BasisType Gauss n) k) *
        compute_basis_function_value BasisType j
          (vget (collocation_points_value BasisType Gauss n) k) *
        vget (quadrature_weights_value BasisType Gauss n) k /
        compute_basis_function_normalization_square BasisType i)%Sc)).
  - rewrite sumF_div_r by (apply Hnorm; exact Hi).
    cbv zeta in Horth. rewrite (Horth i j Hi Hj).
    field. apply Hnorm; exact Hi.
  - intros k Hk. rewrite analytic_inverse_entries by assumption.
    rewrite !spectral_to_grid_entries by assumption.
    field. apply Hnorm; exact Hi.
Qed.

Lemma numeric_inverse_left (BasisType : Basis) (QuadratureType : Quadrature)
    (n : nat) :
  blaze_inverts
    (spectral_to_grid_points_matrix_value BasisType QuadratureType n) n ->
  is_identity n
    (mat_mul_entry (numeric_inverse_value BasisType QuadratureType n)
       (spectral_to_grid_points_matrix_value BasisType QuadratureType n)).
Proof.
  intros (Hr & Hc & Hleft & _) i j Hi Hj.
  rewrite <- (Hleft i j Hi Hj). unfold mat_mul_entry.
  destruct (@numeric_inverse_loops_entries
              (spectral_to_grid_points_matrix_value BasisType QuadratureType n)
              n (shaped_spectral_to_grid BasisType QuadratureType n))
    as [(_ & Hc' & _) _].
  fold (numeric_inverse_value BasisType QuadratureType n) in Hc'.
  rewrite Hc', Hc. apply sumF_ext. intros k Hk.
  rewrite numeric_inverse_entries by assumption. reflexivity.
Qed.

(** The transform to spectral coefficients undoes the transform to grid
    points, on either path. *)
Lemma grid_to_spectral_left_inverse (BasisType : Basis)
    (QuadratureType : Quadrature) (n : nat) :
  transform_contract BasisType QuadratureType n ->
  is_identity n
    (mat_mul_entry
       (grid_points_to_spectral_matrix_value BasisType QuadratureType n)
       (spectral_to_grid_points_matrix_value BasisType QuadratureType n)).
Proof.
  destruct QuadratureType; simpl; intro H.
  - apply analytic_inverse_left; exact H.
  - apply numeric_inverse_left; exact H.
  - apply numeric_inverse_left; exact H.
Qed.

(** ** Two facts of matrix algebra, on entries *)

(** A left inverse of [v] equals a right inverse of [v]. *)
Lemma inverse_unique (a v g : nat -> nat -> F) (n : nat) :
  (forall i k, i < n -> k < n ->
     sumF (fun l => (a i l * v l k)%Sc) n = delta i k) ->
  (forall l j, l < n -> j < n ->
     sumF (fun k => (v l k * g k j)%Sc) n = delta l j) ->
  forall i j, i < n -> j < n -> a i j = g i j.
Proof.
  intros Hleft Hright i j Hi Hj.
  transitivity (sumF (fun l => (a i l * delta l j)%Sc) n).
  { symmetry. apply (@sumF_delta_r (fun l => a i l) j n Hj). }
  transitivity
    (sumF (fun l => sumF (fun k => (a i l * v l k * g k j)%Sc) n) n).
  { apply sumF_ext. intros l Hl. rewrite <- (Hright l j Hl Hj).
    rewrite <- sumF_mul_l. apply sumF_ext. intros k _. ring. }
  rewrite (sumF_swap (fun l k => (a i l * v l k * g k j)%Sc)).
  transitivity (sumF (fun k => (delta i k * g k j)%Sc) n).
  { apply sumF_ext. intros k Hk. rewrite <- (Hleft i k Hi Hk).
    rewrite <- sumF_mul_r. reflexivity. }
  apply (@sumF_delta_l (fun k => g k j) i n Hi).
Qed.

(** Keeping the first [K] modes is a projection: with [w] a left inverse of
    [v], the matrix [p i j = sum over l < K of v i l * w l j] satisfies
    [p * p = p]. *)
Lemma projector_idempotent (v w : nat -> nat -> F) (n K : nat) :
  K <= n ->
  (forall l l', l < n -> l' < n ->
     sumF (fun k => (w l k * v k l')%Sc) n = delta l l') ->
  forall i j,
    sumF (fun k =>
            (sumF (fun l => (v i l * w l k)%Sc) K *
             sumF (fun l => (v k l * w l j)%Sc) K)%Sc) n =
    sumF (fun l => (v i l * w l j)%Sc) K.
Proof.
  intros HK Hinv i j.
  transitivity
    (sumF (fun k =>
       sumF (fun l =>
         sumF (fun l' => (v i l * w l k * (v k l' * w l' j))%Sc) K) K) n).
  { apply sumF_ext. intros k _. rewrite <- sumF_mul_r.
    apply sumF_ext. intros l _. rewrite <- sumF_mul_l. reflexivity. }
  rewrite (sumF_swap
             (fun k l =>
                sumF (fun l' => (v i l * w l k * (v k l' * w l' j))%Sc) K)).
  apply sumF_ext. intros l Hl.
  rewrite (sumF_swap (fun k l' => (v i l * w l k * (v k l' * w l' j))%Sc)).
  transitivity (sumF (fun l' => (delta l l' * (v i l * w l' j))%Sc) K).
  { apply sumF_ext. intros l' Hl'.
    rewrite <- (Hinv l l') by lia. rewrite <- sumF_mul_r.
    apply sumF_ext. intros k _. ring. }
  apply (@sumF_delta_l (fun l' => (v i l * w l' j)%Sc) l K Hl).
Qed.

(** ** The linear filter *)

Lemma linear_filter_entries (BasisType : Basis) (QuadratureType : Quadrature)
    (n i j : nat) :
  i < n -> j < n ->
  mget (linear_filter_matrix_value BasisType QuadratureType n) i j =
  sumF (fun l =>
          (mget (spectral_to_grid_points_matrix_value BasisType
                   QuadratureType n) i l *
           mget (grid_points_to_spectral_matrix_value BasisType
                   QuadratureType n) l j)%Sc) (Nat.min 2 n).
Proof.
  apply linear_filter_dgemm_entries.
  - apply shaped_spectral_to_grid.
  - apply shaped_grid_to_spectral.
Qed.

Lemma shaped_linear_filter (BasisType : Basis) (QuadratureType : Quadrature)
    (n : nat) :
  shaped n n (linear_filter_matrix_value BasisType QuadratureType n).
Proof.
  apply linear_filter_dgemm_entries.
  - apply shaped_spectral_to_grid.
  - apply shaped_grid_to_spectral.
Qed.

Lemma linear_filter_idempotent (BasisType : Basis)
    (QuadratureType : Quadrature) (n : nat) :
  transform_contract BasisType QuadratureType n ->
  forall i j, i < n -> j < n ->
    mat_mul_entry (linear_filter_matrix_value BasisType QuadratureType n)
      (linear_filter_matrix_value BasisType QuadratureType n) i j =
    mget (linear_filter_matrix_value BasisType QuadratureType n) i j.
Proof.
  intros Hc i j Hi Hj. unfold mat_mul_entry.
  destruct (shaped_linear_filter BasisType QuadratureType n) as (_ & -> & _).
  rewrite (linear_filter_entries BasisType QuadratureType Hi Hj).
  rewrite <- (@projector_idempotent
    (mget (spectral_to_grid_points_matrix_value BasisType QuadratureType n))
    (mget (grid_points_to_spectral_matrix_value BasisType QuadratureType n))
    n (Nat.min 2 n)).
  - apply sumF_ext. intros k Hk.
    rewrite !linear_filter_entries by assumption. reflexivity.
  - lia.
  - intros l l' Hl Hl'.
    pose proof (@grid_to_spectral_left_inverse BasisType QuadratureType n Hc
                  l l' Hl Hl') as H.
    unfold mat_mul_entry in H.
    destruct (shaped_grid_to_spectral BasisType QuadratureType n)
      as (_ & Hcol & _).
    rewrite Hcol in H. exact H.
Qed.

(** ** Interpolation matrix *)

Lemma has_match_S (x : DataVector) (n : nat) (t : F) :
  has_match x (S n) t =
  has_match x n t || equal_within_roundoff t (vget x n).
Proof.
  unfold has_match. rewrite seq_S, existsb_app. simpl.
  rewrite orb_false_r. reflexivity.
Qed.

Lemma has_match_true (x : DataVector) (n : nat) (t : F) :
  has_match x n t = true <->
  exists j, j < n /\ equal_within_roundoff t (vget x j) = true.
Proof.
  unfold has_match. rewrite existsb_exists. split.
  - intros (j & Hin & Hj). apply in_seq in Hin. exists j. split; [lia|exact Hj].
  - intros (j & Hlt & Hj). exists j. split; [apply in_seq; lia|exact Hj].
Qed.

Lemma has_match_false (x : DataVector) (n : nat) (t : F) :
  has_match x n t = false <->
  forall j, j < n -> equal_within_roundoff t (vget x j) = false.
Proof.
  split.
  - intros H j Hj. destruct (equal_within_roundoff t (vget x j)) eqn:E; auto.
    assert (has_match x n t = true) by (apply has_match_true; eauto).
    congruence.
  - intro H. destruct (has_match x n t) eqn:E; auto.
    apply has_match_true in E. destruct E as (j & Hj & E).
    rewrite H in E by exact Hj. discriminate.
Qed.

Lemma scan_loop (x : DataVector) (m n k : nat) (t : F) (A0 : Matrix) :
  shaped m n A0 -> k < m ->
  scan_state x m n k t A0 n
    (for_loop 0 n (fun j st =>
       let interp_matrix := mset (fst st) k j F0 in
       if equal_within_roundoff t (vget x j)
       then (mset interp_matrix k j F1, true)
       else (interp_matrix, snd st))
       (A0, false)).
Proof.
  intros Hs Hk.
  apply for_loop_inv with (P := scan_state x m n k t A0); [lia| |].
  - split; [exact Hs|]. split; [reflexivity|].
    split; [intros j Hj; lia|reflexivity].
  - intros J st HJ (HsA & Hrows & Hdone & Hflag). cbv zeta.
    assert (Hs1 : shaped m n (mset (fst st) k J F0))
      by (apply shaped_mset; exact HsA).
    unfold scan_state. rewrite has_match_S, <- Hflag.
    destruct (equal_within_roundoff t (vget x J)) eqn:E; simpl fst; simpl snd.
    + split; [apply shaped_mset; exact Hs1|]. split; [|split].
      * intros i' j' Hi' Hj' Hne.
        rewrite !mget_mset_neq with (m := m) (n := n); auto.
      * intros j Hj. destruct (Nat.eq_dec j J) as [->|Hne].
        -- rewrite E. apply mget_mset_eq with (m := m) (n := n); auto. lia.
        -- rewrite !mget_mset_neq with (m := m) (n := n); auto.
           apply Hdone. lia.
      * symmetry. apply orb_true_r.
    + split; [exact Hs1|]. split; [|split].
      * intros i' j' Hi' Hj' Hne.
        rewrite !mget_mset_neq with (m := m) (n := n); auto.
      * intros j Hj. destruct (Nat.eq_dec j J) as [->|Hne].
        -- rewrite E. apply mget_mset_eq with (m := m) (n := n); auto. lia.
        -- rewrite !mget_mset_neq with (m := m) (n := n); auto.
           apply Hdone. lia.
      * rewrite orb_false_r. reflexivity.
Qed.

Lemma weigh_loop (x bw : DataVector) (m n k : nat) (t : F) (A0 : Matrix) :
  shaped m n A0 -> k < m ->
  weigh_state x bw m n k t A0 n
    (for_loop 0 n (fun j st =>
       let interp_matrix :=
         mset (fst st) k j (vget bw j / (t - vget x j))%Sc in
       (interp_matrix, (snd st + mget interp_matrix k j)%Sc))
       (A0, F0)).
Proof.
  intros Hs Hk.
  apply for_loop_inv with (P := weigh_state x bw m n k t A0); [lia| |].
  - split; [exact Hs|]. split; [reflexivity|].
    split; [intros j Hj; lia|reflexivity].
  - intros J st HJ (HsA & Hrows & Hdone & Hsum). cbv zeta.
    unfold weigh_state. simpl fst. simpl snd.
    split; [apply shaped_mset; exact HsA|]. split; [|split].
    + intros i' j' Hi' Hj' Hne.
      rewrite mget_mset_neq with (m := m) (n := n); auto.
    + intros j Hj. destruct (Nat.eq_dec j J) as [->|Hne].
      * apply mget_mset_eq with (m := m) (n := n); auto. lia.
      * rewrite mget_mset_neq with (m := m) (n := n); auto.
        apply Hdone. lia.
    + rewrite mget_mset_eq with (m := m) (n := n); auto; [|lia].
      rewrite Hsum. reflexivity.
Qed.

Lemma interpolation_matrix_loops_state (x bw : DataVector) (n : nat)
    (target_points : list F) :
  interpolation_state x bw n target_points (length target_points)
    (interpolation_matrix_loops x bw n target_points).
Proof.
  unfold interpolation_matrix_loops. cbv zeta.
  set (m := length target_points).
  apply for_loop_inv with (P := interpolation_state x bw n target_points);
    [lia| |].
  - split; [apply shaped_new|]. intros k j Hk. lia.
  - intros K A HK [HsA Hdone]. fold m in HsA.
    set (t := vget target_points K).
    destruct (@scan_loop x m n K t A HsA) as (Hs1 & Hrows1 & Hrow1 & Hflag);
      [lia|].
    set (scanned := for_loop 0 n _ (A, false)) in *.
    rewrite Hflag.
    unfold interpolation_state, interpolation_row. fold m.
    destruct (has_match x n t) eqn:Hmatch; simpl negb; cbv iota.
    + split; [exact Hs1|]. intros k j Hk Hj.
      destruct (Nat.eq_dec k K) as [->|Hne].
      * fold t. rewrite Hmatch. apply Hrow1. exact Hj.
      * rewrite Hrows1 by lia. rewrite Hdone by lia. reflexivity.
    + destruct (@weigh_loop x bw m n K t (fst scanned) Hs1)
        as (Hs2 & Hrows2 & Hrow2 & Hsum); [lia|].
      set (summed := for_loop 0 n _ (fst scanned, F0)) in *.
      destruct (@row_loop m n K (fun _ old => (old / snd summed)%Sc)
                  (fst summed) n Hs2) as (Hs3 & Hrow3 & Hrows3); [lia|lia|].
      cbv zeta in *. split; [exact Hs3|]. intros k j Hk Hj.
      destruct (Nat.eq_dec k K) as [->|Hne].
      * fold t. rewrite Hmatch. rewrite Hrow3 by exact Hj.
        rewrite Hrow2 by exact Hj. rewrite Hsum. reflexivity.
      * rewrite Hrows3 by (auto; lia). rewrite Hrows2 by lia.
        rewrite Hrows1 by lia. rewrite Hdone by lia. reflexivity.
Qed.

(** ** The sum of the barycentric interpolation weights *)

Lemma sumF_sub_mul_l (c : F) (f g : nat -> F) (n : nat) :
  sumF (fun i => (c * (f i - g i))%Sc) n = (c * (sumF f n - sumF g n))%Sc.
Proof. induction n as [|n IH]; simpl; [ring|]. rewrite IH. ring. Qed.

Lemma distinct_nodes_S (x : DataVector) (n : nat) :
  distinct_nodes x (S n) -> distinct_nodes x n.
Proof. intros H i j Hi Hj. apply H; lia. Qed.

(** For distinct nodes and a target [t] that is none of them, the weights
    [1 / node_product x j n / (t - x_j)] add up to the reciprocal of the
    product of the [t - x_j]. *)
Lemma barycentric_sum (x : DataVector) (n : nat) :
  0 < n -> distinct_nodes x n ->
  forall t, (forall j, j < n -> t <> vget x j) ->
    sumF (fun j => (F1 / node_product x j n / (t - vget x j))%Sc) n =
    (F1 / prodF (fun j => (t - vget x j)%Sc) n)%Sc.
Proof.
  induction n as [|n IH]; intros Hn Hd t Ht; [lia|].
  assert (Htn : (t - vget x n)%Sc <> F0) by (apply Fsub_neq_0, Ht; lia).
  destruct (Nat.eq_dec n 0) as [->|Hn0].
  - simpl. unfold node_product. simpl. field.
    split; [exact Htn|apply F1_neq_F0].
  - assert (Hd' : distinct_nodes x n) by (apply distinct_nodes_S; exact Hd).
    assert (Hxn : forall j, j < n -> vget x n <> vget x j)
      by (intros j Hj; apply Hd; lia).
    assert (HPt : prodF (fun j => (t - vget x j)%Sc) n <> F0).
    { apply prodF_neq_0. intros j Hj. apply Fsub_neq_0, Ht. lia. }
    assert (HPx : prodF (fun j => (vget x n - vget x j)%Sc) n <> F0).
    { apply prodF_neq_0. intros j Hj. apply Fsub_neq_0, Hxn. exact Hj. }
    pose proof (IH ltac:(lia) Hd' t ltac:(intros j Hj; apply Ht; lia)) as IHt.
    pose proof (IH ltac:(lia) Hd' (vget x n) Hxn) as IHx.
    change (sumF (fun j => (F1 / node_product x j (S n) / (t - vget x j))%Sc)
              (S n))
      with (sumF (fun j => (F1 / node_product x j (S n) / (t - vget x j))%Sc) n
            + F1 / node_product x n (S n) / (t - vget x n))%Sc.
    rewrite (@sumF_ext _
      (fun j =>
         (F1 / (t - vget x n) *
          (F1 / node_product x j n / (t - vget x j) -
           F1 / node_product x j n / (vget x n - vget x j)))%Sc)).
    + rewrite sumF_sub_mul_l, IHt, IHx, node_product_S_self.
      simpl. field. repeat split; assumption.
    + intros j Hj. rewrite node_product_S_other by lia.
      assert (Htj : (t - vget x j)%Sc <> F0) by (apply Fsub_neq_0, Ht; lia).
      assert (Hnj : (vget x n - vget x j)%Sc <> F0)
        by (apply Fsub_neq_0, Hxn; exact Hj).
      assert (Hjn : (vget x j - vget x n)%Sc <> F0)
        by (apply Fsub_neq_0; intro E; apply (Hxn j Hj); symmetry; exact E).
      pose proof (@node_product_neq_0 x j n Hd' Hj) as Hnp.
      field. repeat split; assumption.
Qed.

(** Hence the sum that normalises a row is not zero. *)
Lemma interpolation_weight_sum_neq_0 (x : DataVector) (n : nat) (t : F) :
  0 < n -> distinct_nodes x n -> (forall j, j < n -> t <> vget x j) ->
  sumF (interpolation_weight x (barycentric_weights_loops x n) t) n <> F0.
Proof.
  intros Hn Hd Ht.
  rewrite (@sumF_ext _
    (fun j => (F1 / node_product x j n / (t - vget x j))%Sc)).
  - rewrite barycentric_sum by assumption.
    apply Fdiv_neq_0; [apply F1_neq_F0|].
    apply prodF_neq_0. intros j Hj. apply Fsub_neq_0, Ht. exact Hj.
  - intros j Hj. unfold interpolation_weight.
    rewrite vget_barycentric_weights_loops by exact Hj. reflexivity.
Qed.

(** ** Requests *)

Lemma Key_eqb_eq (a b : Key) : Key_eqb a b = true <-> a = b.
Proof.
  destruct a as [[ba qa] ka], b as [[bb qb] kb]. unfold Key_eqb. simpl.
  rewrite !andb_true_iff. split.
  - intros [[Hb Hq] Hk].
    destruct ba, bb; try discriminate;
      destruct qa, qb; try discriminate;
      destruct ka, kb; try discriminate; reflexivity.
  - intro E. inversion E; subst.
    destruct bb, qb, kb; auto.
Qed.

Lemma cache_store_same (c : Cache) (key : Key) (table : list Quantity) :
  cache_store c key table key = Some table.
Proof.
  unfold cache_store.
  destruct (Key_eqb key key) eqn:E; [reflexivity|].
  assert (Key_eqb key key = true) by (apply Key_eqb_eq; reflexivity).
  congruence.
Qed.

Lemma cache_store_other (c : Cache) (key key' : Key) (table : list Quantity) :
  key <> key' -> cache_store c key table key' = c key'.
Proof.
  intro H. unfold cache_store.
  destruct (Key_eqb key key') eqn:E; [|reflexivity].
  apply Key_eqb_eq in E. contradiction.
Qed.

Lemma cache_extends_refl (c : Cache) : cache_extends c c.
Proof. intros key table H. exact H. Qed.

Lemma cache_extends_trans (c1 c2 c3 : Cache) :
  cache_extends c1 c2 -> cache_extends c2 c3 -> cache_extends c1 c3.
Proof. intros H12 H23 key table H. apply H23, H12, H. Qed.

Lemma returns_ret (A : Type) (v : A) : returns (ret v) v.
Proof.
  intros c Hc. exists c. split; [reflexivity|].
  split; [exact Hc|apply cache_extends_refl].
Qed.

Lemma returns_bind (A B : Type) (m : Request A) (f : A -> Request B)
    (v : A) (w : B) :
  returns m v -> returns (f v) w -> returns (bind m f) w.
Proof.
  intros Hm Hf c Hc. destruct (Hm c Hc) as (c1 & E1 & Hc1 & Hx1).
  destruct (Hf c1 Hc1) as (c2 & E2 & Hc2 & Hx2).
  exists c2. unfold bind. rewrite E1, E2.
  split; [reflexivity|]. split; [exact Hc2|].
  eapply cache_extends_trans; eassumption.
Qed.

Lemma returns_for_each (A B : Type) (f : A -> Request B) (g : A -> B)
    (l : list A) :
  (forall a, In a l -> returns (f a) (g a)) ->
  returns (for_each f l) (map g l).
Proof.
  induction l as [|a l IH]; intro H; simpl.
  - apply returns_ret.
  - apply returns_bind with (v := g a); [apply H; left; reflexivity|].
    apply returns_bind with (v := map g l);
      [apply IH; intros b Hb; apply H; right; exact Hb|].
    apply returns_ret.
Qed.

Lemma static_cache_get_table (BasisType : Basis) (QuadratureType : Quadrature)
    (kind : GeneratorKind) (n : nat) :
  in_range BasisType QuadratureType n ->
  static_cache_get (minimum_number_of_points BasisType QuadratureType)
    (map (quantity_value BasisType QuadratureType kind)
       (seq (minimum_number_of_points BasisType QuadratureType)
          (maximum_number_of_points BasisType + 1
           - minimum_number_of_points BasisType QuadratureType))) n =
  quantity_value BasisType QuadratureType kind n.
Proof.
  intros [Hmin Hmax]. unfold static_cache_get.
  set (lo := minimum_number_of_points BasisType QuadratureType) in *.
  set (hi := maximum_number_of_points BasisType) in *.
  rewrite nth_indep with (d' := quantity_value BasisType QuadratureType kind 0)
    by (rewrite length_map, length_seq; lia).
  rewrite map_nth, seq_nth by lia. f_equal. lia.
Qed.

(** Out of range: the assertions fail first, whatever the generator. *)
Lemma precomputed_spectral_quantity_out_of_range (BasisType : Basis)
    (QuadratureType : Quadrature) (kind : GeneratorKind)
    (gen : nat -> Request Quantity) (n : nat) (c : Cache) :
  ~ in_range BasisType QuadratureType n ->
  exists message,
    precomputed_spectral_quantity BasisType QuadratureType kind gen n c =
    (Err (RangeError message), c).
Proof.
  intro H. unfold precomputed_spectral_quantity, bind, in_range in *.
  destruct (Nat.leb_spec (minimum_number_of_points BasisType QuadratureType) n)
    as [Hmin|Hmin]; simpl.
  - destruct (Nat.leb_spec n (maximum_number_of_points BasisType))
      as [Hmax|Hmax]; simpl.
    + exfalso. apply H. split; assumption.
    + eexists. reflexivity.
  - eexists. reflexivity.
Qed.

(** In range, with the table already there: the entry is returned and
    nothing changes. *)
Lemma precomputed_spectral_quantity_hit (BasisType : Basis)
    (QuadratureType : Quadrature) (kind : GeneratorKind)
    (gen : nat -> Request Quantity) (n : nat) (c : Cache)
    (table : list Quantity) :
  in_range BasisType QuadratureType n ->
  cache_ok c -> c (BasisType, QuadratureType, kind) = Some table ->
  precomputed_spectral_quantity BasisType QuadratureType kind gen n c =
  (Ok (quantity_value BasisType QuadratureType kind n), c).
Proof.
  intros Hr Hc Ht. pose proof Hr as [Hmin Hmax].
  unfold precomputed_spectral_quantity, bind.
  apply Nat.leb_le in Hmin, Hmax. rewrite Hmin, Hmax. simpl.
  unfold static_local. rewrite Ht. unfold ret.
  rewrite (Hc _ _ _ _ Ht), static_cache_get_table by exact Hr. reflexivity.
Qed.

(** In range: the entry is returned, and afterwards the table is there. *)
Lemma precomputed_spectral_quantity_in_range (BasisType : Basis)
    (QuadratureType : Quadrature) (kind : GeneratorKind)
    (gen : nat -> Request Quantity) (n : nat) :
  (forall k, in_range BasisType QuadratureType k ->
     returns (gen k) (quantity_value BasisType QuadratureType kind k)) ->
  in_range BasisType QuadratureType n ->
  forall c, cache_ok c ->
    exists c',
      precomputed_spectral_quantity BasisType QuadratureType kind gen n c =
      (Ok (quantity_value BasisType QuadratureType kind n), c') /\
      cache_ok c' /\ cache_extends c c' /\
      c' (BasisType, QuadratureType, kind) <> None.
Proof.
  intros Hgen Hr c Hc.
  destruct (c (BasisType, QuadratureType, kind)) as [table|] eqn:Ht.
  - exists c. rewrite (@precomputed_spectral_quantity_hit BasisType QuadratureType kind
               gen n c table Hr Hc Ht).
    split; [reflexivity|]. split; [exact Hc|].
    split; [apply cache_extends_refl|]. congruence.
  - pose proof Hr as [Hmin Hmax].
    set (lo := minimum_number_of_points BasisType QuadratureType) in *.
    set (hi := maximum_number_of_points BasisType) in *.
    assert (Hinit : returns (make_static_cache lo (hi + 1) gen)
              (map (quantity_value BasisType QuadratureType kind)
                 (seq lo (hi + 1 - lo)))).
    { apply returns_for_each. intros k Hk. apply in_seq in Hk.
      apply Hgen. unfold in_range. fold lo hi. lia. }
    destruct (Hinit c Hc) as (c1 & E1 & Hc1 & Hx1).
    set (table := map (quantity_value BasisType QuadratureType kind)
                    (seq lo (hi + 1 - lo))) in *.
    exists (cache_store c1 (BasisType, QuadratureType, kind) table).
    split; [|split; [|split]].
    + unfold precomputed_spectral_quantity, bind. fold lo hi.
      apply Nat.leb_le in Hmin, Hmax. rewrite Hmin, Hmax. simpl.
      unfold static_local. rewrite Ht, E1. unfold ret.
      unfold table, lo, hi. rewrite static_cache_get_table by exact Hr.
      reflexivity.
    + intros b q k t Hbqk.
      destruct (Key_eqb (BasisType, QuadratureType, kind) (b, q, k)) eqn:E.
      * apply Key_eqb_eq in E. inversion E; subst b q k.
        rewrite cache_store_same in Hbqk. inversion Hbqk. reflexivity.
      * rewrite cache_store_other in Hbqk.
        -- apply Hc1. exact Hbqk.
        -- intro E'. apply Key_eqb_eq in E'. congruence.
    + intros key t Hkey. pose proof (Hx1 key t Hkey) as H1.
      destruct (Key_eqb (BasisType, QuadratureType, kind) key) eqn:E.
      * apply Key_eqb_eq in E. subst key. congruence.
      * rewrite cache_store_other; [exact H1|].
        intro E'. apply Key_eqb_eq in E'. congruence.
    + rewrite cache_store_same. discriminate.
Qed.

Lemma precomputed_spectral_quantity_returns (BasisType : Basis)
    (QuadratureType : Quadrature) (kind : GeneratorKind)
    (gen : nat -> Request Quantity) (n : nat) :
  (forall k, in_range BasisType QuadratureType k ->
     returns (gen k) (quantity_value BasisType QuadratureType kind k)) ->
  in_range BasisType QuadratureType n ->
  returns (precomputed_spectral_quantity BasisType QuadratureType kind gen n)
    (quantity_value BasisType QuadratureType kind n).
Proof.
  intros Hgen Hr c Hc.
  destruct (@precomputed_spectral_quantity_in_range BasisType QuadratureType
              kind gen n Hgen Hr c Hc) as (c' & E & Hc' & Hx & _).
  exists c'. auto.
Qed.

(** ** What each function of the interface returns *)

Section Returns.

Variables (BasisType : Basis) (QuadratureType : Quadrature).

Lemma CollocationPointsAndWeightsGenerator_returns (n : nat) :
  returns (CollocationPointsAndWeightsGenerator BasisType QuadratureType n)
    (quantity_value BasisType QuadratureType CollocationPointsAndWeights n).
Proof. apply returns_ret. Qed.

Lemma collocation_points_returns (n : nat) :
  in_range BasisType QuadratureType n ->
  returns (collocation_points BasisType QuadratureType n)
    (collocation_points_value BasisType QuadratureType n).
Proof.
  intro Hr. unfold collocation_points.
  eapply returns_bind.
  - apply precomputed_spectral_quantity_returns; [|exact Hr].
    intros k _. apply CollocationPointsAndWeightsGenerator_returns.
  - apply returns_ret.
Qed.

Lemma quadrature_weights_returns (n : nat) :
  in_range BasisType QuadratureType n ->
  returns (quadrature_weights BasisType QuadratureType n)
    (quadrature_weights_value BasisType QuadratureType n).
Proof.
  intro Hr. unfold quadrature_weights.
  eapply returns_bind.
  - apply precomputed_spectral_quantity_returns; [|exact Hr].
    intros k _. apply CollocationPointsAndWeightsGenerator_returns.
  - apply returns_ret.
Qed.

Lemma BarycentricWeightsGenerator_returns (n : nat) :
  in_range BasisType QuadratureType n ->
  returns (BarycentricWeightsGenerator BasisType QuadratureType n)
    (quantity_value BasisType QuadratureType BarycentricWeights n).
Proof.
  intro Hr. unfold BarycentricWeightsGenerator.
  eapply returns_bind; [apply collocation_points_returns; exact Hr|].
  apply returns_ret.
Qed.

Lemma barycentric_weights_returns (n : nat) :
  in_range BasisType QuadratureType n ->
  returns (barycentric_weights BasisType QuadratureType n)
    (barycentric_weights_value BasisType QuadratureType n).
Proof.
  intro Hr. unfold barycentric_weights.
  eapply returns_bind.
  - apply precomputed_spectral_quantity_returns; [|exact Hr].
    intros k Hk. apply BarycentricWeightsGenerator_returns. exact Hk.
  - apply returns_ret.
Qed.

Lemma DifferentiationMatrixGenerator_returns (n : nat) :
  in_range BasisType QuadratureType n ->
  returns (DifferentiationMatrixGenerator BasisType QuadratureType n)
    (quantity_value BasisType QuadratureType DifferentiationMatrix n).
Proof.
  intro Hr. unfold DifferentiationMatrixGenerator.
  eapply returns_bind; [apply collocation_points_returns; exact Hr|].
  eapply returns_bind; [apply barycentric_weights_returns; exact Hr|].
  apply returns_ret.
Qed.

Lemma SpectralToGridPointsMatrixGenerator_returns (n : nat) :
  in_range BasisType QuadratureType n ->
  returns (SpectralToGridPointsMatrixGenerator BasisType QuadratureType n)
    (quantity_value BasisType QuadratureType SpectralToGridPointsMatrix n).
Proof.
  intro Hr. unfold SpectralToGridPointsMatrixGenerator.
  eapply returns_bind; [apply collocation_points_returns; exact Hr|].
  apply returns_ret.
Qed.

Lemma spectral_to_grid_points_matrix_returns (n : nat) :
  in_range BasisType QuadratureType n ->
  returns (spectral_to_grid_points_matrix BasisType QuadratureType n)
    (spectral_to_grid_points_matrix_value BasisType QuadratureType n).
Proof.
  intro Hr. unfold spectral_to_grid_points_matrix.
  eapply returns_bind.
  - apply precomputed_spectral_quantity_returns; [|exact Hr].
    intros k Hk. apply SpectralToGridPointsMatrixGenerator_returns. exact Hk.
  - apply returns_ret.
Qed.

End Returns.

Lemma GridPointsToSpectralMatrixGenerator_returns (BasisType : Basis)
    (QuadratureType : Quadrature) (n : nat) :
  in_range BasisType QuadratureType n ->
  returns (GridPointsToSpectralMatrixGenerator BasisType QuadratureType n)
    (quantity_value BasisType QuadratureType GridPointsToSpectralMatrix n).
Proof.
  intro Hr. destruct QuadratureType; simpl.
  - unfold GridPointsToSpectralMatrixGenerator_Gauss.
    eapply returns_bind; [apply quadrature_weights_returns; exact Hr|].
    eapply returns_bind;
      [apply spectral_to_grid_points_matrix_returns; exact Hr|].
    apply returns_ret.
  - unfold GridPointsToSpectralMatrixGenerator_primary.
    eapply returns_bind;
      [apply spectral_to_grid_points_matrix_returns; exact Hr|].
    apply returns_ret.
  - unfold GridPointsToSpectralMatrixGenerator_primary.
    eapply returns_bind;
      [apply spectral_to_grid_points_matrix_returns; exact Hr|].
    apply returns_ret.
Qed.

Lemma grid_points_to_spectral_matrix_returns (BasisType : Basis)
    (QuadratureType : Quadrature) (n : nat) :
  in_range BasisType QuadratureType n ->
  returns (grid_points_to_spectral_matrix BasisType QuadratureType n)
    (grid_points_to_spectral_matrix_value BasisType QuadratureType n).
Proof.
  intro Hr. unfold grid_points_to_spectral_matrix.
  eapply returns_bind.
  - apply precomputed_spectral_quantity_returns; [|exact Hr].
    intros k Hk. apply GridPointsToSpectralMatrixGenerator_returns. exact Hk.
  - apply returns_ret.
Qed.

Lemma LinearFilterMatrixGenerator_returns (BasisType : Basis)
    (QuadratureType : Quadrature) (n : nat) :
  in_range BasisType QuadratureType n ->
  returns (LinearFilterMatrixGenerator BasisType QuadratureType n)
    (quantity_value BasisType QuadratureType LinearFilterMatrix n).
Proof.
  intro Hr. unfold LinearFilterMatrixGenerator.
  eapply returns_bind;
    [apply spectral_to_grid_points_matrix_returns; exact Hr|].
  eapply returns_bind;
    [apply grid_points_to_spectral_matrix_returns; exact Hr|].
  apply returns_ret.
Qed.

Lemma linear_filter_matrix_returns (BasisType : Basis)
    (QuadratureType : Quadrature) (n : nat) :
  in_range BasisType QuadratureType n ->
  returns (linear_filter_matrix BasisType QuadratureType n)
    (linear_filter_matrix_value BasisType QuadratureType n).
Proof.
  intro Hr. unfold linear_filter_matrix.
  eapply returns_bind.
  - apply precomputed_spectral_quantity_returns; [|exact Hr].
    intros k Hk. apply LinearFilterMatrixGenerator_returns. exact Hk.
  - apply returns_ret.
Qed.

Lemma generator_returns (BasisType : Basis) (QuadratureType : Quadrature)
    (kind : GeneratorKind) (n : nat) :
  in_range BasisType QuadratureType n ->
  returns (generator BasisType QuadratureType kind n)
    (quantity_value BasisType QuadratureType kind n).
Proof.
  intro Hr. destruct kind; simpl.
  - apply CollocationPointsAndWeightsGenerator_returns.
  - apply BarycentricWeightsGenerator_returns; exact Hr.
  - apply DifferentiationMatrixGenerator_returns; exact Hr.
  - apply SpectralToGridPointsMatrixGenerator_returns; exact Hr.
  - apply GridPointsToSpectralMatrixGenerator_returns; exact Hr.
  - apply LinearFilterMatrixGenerator_returns; exact Hr.
Qed.

Lemma interpolation_matrix_returns (BasisType : Basis)
    (QuadratureType : Quadrature) (n : nat) (target_points : list F) :
  in_range BasisType QuadratureType n ->
  returns (interpolation_matrix BasisType QuadratureType n target_points)
    (interpolation_matrix_value BasisType QuadratureType n target_points).
Proof.
  intro Hr. pose proof Hr as [Hmin Hmax].
  unfold interpolation_matrix.
  apply Nat.leb_le in Hmin, Hmax. rewrite Hmin, Hmax.
  eapply returns_bind; [apply returns_ret|].
  eapply returns_bind; [apply returns_ret|].
  eapply returns_bind; [apply collocation_points_returns; exact Hr|].
  eapply returns_bind; [apply barycentric_weights_returns; exact Hr|].
  apply returns_ret.
Qed.

Lemma interpolation_matrix_out_of_range (BasisType : Basis)
    (QuadratureType : Quadrature) (n : nat) (target_points : list F)
    (c : Cache) :
  ~ in_range BasisType QuadratureType n ->
  exists message,
    interpolation_matrix BasisType QuadratureType n target_points c =
    (Err (RangeError message), c).
Proof.
  intro H. unfold interpolation_matrix, bind, in_range in *.
  destruct (Nat.leb_spec (minimum_number_of_points BasisType QuadratureType) n)
    as [Hmin|Hmin]; simpl.
  - destruct (Nat.leb_spec n (maximum_number_of_points BasisType))
      as [Hmax|Hmax]; simpl.
    + exfalso. apply H. split; assumption.
    + eexists. reflexivity.
  - eexists. reflexivity.
Qed.

Lemma cache_ok_empty : cache_ok empty_cache.
Proof. intros b q k t H. discriminate. Qed.

(** A request returns one value. *)
Lemma returns_unique (A : Type) (m : Request A) (v v' : A) :
  returns m v -> returns m v' -> v = v'.
Proof.
  intros H H'.
  destruct (H empty_cache cache_ok_empty) as (c1 & E1 & _).
  destruct (H' empty_cache cache_ok_empty) as (c2 & E2 & _).
  rewrite E1 in E2. inversion E2. reflexivity.
Qed.

(** * Theorems *)

(** In exact arithmetic the matrix returned by
    [grid_points_to_spectral_matrix] times the matrix returned by
    [spectral_to_grid_points_matrix] is the identity, when the basis is
    orthogonal under the Gauss quadrature (analytic path) and
    [blaze::invert] returns the inverse (generic path), which is
    [transform_contract].  Double data do not meet this contract; what the
    code computes in doubles is in [AtBinary64]. *)
Theorem grid_to_spectral_inverts_spectral_to_grid (BasisType : Basis)
    (QuadratureType : Quadrature) (n : nat) :
  in_range BasisType QuadratureType n ->
  transform_contract BasisType QuadratureType n ->
  exists G V,
    returns (grid_points_to_spectral_matrix BasisType QuadratureType n) G /\
    returns (spectral_to_grid_points_matrix BasisType QuadratureType n) V /\
    shaped n n G /\ shaped n n V /\
    is_identity n (mat_mul_entry G V).
Proof.
  intros Hr Hc.
  exists (grid_points_to_spectral_matrix_value BasisType QuadratureType n),
         (spectral_to_grid_points_matrix_value BasisType QuadratureType n).
  split; [apply grid_points_to_spectral_matrix_returns; exact Hr|].
  split; [apply spectral_to_grid_points_matrix_returns; exact Hr|].
  split; [apply shaped_grid_to_spectral|].
  split; [apply shaped_spectral_to_grid|].
  apply grid_to_spectral_left_inverse. exact Hc.
Qed.

(** In exact arithmetic, for the Gauss quadrature: entry [(i, j)] of the
    matrix returned by [grid_points_to_spectral_matrix] is
    [Vandermonde(j, i) * weight(j) / normalization(i)], and when the basis
    is orthogonal under the quadrature and [blaze::invert] inverts the
    Vandermonde matrix, this matrix equals the one of the generic path.
    What the two paths compute in doubles is in [AtBinary64]. *)
Theorem analytic_inverse_matches_generic_path (BasisType : Basis) (n : nat) :
  in_range BasisType Gauss n ->
  exists G V w,
    returns (grid_points_to_spectral_matrix BasisType Gauss n) G /\
    returns (spectral_to_grid_points_matrix BasisType Gauss n) V /\
    returns (quadrature_weights BasisType Gauss n) w /\
    (forall i j, i < n -> j < n ->
       mget G i j =
       (mget V j i * vget w j /
        compute_basis_function_normalization_square BasisType i)%Sc) /\
    (gauss_orthogonality BasisType n -> blaze_inverts V n ->
     forall i j, i < n -> j < n ->
       mget G i j = mget (numeric_inverse_loops V n) i j).
Proof.
  intro Hr.
  exists (grid_points_to_spectral_matrix_value BasisType Gauss n),
         (spectral_to_grid_points_matrix_value BasisType Gauss n),
         (quadrature_weights_value BasisType Gauss n).
  split; [apply grid_points_to_spectral_matrix_returns; exact Hr|].
  split; [apply spectral_to_grid_points_matrix_returns; exact Hr|].
  split; [apply quadrature_weights_returns; exact Hr|].
  split.
  - intros i j Hi Hj. simpl. apply analytic_inverse_entries; assumption.
  - intros Ho Hb. simpl.
    fold (numeric_inverse_value BasisType Gauss n).
    pose proof (analytic_inverse_left Ho) as Hleft.
    destruct Hb as (Hrow & Hcol & _ & Hright).
    apply inverse_unique with
      (v := mget (spectral_to_grid_points_matrix_value BasisType Gauss n)).
    + intros i k Hi Hk. specialize (Hleft i k Hi Hk).
      unfold mat_mul_entry in Hleft.
      destruct (analytic_inverse_loops_entries BasisType
                  (quadrature_weights_value BasisType Gauss n)
                  (spectral_to_grid_points_matrix_value BasisType Gauss n) n)
        as [(_ & Hc & _) _].
      fold (analytic_inverse_value BasisType n) in Hc.
      rewrite Hc in Hleft. exact Hleft.
    + intros l j Hl Hj. specialize (Hright l j Hl Hj).
      unfold mat_mul_entry in Hright.
      destruct (shaped_spectral_to_grid BasisType Gauss n) as (_ & Hc & _).
      rewrite Hc in Hright. rewrite <- Hright.
      apply sumF_ext. intros k Hk.
      rewrite numeric_inverse_entries by assumption. reflexivity.
Qed.

(** C3.  For every supported basis, quadrature and number of points, the
    matrix [D] returned by [differentiation_matrix] has
    [D(i, j) = bary[j] / (bary[i] * (x_i - x_j))] off the diagonal, its
    diagonal entry is minus the sum of the other entries of its row, every
    row sums to zero, and [D] maps a constant vector to zero (in exact
    arithmetic). *)
Theorem differentiation_matrix_rows (BasisType : Basis)
    (QuadratureType : Quadrature) (n : nat) :
  in_range BasisType QuadratureType n ->
  exists D x bary,
    returns (differentiation_matrix BasisType QuadratureType n) D /\
    returns (collocation_points BasisType QuadratureType n) x /\
    returns (barycentric_weights BasisType QuadratureType n) bary /\
    shaped n n D /\
    (forall i j, i < n -> j < n -> i <> j ->
       mget D i j =
       (vget bary j / (vget bary i * (vget x i - vget x j)))%Sc) /\
    (forall i, i < n ->
       mget D i i = (F0 - sum_except i (mget D i) n)%Sc) /\
    (forall i, i < n -> sumF (mget D i) n = F0) /\
    (forall i a, i < n -> sumF (fun j => (mget D i j * a)%Sc) n = F0).
Proof.
  intro Hr.
  set (x := collocation_points_value BasisType QuadratureType n).
  set (bw := barycentric_weights_value BasisType QuadratureType n).
  exists (differentiation_matrix_value BasisType QuadratureType n), x, bw.
  split.
  { unfold differentiation_matrix. eapply returns_bind.
    - apply precomputed_spectral_quantity_returns; [|exact Hr].
      intros k Hk. apply DifferentiationMatrixGenerator_returns. exact Hk.
    - apply returns_ret. }
  split; [apply collocation_points_returns; exact Hr|].
  split; [apply barycentric_weights_returns; exact Hr|].
  set (D := differentiation_matrix_value BasisType QuadratureType n).
  assert (HD : diff_state x bw n n D)
    by apply differentiation_matrix_loops_state.
  destruct HD as [Hs Hrows].
  assert (Hdiag : forall i, i < n ->
            mget D i i = (F0 - sum_except i (mget D i) n)%Sc).
  { intros i Hi. destruct (Hrows i Hi) as [Hoff Hd]. rewrite Hd.
    f_equal. unfold sum_except. apply sumF_ext. intros j Hj.
    destruct (Nat.eqb_spec j i); [reflexivity|].
    symmetry. apply Hoff; assumption. }
  assert (Hsum : forall i, i < n -> sumF (mget D i) n = F0).
  { intros i Hi.
    rewrite (@sumF_ext _ (fun j => if j =? i then mget D i i else mget D i j)).
    - rewrite sumF_split_at by exact Hi. rewrite (Hdiag i Hi). ring.
    - intros j Hj. destruct (Nat.eqb_spec j i); [subst|]; reflexivity. }
  split; [exact Hs|]. split; [|split; [exact Hdiag|split; [exact Hsum|]]].
  - intros i j Hi Hj Hne. destruct (Hrows i Hi) as [Hoff _].
    apply Hoff; auto.
  - intros i a Hi. rewrite sumF_mul_r, (Hsum i Hi). ring.
Qed.

(** C4.  For every supported number of points, the interpolation matrix
    whose target points are the collocation points themselves is the
    identity, provided there are [n] collocation points and, within
    round-off, each equals itself and no other. *)
Theorem interpolation_at_collocation_points_is_identity (BasisType : Basis)
    (QuadratureType : Quadrature) (n : nat) :
  in_range BasisType QuadratureType n ->
  length (collocation_points_value BasisType QuadratureType n) = n ->
  nodes_separated (collocation_points_value BasisType QuadratureType n) n ->
  exists x M,
    returns (collocation_points BasisType QuadratureType n) x /\
    returns (interpolation_matrix BasisType QuadratureType n x) M /\
    shaped n n M /\
    is_identity n (mget M).
Proof.
  intros Hr Hlen Hsep.
  set (x := collocation_points_value BasisType QuadratureType n) in *.
  exists x, (interpolation_matrix_value BasisType QuadratureType n x).
  split; [apply collocation_points_returns; exact Hr|].
  split; [apply interpolation_matrix_returns; exact Hr|].
  set (bw := barycentric_weights_value BasisType QuadratureType n).
  assert (HM : interpolation_state x bw n x (length x)
                 (interpolation_matrix_value BasisType QuadratureType n x))
    by apply interpolation_matrix_loops_state.
  destruct HM as [Hs Hrows]. rewrite Hlen in Hs, Hrows.
  split; [exact Hs|].
  intros k j Hk Hj. rewrite (Hrows k j Hk Hj). unfold interpolation_row.
  assert (Hm : has_match x n (vget x k) = true).
  { apply has_match_true. exists k. split; [exact Hk|].
    rewrite (Hsep k k Hk Hk). apply Nat.eqb_refl. }
  rewrite Hm, (Hsep k j Hk Hj). reflexivity.
Qed.

(** In exact arithmetic, for [n >= 2]: the matrix returned by
    [linear_filter_matrix] is the product of the first two columns of the
    matrix of [spectral_to_grid_points_matrix] with the first two rows of
    the matrix of [grid_points_to_spectral_matrix], and it is idempotent
    when the second matrix is a left inverse of the first
    ([transform_contract]).  In doubles the square differs from the matrix
    in the last digits; see [AtBinary64]. *)
Theorem linear_filter_is_projector (BasisType : Basis)
    (QuadratureType : Quadrature) (n : nat) :
  2 <= n ->
  in_range BasisType QuadratureType n ->
  exists L V W,
    returns (linear_filter_matrix BasisType QuadratureType n) L /\
    returns (spectral_to_grid_points_matrix BasisType QuadratureType n) V /\
    returns (grid_points_to_spectral_matrix BasisType QuadratureType n) W /\
    shaped n n L /\
    (forall i j, i < n -> j < n ->
       mget L i j = sumF (fun l => (mget V i l * mget W l j)%Sc) 2) /\
    (transform_contract BasisType QuadratureType n ->
     forall i j, i < n -> j < n -> mat_mul_entry L L i j = mget L i j).
Proof.
  intros Hn Hr.
  exists (linear_filter_matrix_value BasisType QuadratureType n),
         (spectral_to_grid_points_matrix_value BasisType QuadratureType n),
         (grid_points_to_spectral_matrix_value BasisType QuadratureType n).
  split; [apply linear_filter_matrix_returns; exact Hr|].
  split; [apply spectral_to_grid_points_matrix_returns; exact Hr|].
  split; [apply grid_points_to_spectral_matrix_returns; exact Hr|].
  split; [apply shaped_linear_filter|]. split.
  - intros i j Hi Hj. rewrite linear_filter_entries by assumption.
    replace (Nat.min 2 n) with 2 by lia. reflexivity.
  - intros Hc i j Hi Hj. apply linear_filter_idempotent; assumption.
Qed.

(** In exact arithmetic a row of the matrix returned by
    [interpolation_matrix] whose target matches no node sums to one, for
    distinct nodes each of which equals itself within round-off.  In
    doubles the sum of such a row can differ from one; see [AtBinary64]. *)
Lemma interpolation_row_sums_to_one (BasisType : Basis)
    (QuadratureType : Quadrature) (n : nat) (target_points : list F) (k : nat) :
  let x := collocation_points_value BasisType QuadratureType n in
  let M := interpolation_matrix_value BasisType QuadratureType n
             target_points in
  let t := vget target_points k in
  0 < n -> k < length target_points ->
  distinct_nodes x n ->
  (forall j, j < n -> equal_within_roundoff (vget x j) (vget x j) = true) ->
  (forall j, j < n -> equal_within_roundoff t (vget x j) = false) ->
  sumF (mget M k) n = F1.
Proof.
  intros x M t Hn Hk Hd Hrefl Hnone.
  set (bw := barycentric_weights_value BasisType QuadratureType n).
  assert (HM : interpolation_state x bw n target_points (length target_points)
                 M) by apply interpolation_matrix_loops_state.
  destruct HM as [_ Hrows].
  assert (Hrow : forall j, j < n -> mget M k j = interpolation_row x bw n t j)
    by (intros j Hj; apply Hrows; assumption).
  unfold interpolation_row in Hrow.
  assert (Ht : forall j, j < n -> t <> vget x j).
  { intros j Hj E. specialize (Hnone j Hj).
    rewrite E, (Hrefl j Hj) in Hnone. discriminate. }
  pose proof (@interpolation_weight_sum_neq_0 x n t Hn Hd Ht) as Hnz.
  fold bw in Hnz.
  apply has_match_false in Hnone.
  rewrite (@sumF_ext _
    (fun j => (interpolation_weight x bw t j /
               sumF (interpolation_weight x bw t) n)%Sc)).
  - rewrite sumF_div_r by exact Hnz. field. exact Hnz.
  - intros j Hj. rewrite (Hrow j Hj), Hnone. reflexivity.
Qed.

(** C7.  For any distinct nodes [x_0 .. x_(n-1)], whatever the basis, the
    loops of the barycentric weights generator return [n] weights, weight
    [j] being the reciprocal of the product of [x_j - x_k] over [k <> j];
    and [barycentric_weights] returns the result of these loops on the
    collocation points. *)
Theorem barycentric_weights_are_reciprocal_products (x : DataVector)
    (n : nat) :
  distinct_nodes x n ->
  length (barycentric_weights_loops x n) = n /\
  (forall j, j < n ->
     node_product x j n <> F0 /\
     vget (barycentric_weights_loops x n) j = (F1 / node_product x j n)%Sc) /\
  (forall BasisType QuadratureType,
     in_range BasisType QuadratureType n ->
     exists nodes,
       returns (collocation_points BasisType QuadratureType n) nodes /\
       returns (barycentric_weights BasisType QuadratureType n)
         (barycentric_weights_loops nodes n)).
Proof.
  intro Hd. split; [apply length_barycentric_weights_loops|]. split.
  - intros j Hj. split.
    + apply node_product_neq_0; assumption.
    + apply vget_barycentric_weights_loops. exact Hj.
  - intros BasisType QuadratureType Hr.
    exists (collocation_points_value BasisType QuadratureType n).
    split; [apply collocation_points_returns; exact Hr|].
    apply barycentric_weights_returns. exact Hr.
Qed.

(** C8.  For every basis, quadrature and kind of generator: a request
    with a number of points outside [min, max] (for instance 0 when the
    minimum is positive) fails with a RangeError whatever the generator,
    so before anything is computed, and leaves the cache as it was; the
    same holds for [interpolation_matrix].  A request inside the range
    returns [quantity_value], a function of the basis, the quadrature, the
    kind and the number of points alone; the cache keeps all its tables,
    and the same request made again returns the same value and changes
    nothing.  The empty cache satisfies [cache_ok], and requests keep it. *)
Theorem request_range_and_purity (BasisType : Basis)
    (QuadratureType : Quadrature) (kind : GeneratorKind) (n : nat) (c : Cache) :
  (~ in_range BasisType QuadratureType n ->
   (forall gen, exists message,
      precomputed_spectral_quantity BasisType QuadratureType kind gen n c =
      (Err (RangeError message), c)) /\
   (forall target_points, exists message,
      interpolation_matrix BasisType QuadratureType n target_points c =
      (Err (RangeError message), c))) /\
  (in_range BasisType QuadratureType n -> cache_ok c ->
   (exists c',
      request BasisType QuadratureType kind n c =
      (Ok (quantity_value BasisType QuadratureType kind n), c') /\
      cache_ok c' /\ cache_extends c c' /\
      request BasisType QuadratureType kind n c' =
      (Ok (quantity_value BasisType QuadratureType kind n), c')) /\
   (forall target_points, exists c',
      interpolation_matrix BasisType QuadratureType n target_points c =
      (Ok (interpolation_matrix_value BasisType QuadratureType n
             target_points), c') /\
      cache_ok c' /\ cache_extends c c')) /\
  cache_ok empty_cache.
Proof.
  split; [|split; [|apply cache_ok_empty]].
  - intro Hout. split.
    + intro gen. apply precomputed_spectral_quantity_out_of_range. exact Hout.
    + intro target_points. apply interpolation_matrix_out_of_range.
      exact Hout.
  - intros Hr Hc. split.
    + destruct (@precomputed_spectral_quantity_in_range BasisType
                  QuadratureType kind
                  (generator BasisType QuadratureType kind) n
                  (fun k Hk => @generator_returns BasisType QuadratureType
                                 kind k Hk)
                  Hr c Hc) as (c' & E & Hc' & Hx & Hsome).
      exists c'. unfold request. split; [exact E|].
      split; [exact Hc'|]. split; [exact Hx|].
      destruct (c' (BasisType, QuadratureType, kind)) as [table|] eqn:Ht;
        [|congruence].
      apply precomputed_spectral_quantity_hit with (table := table);
        assumption.
    + intro target_points.
      apply (@interpolation_matrix_returns BasisType QuadratureType n
               target_points Hr c Hc).
Qed.

(** C9.  For a mesh whose basis is Legendre and whose quadrature is Gauss
    or GaussLobatto, every function that takes the mesh is the function of
    the same name applied to the basis, the quadrature and the extent of
    the mesh. *)
Theorem mesh_overloads_dispatch (mesh : Mesh) :
  basis mesh 0 = Legendre ->
  quadrature mesh 0 = Gauss \/ quadrature mesh 0 = GaussLobatto ->
  collocation_points_mesh mesh =
    collocation_points (basis mesh 0) (quadrature mesh 0) (extents mesh 0) /\
  quadrature_weights_mesh mesh =
    quadrature_weights (basis mesh 0) (quadrature mesh 0) (extents mesh 0) /\
  differentiation_matrix_mesh mesh =
    differentiation_matrix (basis mesh 0) (quadrature mesh 0)
      (extents mesh 0) /\
  spectral_to_grid_points_matrix_mesh mesh =
    spectral_to_grid_points_matrix (basis mesh 0) (quadrature mesh 0)
      (extents mesh 0) /\
  grid_points_to_spectral_matrix_mesh mesh =
    grid_points_to_spectral_matrix (basis mesh 0) (quadrature mesh 0)
      (extents mesh 0) /\
  linear_filter_matrix_mesh mesh =
    linear_filter_matrix (basis mesh 0) (quadrature mesh 0)
      (extents mesh 0) /\
  forall target_points,
    interpolation_matrix_mesh mesh target_points =
    interpolation_matrix (basis mesh 0) (quadrature mesh 0) (extents mesh 0)
      target_points.
Proof.
  intros Hb Hq.
  unfold collocation_points_mesh, quadrature_weights_mesh,
    differentiation_matrix_mesh, spectral_to_grid_points_matrix_mesh,
    grid_points_to_spectral_matrix_mesh, linear_filter_matrix_mesh,
    interpolation_matrix_mesh, get_spectral_quantity_for_mesh.
  rewrite Hb. destruct Hq as [Hq|Hq]; rewrite Hq; repeat split.
Qed.

(** C10.  With one point, which the Gauss quadrature allows when its
    minimum is 1, [linear_filter_matrix] returns a 1 by 1 matrix whose
    entry keeps [min 2 1 = 1] mode, the product of the two 1 by 1
    transform matrices; and it is idempotent when the basis is orthogonal
    under the one-point quadrature (exact arithmetic). *)
Theorem linear_filter_one_point (BasisType : Basis) :
  in_range BasisType Gauss 1 ->
  exists L V W,
    returns (linear_filter_matrix BasisType Gauss 1) L /\
    returns (spectral_to_grid_points_matrix BasisType Gauss 1) V /\
    returns (grid_points_to_spectral_matrix BasisType Gauss 1) W /\
    shaped 1 1 L /\
    mget L 0 0 = sumF (fun l => (mget V 0 l * mget W l 0)%Sc) (Nat.min 2 1) /\
    mget L 0 0 = (mget V 0 0 * mget W 0 0)%Sc /\
    (gauss_orthogonality BasisType 1 ->
     mget L 0 0 = F1 /\ mat_mul_entry L L 0 0 = mget L 0 0).
Proof.
  intro Hr.
  exists (linear_filter_matrix_value BasisType Gauss 1),
         (spectral_to_grid_points_matrix_value BasisType Gauss 1),
         (grid_points_to_spectral_matrix_value BasisType Gauss 1).
  split; [apply linear_filter_matrix_returns; exact Hr|].
  split; [apply spectral_to_grid_points_matrix_returns; exact Hr|].
  split; [apply grid_points_to_spectral_matrix_returns; exact Hr|].
  split; [apply shaped_linear_filter|].
  assert (HL : mget (linear_filter_matrix_value BasisType Gauss 1) 0 0 =
               sumF (fun l =>
                 (mget (spectral_to_grid_points_matrix_value BasisType Gauss 1)
                    0 l *
                  mget (grid_points_to_spectral_matrix_value BasisType Gauss 1)
                    l 0)%Sc) (Nat.min 2 1))
    by (apply linear_filter_entries; lia).
  split; [exact HL|]. split; [rewrite HL; simpl; ring|].
  intro Ho. split.
  - rewrite HL. simpl sumF.
    pose proof (@grid_to_spectral_left_inverse BasisType Gauss 1 Ho 0 0
                  ltac:(lia) ltac:(lia)) as H.
    unfold mat_mul_entry in H.
    destruct (shaped_grid_to_spectral BasisType Gauss 1) as (_ & Hcol & _).
    rewrite Hcol in H. simpl sumF in H. unfold delta in H. simpl in H.
    rewrite <- H. ring.
  - apply linear_filter_idempotent; [exact Ho|lia|lia].
Qed.

(** * Further properties *)

(** ** Polynomials at the nodes *)

Lemma poly_eval_quot (p : list F) (a s : F) :
  (poly_eval p s - poly_eval p a)%Sc = ((s - a) * poly_quot_eval p a s)%Sc.
Proof.
  induction p as [|c q IH]; simpl; [ring|].
  transitivity ((s - a) * poly_eval q s
                + a * ((s - a) * poly_quot_eval q a s))%Sc; [|ring].
  rewrite <- IH. ring.
Qed.

Lemma poly_quot_eval_diag (p : list F) (a : F) :
  poly_quot_eval p a a = poly_deriv_eval p a.
Proof.
  induction p as [|c q IH]; simpl; [reflexivity|]. rewrite IH. reflexivity.
Qed.

Lemma sumF_sub (f g : nat -> F) (n : nat) :
  sumF (fun i => (f i - g i)%Sc) n = (sumF f n - sumF g n)%Sc.
Proof. induction n as [|n IH]; simpl; [ring|]. rewrite IH. ring. Qed.

Lemma sumF_opp (f : nat -> F) (n : nat) :
  sumF (fun i => (F0 - f i)%Sc) n = (F0 - sumF f n)%Sc.
Proof. induction n as [|n IH]; simpl; [ring|]. rewrite IH. ring. Qed.

(** The quotients by a linear factor inherit vanishing moments. *)
Lemma quotient_moment (x : DataVector) (n : nat) :
  distinct_nodes x n ->
  (forall q, length q < n ->
     sumF (fun j => (poly_eval q (vget x j) / node_product x j n)%Sc) n = F0) ->
  forall p a, length p <= n ->
    sumF (fun j => (poly_quot_eval p a (vget x j) / node_product x j n)%Sc) n =
    F0.
Proof.
  intros Hd Hmom p a. induction p as [|c q IH]; intro Hlen; simpl.
  - rewrite (@sumF_ext _ (fun _ => F0)); [apply sumF_zero|].
    intros j Hj. pose proof (@node_product_neq_0 x j n Hd Hj) as Hnp.
    field. exact Hnp.
  - simpl in Hlen.
    rewrite (@sumF_ext _
      (fun j =>
         (poly_eval q (vget x j) / node_product x j n +
          a * (poly_quot_eval q a (vget x j) / node_product x j n))%Sc)).
    + rewrite sumF_add, sumF_mul_l, Hmom, IH by lia. ring.
    + intros j Hj. pose proof (@node_product_neq_0 x j n Hd Hj) as Hnp.
      field. exact Hnp.
Qed.

(** Lagrange interpolation in barycentric form reproduces a polynomial of
    fewer than [n] + 1 coefficients, given the vanishing moments. *)
Lemma lagrange_sum (x : DataVector) (n : nat) :
  0 < n -> distinct_nodes x n ->
  (forall q, length q < n ->
     sumF (fun j => (poly_eval q (vget x j) / node_product x j n)%Sc) n = F0) ->
  forall p t, length p <= n -> (forall j, j < n -> t <> vget x j) ->
    sumF (fun j =>
            (poly_eval p (vget x j) / node_product x j n / (t - vget x j))%Sc)
      n =
    (poly_eval p t / prodF (fun j => (t - vget x j)%Sc) n)%Sc.
Proof.
  intros Hn Hd Hmom p t Hlen Ht.
  assert (HP : prodF (fun j => (t - vget x j)%Sc) n <> F0).
  { apply prodF_neq_0. intros j Hj. apply Fsub_neq_0, Ht. exact Hj. }
  rewrite (@sumF_ext _
    (fun j =>
       (poly_eval p t * (F1 / node_product x j n / (t - vget x j)) -
        poly_quot_eval p t (vget x j) / node_product x j n)%Sc)).
  - rewrite sumF_sub, sumF_mul_l, barycentric_sum by assumption.
    rewrite (@quotient_moment x n Hd Hmom p t Hlen). field. exact HP.
  - intros j Hj.
    pose proof (@node_product_neq_0 x j n Hd Hj) as Hnp.
    assert (Htj : (t - vget x j)%Sc <> F0) by (apply Fsub_neq_0, Ht; exact Hj).
    pose proof (poly_eval_quot p t (vget x j)) as Hq.
    assert (E : poly_eval p (vget x j) =
                (poly_eval p t
                 + (vget x j - t) * poly_quot_eval p t (vget x j))%Sc)
      by (rewrite <- Hq; ring).
    rewrite E. field. split; assumption.
Qed.

(** The reciprocal node products annihilate the samples of a polynomial
    with fewer than [n] coefficients. *)
Lemma vanishing_moments (x : DataVector) (n : nat) :
  distinct_nodes x n ->
  forall q, length q < n ->
    sumF (fun j => (poly_eval q (vget x j) / node_product x j n)%Sc) n = F0.
Proof.
  induction n as [|n IH]; intros Hd q Hlen; [reflexivity|].
  assert (Hd' : distinct_nodes x n) by (apply distinct_nodes_S; exact Hd).
  assert (Hxn : forall j, j < n -> vget x n <> vget x j)
    by (intros j Hj; apply Hd; lia).
  assert (HPx : prodF (fun j => (vget x n - vget x j)%Sc) n <> F0).
  { apply prodF_neq_0. intros j Hj. apply Fsub_neq_0, Hxn. exact Hj. }
  change (sumF (fun j => (poly_eval q (vget x j) / node_product x j (S n))%Sc)
            (S n))
    with (sumF (fun j => (poly_eval q (vget x j) / node_product x j (S n))%Sc) n
          + poly_eval q (vget x n) / node_product x n (S n))%Sc.
  rewrite node_product_S_self.
  destruct (Nat.eq_dec n 0) as [->|Hn0].
  - destruct q as [|c q]; [|simpl in Hlen; lia]. simpl. field.
    apply F1_neq_F0.
  - rewrite (@sumF_ext _
      (fun j =>
         (F0 - poly_eval q (vget x j) / node_product x j n /
               (vget x n - vget x j))%Sc)).
    + rewrite sumF_opp.
      rewrite (@lagrange_sum x n ltac:(lia) Hd' (IH Hd') q (vget x n)
                 ltac:(lia) Hxn).
      field. exact HPx.
    + intros j Hj. rewrite node_product_S_other by lia.
      assert (Hnj : (vget x n - vget x j)%Sc <> F0)
        by (apply Fsub_neq_0, Hxn; exact Hj).
      assert (Hjn : (vget x j - vget x n)%Sc <> F0)
        by (apply Fsub_neq_0; intro E; apply (Hxn j Hj); symmetry; exact E).
      pose proof (@node_product_neq_0 x j n Hd' Hj) as Hnp.
      field. repeat split; assumption.
Qed.

Lemma sum_except_split (i : nat) (f : nat -> F) (n : nat) :
  i < n -> sumF f n = (f i + sum_except i f n)%Sc.
Proof.
  intro Hi. rewrite <- sumF_split_at by exact Hi. apply sumF_ext.
  intros j Hj. destruct (Nat.eqb_spec j i); [subst|]; reflexivity.
Qed.

Lemma sum_except_ext (i : nat) (f g : nat -> F) (n : nat) :
  (forall j, j < n -> j <> i -> f j = g j) ->
  sum_except i f n = sum_except i g n.
Proof.
  intro H. unfold sum_except. apply sumF_ext. intros j Hj.
  destruct (Nat.eqb_spec j i); [reflexivity|]. apply H; assumption.
Qed.

(** The differentiation matrix built on the barycentric weights of the
    nodes maps the samples of a polynomial with at most [n] coefficients
    to the samples of its derivative. *)
Lemma differentiation_exact (x : DataVector) (n : nat) (p : list F) (i : nat) :
  distinct_nodes x n -> length p <= n -> i < n ->
  sumF (fun j =>
          (mget (differentiation_matrix_loops x
                   (barycentric_weights_loops x n) n) i j *
           poly_eval p (vget x j))%Sc) n =
  poly_deriv_eval p (vget x i).
Proof.
  intros Hd Hlen Hi.
  set (bw := barycentric_weights_loops x n).
  set (D := differentiation_matrix_loops x bw n).
  assert (HD : diff_state x bw n n D)
    by apply differentiation_matrix_loops_state.
  destruct HD as [_ Hrows]. destruct (Hrows i Hi) as [Hoff Hdiag].
  pose proof (@node_product_neq_0 x i n Hd Hi) as Hnpi.
  pose proof (@quotient_moment x n Hd (vanishing_moments Hd) p (vget x i) Hlen)
    as Hmom.
  rewrite (sum_except_split
             (fun j => (poly_quot_eval p (vget x i) (vget x j)
                        / node_product x j n)%Sc) Hi) in Hmom.
  rewrite poly_quot_eval_diag in Hmom.
  assert (Es : sum_except i
                 (fun j => (poly_quot_eval p (vget x i) (vget x j)
                            / node_product x j n)%Sc) n =
               (F0 - poly_deriv_eval p (vget x i) / node_product x i n)%Sc)
    by (rewrite <- Hmom; ring).
  clear Hmom.
  rewrite (sum_except_split
             (fun j => (mget D i j * poly_eval p (vget x j))%Sc) Hi).
  rewrite Hdiag.
  rewrite (@sum_except_ext i
             (fun j => (mget D i j * poly_eval p (vget x j))%Sc)
             (fun j => (diff_entry x bw i j * poly_eval p (vget x j))%Sc))
    by (intros j Hj Hne; rewrite Hoff by assumption; reflexivity).
  transitivity
    (sum_except i
       (fun j => (diff_entry x bw i j *
                  (poly_eval p (vget x j) - poly_eval p (vget x i)))%Sc) n).
  { unfold sum_except.
    rewrite (@sumF_ext
      (fun j => if j =? i then F0
                else (diff_entry x bw i j *
                      (poly_eval p (vget x j) - poly_eval p (vget x i)))%Sc)
      (fun j =>
         ((if j =? i then F0
           else (diff_entry x bw i j * poly_eval p (vget x j))%Sc) -
          (if j =? i then F0 else diff_entry x bw i j) *
          poly_eval p (vget x i))%Sc)).
    - rewrite sumF_sub, sumF_mul_r. ring.
    - intros j Hj. destruct (Nat.eqb_spec j i); ring. }
  rewrite (@sum_except_ext i _
             (fun j =>
                (F0 - node_product x i n *
                      (poly_quot_eval p (vget x i) (vget x j)
                       / node_product x j n))%Sc)).
  - transitivity
      (F0 - node_product x i n *
            sum_except i
              (fun j => (poly_quot_eval p (vget x i) (vget x j)
                         / node_product x j n)%Sc) n)%Sc.
    + unfold sum_except. rewrite <- sumF_mul_l, <- sumF_opp.
      apply sumF_ext. intros j Hj. destruct (Nat.eqb_spec j i); ring.
    + rewrite Es. field. exact Hnpi.
  - intros j Hj Hne. unfold diff_entry, bw.
    rewrite !vget_barycentric_weights_loops by assumption.
    pose proof (@node_product_neq_0 x j n Hd Hj) as Hnpj.
    assert (Hij : (vget x i - vget x j)%Sc <> F0)
      by (apply Fsub_neq_0, Hd; auto).
    rewrite (poly_eval_quot p (vget x i) (vget x j)).
    field. repeat split; assumption.
Qed.

(** ** The tables a request initialises *)

Lemma cache_closed_empty : cache_closed empty_cache.
Proof. intros b q k k' H. exfalso. apply H. reflexivity. Qed.

Lemma cache_ok_fill (needs : Key -> bool) (c c' : Cache) :
  cache_ok c -> (forall key, c' key = cache_fill needs c key) -> cache_ok c'.
Proof.
  intros Hc H b q k t E. rewrite H in E. unfold cache_fill in E.
  destruct (c (b, q, k)) as [t'|] eqn:Ec.
  - inversion E; subst. apply Hc. exact Ec.
  - destruct (needs (b, q, k)); inversion E. reflexivity.
Qed.

(** The kinds a generator fetches include what those fetch. *)
Lemma fetched_transitive (kind k k' : GeneratorKind) :
  In k (fetched kind) -> In k' (fetched k) -> In k' (fetched kind).
Proof. destruct kind, k, k'; simpl; intuition congruence. Qed.

Lemma among_true (BasisType : Basis) (QuadratureType : Quadrature)
    (kinds : list GeneratorKind) (key : Key) :
  among BasisType QuadratureType kinds key = true <->
  exists kind, In kind kinds /\ key = (BasisType, QuadratureType, kind).
Proof.
  unfold among. rewrite existsb_exists. split.
  - intros (k & Hin & E). apply Key_eqb_eq in E. eauto.
  - intros (k & Hin & ->). exists k. split; [exact Hin|].
    apply Key_eqb_eq. reflexivity.
Qed.

Lemma cache_closed_fill (BasisType : Basis) (QuadratureType : Quadrature)
    (kind : GeneratorKind) (c c' : Cache) :
  cache_closed c ->
  (forall key,
     c' key = cache_fill (initialised_by BasisType QuadratureType kind) c key) ->
  cache_closed c'.
Proof.
  intros Hcl H b q k k' Hne Hin. rewrite H in *. unfold cache_fill in *.
  destruct (c (b, q, k)) as [t|] eqn:Ec.
  - assert (Hk' : c (b, q, k') <> None)
      by (apply (Hcl b q k k'); [congruence|exact Hin]).
    destruct (c (b, q, k')); [discriminate|contradiction].
  - destruct (initialised_by BasisType QuadratureType kind (b, q, k)) eqn:E;
      [|contradiction].
    apply among_true in E. destruct E as (k0 & Hin0 & E0).
    inversion E0; subst b q k0.
    assert (E' : initialised_by BasisType QuadratureType kind
                   (BasisType, QuadratureType, k') = true).
    { apply among_true. exists k'. split; [|reflexivity].
      destruct Hin0 as [<-|Hin0]; [right; exact Hin|].
      right. eapply fetched_transitive; eassumption. }
    rewrite E'. destruct (c (BasisType, QuadratureType, k')); discriminate.
Qed.

Lemma fills_ext (A : Type) (m : Request A) (v : A) (needs needs' : Key -> bool) :
  (forall key, needs key = needs' key) -> fills m v needs -> fills m v needs'.
Proof.
  intros E H c Hc Hcl. destruct (H c Hc Hcl) as (c' & E1 & Hc' & Hcl' & Hf).
  exists c'. split; [exact E1|]. split; [exact Hc'|]. split; [exact Hcl'|].
  intro key. rewrite Hf. unfold cache_fill. rewrite E. reflexivity.
Qed.

Lemma fills_ret (A : Type) (v : A) : fills (ret v) v (fun _ => false).
Proof.
  intros c Hc Hcl. exists c. split; [reflexivity|].
  split; [exact Hc|]. split; [exact Hcl|].
  intro key. unfold cache_fill. destruct (c key); reflexivity.
Qed.

Lemma fills_bind (A B : Type) (m : Request A) (f : A -> Request B)
    (v : A) (w : B) (needs1 needs2 : Key -> bool) :
  fills m v needs1 -> fills (f v) w needs2 ->
  fills (bind m f) w (fun key => needs1 key || needs2 key).
Proof.
  intros Hm Hf c Hc Hcl.
  destruct (Hm c Hc Hcl) as (c1 & E1 & Hc1 & Hcl1 & Hf1).
  destruct (Hf c1 Hc1 Hcl1) as (c2 & E2 & Hc2 & Hcl2 & Hf2).
  exists c2. unfold bind. rewrite E1, E2.
  split; [reflexivity|]. split; [exact Hc2|]. split; [exact Hcl2|].
  intro key. rewrite Hf2. unfold cache_fill. rewrite Hf1. unfold cache_fill.
  destruct (c key), (needs1 key), (needs2 key); reflexivity.
Qed.

(** A request followed by a pure step. *)
Lemma fills_map (A B : Type) (m : Request A) (g : A -> B) (v : A)
    (needs : Key -> bool) :
  fills m v needs -> fills (bind m (fun a => ret (g a))) (g v) needs.
Proof.
  intro H. apply fills_ext with (needs := fun key => needs key || false).
  - intro key. apply orb_false_r.
  - eapply fills_bind; [exact H|apply fills_ret].
Qed.

Lemma fills_for_each (A B : Type) (f : A -> Request B) (g : A -> B)
    (l : list A) (needs : Key -> bool) :
  l <> [] ->
  (forall a, In a l -> fills (f a) (g a) needs) ->
  fills (for_each f l) (map g l) needs.
Proof.
  induction l as [|a l IH]; intros Hne H; [congruence|]. simpl.
  destruct l as [|b l].
  - apply fills_ext with (needs := fun key => needs key || false).
    + intro key. apply orb_false_r.
    + eapply fills_bind; [apply H; left; reflexivity|].
      apply (@fills_map (list B) (list B) (ret []) (fun bs => g a :: bs) []).
      apply fills_ret.
  - apply fills_ext with (needs := fun key => needs key || needs key).
    + intro key. apply orb_diag.
    + eapply fills_bind; [apply H; left; reflexivity|].
      apply (@fills_map (list B) (list B) (for_each f (b :: l))
               (fun bs => g a :: bs) (map g (b :: l))).
      apply IH; [discriminate|]. intros a' Ha'. apply H. right. exact Ha'.
Qed.

(** The first request of a table runs the generator over the whole range
    and stores the table; a later one reads it. *)
Lemma precomputed_spectral_quantity_fills (BasisType : Basis)
    (QuadratureType : Quadrature) (kind : GeneratorKind)
    (gen : nat -> Request Quantity) (n : nat) :
  (forall k, in_range BasisType QuadratureType k ->
     fills (gen k) (quantity_value BasisType QuadratureType kind k)
       (among BasisType QuadratureType (fetched kind))) ->
  in_range BasisType QuadratureType n ->
  fills (precomputed_spectral_quantity BasisType QuadratureType kind gen n)
    (quantity_value BasisType QuadratureType kind n)
    (initialised_by BasisType QuadratureType kind).
Proof.
  intros Hgen Hr c Hc Hcl.
  destruct (c (BasisType, QuadratureType, kind)) as [table|] eqn:Ht.
  - exists c.
    rewrite (@precomputed_spectral_quantity_hit BasisType QuadratureType kind
               gen n c table Hr Hc Ht).
    split; [reflexivity|]. split; [exact Hc|]. split; [exact Hcl|].
    intro key. unfold cache_fill. destruct (c key) eqn:Ek; [reflexivity|].
    destruct (initialised_by BasisType QuadratureType kind key) eqn:E;
      [|reflexivity].
    exfalso. apply among_true in E. destruct E as (k & Hin & ->).
    destruct Hin as [<-|Hin]; [congruence|].
    apply (Hcl BasisType QuadratureType kind k); [congruence|exact Hin|exact Ek].
  - pose proof Hr as [Hmin Hmax].
    set (lo := minimum_number_of_points BasisType QuadratureType) in *.
    set (hi := maximum_number_of_points BasisType) in *.
    assert (Hinit : fills (make_static_cache lo (hi + 1) gen)
              (map (quantity_value BasisType QuadratureType kind)
                 (seq lo (hi + 1 - lo)))
              (among BasisType QuadratureType (fetched kind))).
    { apply fills_for_each.
      - replace (hi + 1 - lo) with (S (hi - lo)) by lia. discriminate.
      - intros k Hk. apply in_seq in Hk.
        apply Hgen. unfold in_range. fold lo hi. lia. }
    destruct (Hinit c Hc Hcl) as (c1 & E1 & Hc1 & Hcl1 & Hf1).
    set (table := map (quantity_value BasisType QuadratureType kind)
                    (seq lo (hi + 1 - lo))) in *.
    assert (Hf : forall key,
              cache_store c1 (BasisType, QuadratureType, kind) table key =
              cache_fill (initialised_by BasisType QuadratureType kind) c key).
    { intro key.
      destruct (Key_eqb (BasisType, QuadratureType, kind) key) eqn:E;
        unfold cache_store; rewrite E.
      - pose proof E as E'. apply Key_eqb_eq in E'. subst key.
        unfold cache_fill, initialised_by, among. simpl existsb.
        rewrite Ht, E. reflexivity.
      - rewrite Hf1. unfold cache_fill, initialised_by, among. simpl existsb.
        rewrite E. reflexivity. }
    exists (cache_store c1 (BasisType, QuadratureType, kind) table).
    split; [|split; [|split; [|exact Hf]]].
    + unfold precomputed_spectral_quantity, bind. fold lo hi.
      apply Nat.leb_le in Hmin, Hmax. rewrite Hmin, Hmax. simpl.
      unfold static_local. rewrite Ht, E1. unfold ret.
      unfold table, lo, hi. rewrite static_cache_get_table by exact Hr.
      reflexivity.
    + eapply cache_ok_fill; [exact Hc|exact Hf].
    + eapply cache_closed_fill; [exact Hcl|exact Hf].
Qed.

Ltac same_tables :=
  let b := fresh "b" in
  let q := fresh "q" in
  let k := fresh "k" in
  intros [[b q] k]; unfold initialised_by, among, Key_eqb; simpl;
  repeat match goal with
    | |- context [Basis_eqb ?B b] => destruct (Basis_eqb B b)
    | |- context [Quadrature_eqb ?Q q] => destruct (Quadrature_eqb Q q)
    end;
  destruct k; try reflexivity; destruct q; try reflexivity;
  destruct b; reflexivity.

(** The accessor reads the entry [v] of its table through [g]. *)
Ltac read_table g v :=
  match goal with
  | |- fills _ ?w _ => change w with (g v)
  end;
  apply (@fills_map _ _ _ g v).

Section Fills.

Variables (BasisType : Basis) (QuadratureType : Quadrature).

Lemma CollocationPointsAndWeightsGenerator_fills (n : nat) :
  fills (CollocationPointsAndWeightsGenerator BasisType QuadratureType n)
    (quantity_value BasisType QuadratureType CollocationPointsAndWeights n)
    (among BasisType QuadratureType (fetched CollocationPointsAndWeights)).
Proof. apply fills_ret. Qed.

Lemma collocation_points_fills (n : nat) :
  in_range BasisType QuadratureType n ->
  fills (collocation_points BasisType QuadratureType n)
    (collocation_points_value BasisType QuadratureType n)
    (initialised_by BasisType QuadratureType CollocationPointsAndWeights).
Proof.
  intro Hr. unfold collocation_points.
  read_table (fun q => fst (as_pair q))
    (quantity_value BasisType QuadratureType CollocationPointsAndWeights n).
  apply precomputed_spectral_quantity_fills; [|exact Hr].
  intros k _. apply CollocationPointsAndWeightsGenerator_fills.
Qed.

Lemma quadrature_weights_fills (n : nat) :
  in_range BasisType QuadratureType n ->
  fills (quadrature_weights BasisType QuadratureType n)
    (quadrature_weights_value BasisType QuadratureType n)
    (initialised_by BasisType QuadratureType CollocationPointsAndWeights).
Proof.
  intro Hr. unfold quadrature_weights.
  read_table (fun q => snd (as_pair q))
    (quantity_value BasisType QuadratureType CollocationPointsAndWeights n).
  apply precomputed_spectral_quantity_fills; [|exact Hr].
  intros k _. apply CollocationPointsAndWeightsGenerator_fills.
Qed.

Lemma BarycentricWeightsGenerator_fills (n : nat) :
  in_range BasisType QuadratureType n ->
  fills (BarycentricWeightsGenerator BasisType QuadratureType n)
    (quantity_value BasisType QuadratureType BarycentricWeights n)
    (among BasisType QuadratureType (fetched BarycentricWeights)).
Proof.
  intro Hr. unfold BarycentricWeightsGenerator.
  apply (@fills_map DataVector Quantity _
           (fun x => Vector (barycentric_weights_loops x n))
           (collocation_points_value BasisType QuadratureType n)).
  apply collocation_points_fills. exact Hr.
Qed.

Lemma barycentric_weights_fills (n : nat) :
  in_range BasisType QuadratureType n ->
  fills (barycentric_weights BasisType QuadratureType n)
    (barycentric_weights_value BasisType QuadratureType n)
    (initialised_by BasisType QuadratureType BarycentricWeights).
Proof.
  intro Hr. unfold barycentric_weights.
  read_table as_vector
    (quantity_value BasisType QuadratureType BarycentricWeights n).
  apply precomputed_spectral_quantity_fills; [|exact Hr].
  intros k Hk. apply BarycentricWeightsGenerator_fills. exact Hk.
Qed.

Lemma DifferentiationMatrixGenerator_fills (n : nat) :
  in_range BasisType QuadratureType n ->
  fills (DifferentiationMatrixGenerator BasisType QuadratureType n)
    (quantity_value BasisType QuadratureType DifferentiationMatrix n)
    (among BasisType QuadratureType (fetched DifferentiationMatrix)).
Proof.
  intro Hr. unfold DifferentiationMatrixGenerator.
  eapply fills_ext;
    [|eapply fills_bind; [apply collocation_points_fills; exact Hr|];
      apply (@fills_map DataVector Quantity _
               (fun bw =>
                  Dense (differentiation_matrix_loops
                           (collocation_points_value BasisType QuadratureType n)
                           bw n))
               (barycentric_weights_value BasisType QuadratureType n));
      apply barycentric_weights_fills; exact Hr].
  same_tables.
Qed.

Lemma differentiation_matrix_fills (n : nat) :
  in_range BasisType QuadratureType n ->
  fills (differentiation_matrix BasisType QuadratureType n)
    (differentiation_matrix_value BasisType QuadratureType n)
    (initialised_by BasisType QuadratureType DifferentiationMatrix).
Proof.
  intro Hr. unfold differentiation_matrix.
  read_table as_matrix
    (quantity_value BasisType QuadratureType DifferentiationMatrix n).
  apply precomputed_spectral_quantity_fills; [|exact Hr].
  intros k Hk. apply DifferentiationMatrixGenerator_fills. exact Hk.
Qed.

Lemma SpectralToGridPointsMatrixGenerator_fills (n : nat) :
  in_range BasisType QuadratureType n ->
  fills (SpectralToGridPointsMatrixGenerator BasisType QuadratureType n)
    (quantity_value BasisType QuadratureType SpectralToGridPointsMatrix n)
    (among BasisType QuadratureType (fetched SpectralToGridPointsMatrix)).
Proof.
  intro Hr. unfold SpectralToGridPointsMatrixGenerator.
  apply (@fills_map DataVector Quantity _
           (fun x => Dense (vandermonde_loops BasisType x n))
           (collocation_points_value BasisType QuadratureType n)).
  apply collocation_points_fills. exact Hr.
Qed.

Lemma spectral_to_grid_points_matrix_fills (n : nat) :
  in_range BasisType QuadratureType n ->
  fills (spectral_to_grid_points_matrix BasisType QuadratureType n)
    (spectral_to_grid_points_matrix_value BasisType QuadratureType n)
    (initialised_by BasisType QuadratureType SpectralToGridPointsMatrix).
Proof.
  intro Hr. unfold spectral_to_grid_points_matrix.
  read_table as_matrix
    (quantity_value BasisType QuadratureType SpectralToGridPointsMatrix n).
  apply precomputed_spectral_quantity_fills; [|exact Hr].
  intros k Hk. apply SpectralToGridPointsMatrixGenerator_fills. exact Hk.
Qed.

End Fills.

Lemma GridPointsToSpectralMatrixGenerator_fills (BasisType : Basis)
    (QuadratureType : Quadrature) (n : nat) :
  in_range BasisType QuadratureType n ->
  fills (GridPointsToSpectralMatrixGenerator BasisType QuadratureType n)
    (quantity_value BasisType QuadratureType GridPointsToSpectralMatrix n)
    (among BasisType QuadratureType (fetched GridPointsToSpectralMatrix)).
Proof.
  intro Hr. destruct QuadratureType; simpl.
  - unfold GridPointsToSpectralMatrixGenerator_Gauss.
    eapply fills_ext;
      [|eapply fills_bind; [apply quadrature_weights_fills; exact Hr|];
        apply (@fills_map Matrix Quantity _
                 (fun V =>
                    Dense (analytic_inverse_loops BasisType
                             (quadrature_weights_value BasisType Gauss n) V n))
                 (spectral_to_grid_points_matrix_value BasisType Gauss n));
        apply spectral_to_grid_points_matrix_fills; exact Hr].
    same_tables.
  - unfold GridPointsToSpectralMatrixGenerator_primary.
    eapply fills_ext;
      [|apply (@fills_map Matrix Quantity _
                 (fun V => Dense (numeric_inverse_loops V n))
                 (spectral_to_grid_points_matrix_value BasisType GaussLobatto
                    n));
        apply spectral_to_grid_points_matrix_fills; exact Hr].
    same_tables.
  - unfold GridPointsToSpectralMatrixGenerator_primary.
    eapply fills_ext;
      [|apply (@fills_map Matrix Quantity _
                 (fun V => Dense (numeric_inverse_loops V n))
                 (spectral_to_grid_points_matrix_value BasisType
                    UnknownQuadrature n));
        apply spectral_to_grid_points_matrix_fills; exact Hr].
    same_tables.
Qed.

Lemma grid_points_to_spectral_matrix_fills (BasisType : Basis)
    (QuadratureType : Quadrature) (n : nat) :
  in_range BasisType QuadratureType n ->
  fills (grid_points_to_spectral_matrix BasisType QuadratureType n)
    (grid_points_to_spectral_matrix_value BasisType QuadratureType n)
    (initialised_by BasisType QuadratureType GridPointsToSpectralMatrix).
Proof.
  intro Hr. unfold grid_points_to_spectral_matrix.
  read_table as_matrix
    (quantity_value BasisType QuadratureType GridPointsToSpectralMatrix n).
  apply precomputed_spectral_quantity_fills; [|exact Hr].
  intros k Hk. apply GridPointsToSpectralMatrixGenerator_fills. exact Hk.
Qed.

Lemma LinearFilterMatrixGenerator_fills (BasisType : Basis)
    (QuadratureType : Quadrature) (n : nat) :
  in_range BasisType QuadratureType n ->
  fills (LinearFilterMatrixGenerator BasisType QuadratureType n)
    (quantity_value BasisType QuadratureType LinearFilterMatrix n)
    (among BasisType QuadratureType (fetched LinearFilterMatrix)).
Proof.
  intro Hr. unfold LinearFilterMatrixGenerator.
  eapply fills_ext;
    [|eapply fills_bind;
        [apply spectral_to_grid_points_matrix_fills; exact Hr|];
      apply (@fills_map Matrix Quantity _
               (fun W =>
                  Dense (linear_filter_dgemm
                           (spectral_to_grid_points_matrix_value BasisType
                              QuadratureType n) W n))
               (grid_points_to_spectral_matrix_value BasisType QuadratureType
                  n));
      apply grid_points_to_spectral_matrix_fills; exact Hr].
  same_tables.
Qed.

Lemma generator_fills (BasisType : Basis) (QuadratureType : Quadrature)
    (kind : GeneratorKind) (n : nat) :
  in_range BasisType QuadratureType n ->
  fills (generator BasisType QuadratureType kind n)
    (quantity_value BasisType QuadratureType kind n)
    (among BasisType QuadratureType (fetched kind)).
Proof.
  intro Hr. destruct kind; simpl generator.
  - apply CollocationPointsAndWeightsGenerator_fills.
  - apply BarycentricWeightsGenerator_fills; exact Hr.
  - apply DifferentiationMatrixGenerator_fills; exact Hr.
  - apply SpectralToGridPointsMatrixGenerator_fills; exact Hr.
  - apply GridPointsToSpectralMatrixGenerator_fills; exact Hr.
  - apply LinearFilterMatrixGenerator_fills; exact Hr.
Qed.

Lemma request_fills (BasisType : Basis) (QuadratureType : Quadrature)
    (kind : GeneratorKind) (n : nat) :
  in_range BasisType QuadratureType n ->
  fills (request BasisType QuadratureType kind n)
    (quantity_value BasisType QuadratureType kind n)
    (initialised_by BasisType QuadratureType kind).
Proof.
  intro Hr. unfold request.
  apply precomputed_spectral_quantity_fills; [|exact Hr].
  intros k Hk. apply generator_fills. exact Hk.
Qed.

Lemma interpolation_matrix_fills (BasisType : Basis)
    (QuadratureType : Quadrature) (n : nat) (target_points : list F) :
  in_range BasisType QuadratureType n ->
  fills (interpolation_matrix BasisType QuadratureType n target_points)
    (interpolation_matrix_value BasisType QuadratureType n target_points)
    (initialised_by BasisType QuadratureType BarycentricWeights).
Proof.
  intro Hr. pose proof Hr as [Hmin Hmax].
  unfold interpolation_matrix.
  apply Nat.leb_le in Hmin, Hmax. rewrite Hmin, Hmax.
  eapply fills_ext;
    [|eapply fills_bind; [apply fills_ret|];
      eapply fills_bind; [apply fills_ret|];
      eapply fills_bind; [apply collocation_points_fills; exact Hr|];
      apply (@fills_map DataVector Matrix _
               (fun bw =>
                  interpolation_matrix_loops
                    (collocation_points_value BasisType QuadratureType n)
                    bw n target_points)
               (barycentric_weights_value BasisType QuadratureType n));
      apply barycentric_weights_fills; exact Hr].
  same_tables.
Qed.

(** * Further theorems *)

(** X1.  The matrix returned by [spectral_to_grid_points_matrix] has the
    value of basis function [j] at collocation point [i] as its entry
    [(i, j)]; applied to spectral coefficients it gives the expansion at
    the collocation points. *)
Theorem spectral_to_grid_matrix_samples_basis (BasisType : Basis)
    (QuadratureType : Quadrature) (n : nat) :
  in_range BasisType QuadratureType n ->
  exists V x,
    returns (spectral_to_grid_points_matrix BasisType QuadratureType n) V /\
    returns (collocation_points BasisType QuadratureType n) x /\
    shaped n n V /\
    (forall i j, i < n -> j < n ->
       mget V i j = compute_basis_function_value BasisType j (vget x i)) /\
    (forall (c : DataVector) i, i < n ->
       sumF (fun j => (mget V i j * vget c j)%Sc) n =
       sumF (fun j =>
               (vget c j *
                compute_basis_function_value BasisType j (vget x i))%Sc) n).
Proof.
  intro Hr.
  exists (spectral_to_grid_points_matrix_value BasisType QuadratureType n),
         (collocation_points_value BasisType QuadratureType n).
  split; [apply spectral_to_grid_points_matrix_returns; exact Hr|].
  split; [apply collocation_points_returns; exact Hr|].
  split; [apply shaped_spectral_to_grid|]. split.
  - intros i j Hi Hj. apply spectral_to_grid_entries; assumption.
  - intros c i Hi. apply sumF_ext. intros j Hj.
    rewrite spectral_to_grid_entries by assumption. ring.
Qed.

(** X4.  For distinct collocation points, the matrix returned by
    [differentiation_matrix] maps the values at the collocation points of
    any polynomial with at most [n] coefficients (degree below [n]) to
    the values of its derivative (exact arithmetic). *)
Theorem differentiation_matrix_exact_on_polynomials (BasisType : Basis)
    (QuadratureType : Quadrature) (n : nat) :
  in_range BasisType QuadratureType n ->
  distinct_nodes (collocation_points_value BasisType QuadratureType n) n ->
  exists D x,
    returns (differentiation_matrix BasisType QuadratureType n) D /\
    returns (collocation_points BasisType QuadratureType n) x /\
    forall p i, length p <= n -> i < n ->
      sumF (fun j => (mget D i j * poly_eval p (vget x j))%Sc) n =
      poly_deriv_eval p (vget x i).
Proof.
  intros Hr Hd.
  exists (differentiation_matrix_value BasisType QuadratureType n),
         (collocation_points_value BasisType QuadratureType n).
  split.
  { unfold differentiation_matrix. eapply returns_bind.
    - apply precomputed_spectral_quantity_returns; [|exact Hr].
      intros k Hk. apply DifferentiationMatrixGenerator_returns. exact Hk.
    - apply returns_ret. }
  split; [apply collocation_points_returns; exact Hr|].
  intros p i Hlen Hi. apply differentiation_exact; assumption.
Qed.

(** X6.  Every row of the interpolation matrix depends on its own target
    only: the matrix for the targets [ts1 ++ ts2] has the rows of the
    matrix for [ts1] followed by the rows of the matrix for [ts2]. *)
Theorem interpolation_matrix_stacks_rows (BasisType : Basis)
    (QuadratureType : Quadrature) (n : nat) (ts1 ts2 : list F) :
  in_range BasisType QuadratureType n ->
  exists M M1 M2,
    returns (interpolation_matrix BasisType QuadratureType n (ts1 ++ ts2)) M /\
    returns (interpolation_matrix BasisType QuadratureType n ts1) M1 /\
    returns (interpolation_matrix BasisType QuadratureType n ts2) M2 /\
    shaped (length ts1 + length ts2) n M /\
    shaped (length ts1) n M1 /\ shaped (length ts2) n M2 /\
    (forall k j, k < length ts1 -> j < n -> mget M k j = mget M1 k j) /\
    (forall k j, k < length ts2 -> j < n ->
       mget M (length ts1 + k) j = mget M2 k j).
Proof.
  intro Hr.
  set (x := collocation_points_value BasisType QuadratureType n).
  set (bw := barycentric_weights_value BasisType QuadratureType n).
  exists (interpolation_matrix_value BasisType QuadratureType n (ts1 ++ ts2)),
         (interpolation_matrix_value BasisType QuadratureType n ts1),
         (interpolation_matrix_value BasisType QuadratureType n ts2).
  split; [apply interpolation_matrix_returns; exact Hr|].
  split; [apply interpolation_matrix_returns; exact Hr|].
  split; [apply interpolation_matrix_returns; exact Hr|].
  destruct (interpolation_matrix_loops_state x bw n (ts1 ++ ts2)) as [Hs H].
  destruct (interpolation_matrix_loops_state x bw n ts1) as [Hs1 H1].
  destruct (interpolation_matrix_loops_state x bw n ts2) as [Hs2 H2].
  rewrite length_app in Hs, H.
  split; [exact Hs|]. split; [exact Hs1|]. split; [exact Hs2|]. split.
  - intros k j Hk Hj. unfold interpolation_matrix_value. fold x bw.
    rewrite H, H1 by (assumption || lia).
    unfold vget. rewrite app_nth1 by exact Hk. reflexivity.
  - intros k j Hk Hj. unfold interpolation_matrix_value. fold x bw.
    rewrite H, H2 by (assumption || lia).
    unfold vget. rewrite app_nth2 by lia.
    replace (length ts1 + k - length ts1) with k by lia. reflexivity.
Qed.

(** X7.  For distinct collocation points, the barycentric weights
    annihilate the values of every polynomial with fewer than [n]
    coefficients (degree at most [n - 2]); with two points or more they
    sum to zero (exact arithmetic). *)
Theorem barycentric_weights_annihilate_low_degrees (BasisType : Basis)
    (QuadratureType : Quadrature) (n : nat) :
  in_range BasisType QuadratureType n ->
  distinct_nodes (collocation_points_value BasisType QuadratureType n) n ->
  exists bary x,
    returns (barycentric_weights BasisType QuadratureType n) bary /\
    returns (collocation_points BasisType QuadratureType n) x /\
    (forall q, length q < n ->
       sumF (fun j => (vget bary j * poly_eval q (vget x j))%Sc) n = F0) /\
    (2 <= n -> sumF (vget bary) n = F0).
Proof.
  intros Hr Hd.
  set (x := collocation_points_value BasisType QuadratureType n) in *.
  exists (barycentric_weights_value BasisType QuadratureType n), x.
  split; [apply barycentric_weights_returns; exact Hr|].
  split; [apply collocation_points_returns; exact Hr|].
  assert (Hq : forall q, length q < n ->
            sumF (fun j =>
                    (vget (barycentric_weights_value BasisType QuadratureType n)
                       j * poly_eval q (vget x j))%Sc) n = F0).
  { intros q Hlen. rewrite <- (@vanishing_moments x n Hd q Hlen).
    apply sumF_ext. intros j Hj. unfold barycentric_weights_value. fold x.
    rewrite vget_barycentric_weights_loops by exact Hj.
    pose proof (@node_product_neq_0 x j n Hd Hj) as Hnp.
    field. exact Hnp. }
  split; [exact Hq|].
  intro Hn. rewrite <- (Hq [F1]) by (simpl; lia).
  apply sumF_ext. intros j _. simpl. ring.
Qed.

(** X8.  What a request does to the cache.  From a cache that satisfies
    [cache_ok] and [cache_closed] (the empty cache does), a request in
    range for the table of [kind] returns its value and leaves exactly
    the cache it found plus, where they were missing, the complete tables
    of [kind] and of the kinds its generator fetches ([fetched]): these
    tables exist afterwards, and no table of another basis, of another
    quadrature or of any other kind is touched.  [interpolation_matrix]
    owns no table; it leaves the tables of the collocation points and of
    the barycentric weights. *)
Theorem request_initialises_its_tables (BasisType : Basis)
    (QuadratureType : Quadrature) (kind : GeneratorKind) (n : nat)
    (c : Cache) :
  in_range BasisType QuadratureType n -> cache_ok c -> cache_closed c ->
  (exists c',
     request BasisType QuadratureType kind n c =
     (Ok (quantity_value BasisType QuadratureType kind n), c') /\
     cache_ok c' /\ cache_closed c' /\
     (forall key,
        c' key =
        cache_fill (initialised_by BasisType QuadratureType kind) c key) /\
     (forall kind', In kind' (kind :: fetched kind) ->
        c' (BasisType, QuadratureType, kind') <> None) /\
     (forall b q k,
        b <> BasisType \/ q <> QuadratureType \/
        ~ In k (kind :: fetched kind) ->
        c' (b, q, k) = c (b, q, k))) /\
  (forall target_points, exists c',
     interpolation_matrix BasisType QuadratureType n target_points c =
     (Ok (interpolation_matrix_value BasisType QuadratureType n target_points),
      c') /\
     cache_ok c' /\ cache_closed c' /\
     forall key,
       c' key =
       cache_fill
         (among BasisType QuadratureType
            [BarycentricWeights; CollocationPointsAndWeights]) c key) /\
  cache_ok empty_cache /\ cache_closed empty_cache.
Proof.
  intros Hr Hc Hcl.
  split; [|split; [|split; [apply cache_ok_empty|apply cache_closed_empty]]].
  - destruct (@request_fills BasisType QuadratureType kind n Hr c Hc Hcl)
      as (c' & E & Hc' & Hcl' & Hf).
    exists c'. split; [exact E|]. split; [exact Hc'|]. split; [exact Hcl'|].
    split; [exact Hf|]. split.
    + intros kind' Hin. rewrite Hf. unfold cache_fill.
      destruct (c (BasisType, QuadratureType, kind')); [discriminate|].
      assert (E' : initialised_by BasisType QuadratureType kind
                     (BasisType, QuadratureType, kind') = true)
        by (apply among_true; eauto).
      rewrite E'. discriminate.
    + intros b q k Hother. rewrite Hf. unfold cache_fill.
      destruct (c (b, q, k)); [reflexivity|].
      destruct (initialised_by BasisType QuadratureType kind (b, q, k)) eqn:E';
        [|reflexivity].
      exfalso. apply among_true in E'. destruct E' as (k0 & Hin & E0).
      inversion E0; subst. intuition.
  - intro target_points.
    apply (@interpolation_matrix_fills BasisType QuadratureType n
             target_points Hr c Hc Hcl).
Qed.

(** X9.  Two requests in range, for any two tables and numbers of points,
    return the same two values in either order, and the two orders leave
    the same tables in the cache. *)
Theorem requests_commute (B1 B2 : Basis) (Q1 Q2 : Quadrature)
    (k1 k2 : GeneratorKind) (n1 n2 : nat) (c : Cache) :
  in_range B1 Q1 n1 -> in_range B2 Q2 n2 -> cache_ok c -> cache_closed c ->
  exists c1 c12 c2 c21,
    request B1 Q1 k1 n1 c = (Ok (quantity_value B1 Q1 k1 n1), c1) /\
    request B2 Q2 k2 n2 c1 = (Ok (quantity_value B2 Q2 k2 n2), c12) /\
    request B2 Q2 k2 n2 c = (Ok (quantity_value B2 Q2 k2 n2), c2) /\
    request B1 Q1 k1 n1 c2 = (Ok (quantity_value B1 Q1 k1 n1), c21) /\
    forall key, c12 key = c21 key.
Proof.
  intros Hr1 Hr2 Hc Hcl.
  destruct (@request_fills B1 Q1 k1 n1 Hr1 c Hc Hcl)
    as (c1 & E1 & Hc1 & Hcl1 & Hf1).
  destruct (@request_fills B2 Q2 k2 n2 Hr2 c1 Hc1 Hcl1)
    as (c12 & E12 & _ & _ & Hf12).
  destruct (@request_fills B2 Q2 k2 n2 Hr2 c Hc Hcl)
    as (c2 & E2 & Hc2 & Hcl2 & Hf2).
  destruct (@request_fills B1 Q1 k1 n1 Hr1 c2 Hc2 Hcl2)
    as (c21 & E21 & _ & _ & Hf21).
  exists c1, c12, c2, c21.
  split; [exact E1|]. split; [exact E12|]. split; [exact E2|].
  split; [exact E21|].
  intro key. rewrite Hf12, Hf21. unfold cache_fill. rewrite Hf1, Hf2.
  unfold cache_fill.
  destruct (c key), (initialised_by B1 Q1 k1 key),
    (initialised_by B2 Q2 k2 key); reflexivity.
Qed.


Lemma accessor_out_of_range (A : Type) (BasisType : Basis)
    (QuadratureType : Quadrature) (kind : GeneratorKind)
    (gen : nat -> Request Quantity) (g : Quantity -> A) (n : nat) (c : Cache) :
  ~ in_range BasisType QuadratureType n ->
  exists e,
    (exists message, e = RangeError message) /\
    bind (precomputed_spectral_quantity BasisType QuadratureType kind gen n)
      (fun q => ret (g q)) c = (Err e, c).
Proof.
  intro H.
  destruct (@precomputed_spectral_quantity_out_of_range BasisType
              QuadratureType kind gen n c H) as [message E].
  exists (RangeError message). split; [eauto|].
  unfold bind. rewrite E. reflexivity.
Qed.

(** X11.  How the functions that take a mesh fail.  With a basis other
    than Legendre every one of them fails with the unsupported-combination
    error [Missing basis case for spectral quantity]; with the Legendre
    basis and a quadrature other than Gauss and Gauss-Lobatto, with
    [Missing quadrature case for spectral quantity]; in both cases
    whatever the extents are, since the switch comes before the range
    assertions.  With a supported basis and quadrature and extents out of
    range they fail with a RangeError.  The cache is left as it was. *)
Theorem mesh_overloads_failures (mesh : Mesh) (c : Cache) :
  (basis mesh 0 <> Legendre ->
   mesh_requests_fail mesh c
     (fun e =>
        e = UnsupportedCombinationError
              "Missing basis case for spectral quantity")) /\
  (basis mesh 0 = Legendre ->
   quadrature mesh 0 <> Gauss -> quadrature mesh 0 <> GaussLobatto ->
   mesh_requests_fail mesh c
     (fun e =>
        e = UnsupportedCombinationError
              "Missing quadrature case for spectral quantity")) /\
  (basis mesh 0 = Legendre ->
   quadrature mesh 0 = Gauss \/ quadrature mesh 0 = GaussLobatto ->
   ~ in_range (basis mesh 0) (quadrature mesh 0) (extents mesh 0) ->
   mesh_requests_fail mesh c (fun e => exists message, e = RangeError message)).
Proof.
  unfold mesh_requests_fail, collocation_points_mesh, quadrature_weights_mesh,
    differentiation_matrix_mesh, spectral_to_grid_points_matrix_mesh,
    grid_points_to_spectral_matrix_mesh, linear_filter_matrix_mesh,
    interpolation_matrix_mesh, get_spectral_quantity_for_mesh.
  split; [|split].
  - intro Hb. destruct (basis mesh 0); [contradiction|].
    repeat split; try intro target_points; eexists; split; reflexivity.
  - intros Hb Hg Hgl. rewrite Hb.
    destruct (quadrature mesh 0); [contradiction|contradiction|].
    repeat split; try intro target_points; eexists; split; reflexivity.
  - intros Hb Hq Hout. rewrite Hb in *.
    assert (Hall :
      (forall kind gen A (g : Quantity -> A),
         exists e,
           (exists message, e = RangeError message) /\
           bind (precomputed_spectral_quantity Legendre (quadrature mesh 0)
                   kind gen (extents mesh 0))
             (fun q => ret (g q)) c = (Err e, c)) /\
      (forall target_points,
         exists e,
           (exists message, e = RangeError message) /\
           interpolation_matrix Legendre (quadrature mesh 0) (extents mesh 0)
             target_points c = (Err e, c))).
    { split.
      - intros kind gen A g. apply accessor_out_of_range. exact Hout.
      - intro target_points.
        destruct (@interpolation_matrix_out_of_range Legendre
                    (quadrature mesh 0) (extents mesh 0) target_points c Hout)
          as [message E].
        exists (RangeError message). split; [eauto|exact E]. }
    destruct Hall as [Hacc Hint].
    destruct Hq as [Hq|Hq]; rewrite Hq in *;
      (split; [apply Hacc|]); (split; [apply Hacc|]);
      (split; [apply Hacc|]); (split; [apply Hacc|]);
      (split; [apply Hacc|]); (split; [apply Hacc|]); exact Hint.
Qed.


End Properties.

(** * The rows of the interpolation matrix, in any arithmetic

    No law of the arithmetic is assumed here: the statement holds of the
    doubles of the code as it holds of the rationals and of the reals. *)

Section Rows.

Context {arith : Arithmetic} {prims : Primitives}.

(** C6.  Row [k] of the matrix returned by [interpolation_matrix].  If the
    target equals some node within round-off, the row has 1 in every
    column whose node matches and 0 elsewhere, so it is the one-hot vector
    when one node matches.  Otherwise entry [j] is
    [bary[j] / (target_k - x_j)] divided by the sum of these over the row,
    each operation being one of the arithmetic.  Nothing is said of the sum
    of such a row: in doubles it need not be 1. *)
Theorem interpolation_matrix_row (BasisType : Basis)
    (QuadratureType : Quadrature) (n : nat) (target_points : list F) (k : nat) :
  in_range BasisType QuadratureType n ->
  k < length target_points ->
  exists x bary M,
    returns (collocation_points BasisType QuadratureType n) x /\
    returns (barycentric_weights BasisType QuadratureType n) bary /\
    returns (interpolation_matrix BasisType QuadratureType n target_points) M /\
    shaped (length target_points) n M /\
    let t := vget target_points k in
    ((exists j, j < n /\ equal_within_roundoff t (vget x j) = true) ->
     forall j, j < n ->
       mget M k j = if equal_within_roundoff t (vget x j) then F1 else F0) /\
    (forall j0, j0 < n -> equal_within_roundoff t (vget x j0) = true ->
     (forall j, j < n -> j <> j0 ->
        equal_within_roundoff t (vget x j) = false) ->
     forall j, j < n -> mget M k j = delta j0 j) /\
    ((forall j, j < n -> equal_within_roundoff t (vget x j) = false) ->
     forall j, j < n ->
       mget M k j =
       Fdiv (Fdiv (vget bary j) (Fsub t (vget x j)))
         (sumF (fun l => Fdiv (vget bary l) (Fsub t (vget x l))) n)).
Proof.
  intros Hr Hk.
  set (x := collocation_points_value BasisType QuadratureType n).
  set (bw := barycentric_weights_value BasisType QuadratureType n).
  set (M := interpolation_matrix_value BasisType QuadratureType n
              target_points).
  exists x, bw, M.
  split; [apply collocation_points_returns; exact Hr|].
  split; [apply barycentric_weights_returns; exact Hr|].
  split; [apply interpolation_matrix_returns; exact Hr|].
  assert (HM : interpolation_state x bw n target_points (length target_points)
                 M) by apply interpolation_matrix_loops_state.
  destruct HM as [Hs Hrows]. split; [exact Hs|]. cbv zeta.
  set (t := vget target_points k) in *.
  assert (Hrow : forall j, j < n -> mget M k j = interpolation_row x bw n t j)
    by (intros j Hj; apply Hrows; assumption).
  unfold interpolation_row in Hrow.
  split; [|split].
  - intros Hex j Hj. apply has_match_true in Hex.
    rewrite (Hrow j Hj), Hex. reflexivity.
  - intros j0 Hj0 E0 Hothers j Hj.
    assert (Hm : has_match x n t = true) by (apply has_match_true; eauto).
    rewrite (Hrow j Hj), Hm. unfold delta.
    destruct (Nat.eqb_spec j0 j) as [->|Hne].
    + rewrite E0. reflexivity.
    + rewrite Hothers by (auto; lia). reflexivity.
  - intros Hnone j Hj. apply has_match_false in Hnone.
    rewrite (Hrow j Hj), Hnone. reflexivity.
Qed.

End Rows.


(** * The rational instance: evaluation and the theorems applied *)

Module AtRational.

Import Stdlib.QArith.QArith_base Stdlib.QArith.Qcanon.
#[local] Close Scope Qc_scope.
#[local] Close Scope Q_scope.
Import Rational.
#[local] Existing Instance rational_arithmetic.
#[local] Existing Instance legendre_primitives.

Ltac qc_eq := apply Qc_is_canon; vm_compute; reflexivity.

Ltac qc_neq :=
  let H := fresh in
  intro H; apply (f_equal this) in H; vm_compute in H; discriminate H.

Ltac in_range_by_evaluation := unfold in_range; simpl; lia.

(** Three Gauss-Lobatto points: the differentiation matrix. *)
Example differentiation_matrix_three_points :
  entries
    (value (differentiation_matrix Legendre GaussLobatto 3 empty_cache)
       (Matrix_new 0 0)) =
  [[-3 # 2; 2 # 1; -1 # 2]; [-1 # 2; 0 # 1; 1 # 2]; [1 # 2; -2 # 1; 3 # 2]]%Q.
Proof. vm_compute. reflexivity. Qed.

(** It differentiates [x^2], sampled as [1, 0, 1], to [-2, 0, 2]. *)
Example differentiation_matrix_of_square :
  let D := differentiation_matrix_value Legendre GaussLobatto 3 in
  map (fun i =>
         this (sumF (fun j => Qcmult (mget D i j)
                                (nth j [q 1 1; q 0 1; q 1 1] (q 0 1))) 3))
    (seq 0 3) =
  [-2 # 1; 0 # 1; 2 # 1]%Q.
Proof. vm_compute. reflexivity. Qed.

Example barycentric_weights_three_points :
  map this (value (barycentric_weights Legendre GaussLobatto 3 empty_cache) []) =
  [1 # 2; -1 # 1; 1 # 2]%Q.
Proof. vm_compute. reflexivity. Qed.

Example transform_matrices_three_points :
  entries (spectral_to_grid_points_matrix_value Legendre GaussLobatto 3) =
  [[1 # 1; -1 # 1; 1 # 1]; [1 # 1; 0 # 1; -1 # 2]; [1 # 1; 1 # 1; 1 # 1]]%Q /\
  entries (grid_points_to_spectral_matrix_value Legendre GaussLobatto 3) =
  [[1 # 6; 2 # 3; 1 # 6]; [-1 # 2; 0 # 1; 1 # 2]; [1 # 3; -2 # 3; 1 # 3]]%Q /\
  entries (linear_filter_matrix_value Legendre GaussLobatto 3) =
  [[2 # 3; 2 # 3; -1 # 3]; [1 # 6; 2 # 3; 1 # 6]; [-1 # 3; 2 # 3; 2 # 3]]%Q.
Proof. repeat split; vm_compute; reflexivity. Qed.

(** Targets 1/2 (no node), 1 (the last node) and -1/3 (no node). *)
Example interpolation_matrix_three_targets :
  entries
    (value
       (interpolation_matrix Legendre GaussLobatto 3
          [q 1 2; q 1 1; q (-1) 3] empty_cache) (Matrix_new 0 0)) =
  [[-1 # 8; 3 # 4; 3 # 8]; [0 # 1; 0 # 1; 1 # 1]; [2 # 9; 8 # 9; -1 # 9]]%Q.
Proof. vm_compute. reflexivity. Qed.

(** Too few and too many points. *)
Example request_out_of_range :
  (exists message,
     differentiation_matrix Legendre GaussLobatto 1 empty_cache =
     (Err (RangeError message), empty_cache)) /\
  (exists message,
     differentiation_matrix Legendre GaussLobatto 5 empty_cache =
     (Err (RangeError message), empty_cache)) /\
  (exists message,
     collocation_points Legendre Gauss 0 empty_cache =
     (Err (RangeError message), empty_cache)).
Proof. repeat split; eexists; reflexivity. Qed.

(** A mesh with a quadrature outside the supported set. *)
Example mesh_unsupported_quadrature :
  exists message,
    collocation_points_mesh
      (mkMesh (fun _ => 3) (fun _ => Legendre) (fun _ => UnknownQuadrature))
      empty_cache =
    (Err (UnsupportedCombinationError message), empty_cache).
Proof. eexists. reflexivity. Qed.

(** ** The theorems at this instance *)

Lemma blaze_inverts_three_points :
  blaze_inverts (spectral_to_grid_points_matrix_value Legendre GaussLobatto 3)
    3.
Proof.
  split; [vm_compute; reflexivity|]. split; [vm_compute; reflexivity|].
  split; intros i j Hi Hj;
    (destruct i as [|[|[|i]]]; [| | |lia]);
    (destruct j as [|[|[|j]]]; [| | |lia]); qc_eq.
Qed.

Lemma gauss_orthogonality_one_point : gauss_orthogonality Legendre 1.
Proof.
  split.
  - intros i Hi. destruct i as [|i]; [|lia]. qc_neq.
  - intros i j Hi Hj. destruct i as [|i]; [|lia]. destruct j as [|j]; [|lia].
    qc_eq.
Qed.

(** At one Gauss point both paths give the same 1 by 1 matrix. *)
Example analytic_and_generic_paths_one_point :
  entries (analytic_inverse_value Legendre 1) = [[1 # 1]]%Q /\
  entries (numeric_inverse_value Legendre Gauss 1) = [[1 # 1]]%Q.
Proof. split; vm_compute; reflexivity. Qed.

(** With the three Gauss points rounded to sixteen digits the analytic
    inverse is an inverse up to [10^-15], entry by entry, and not exactly. *)
Example rounded_gauss_points_within_tolerance :
  let W := grid_points_to_spectral_matrix_value Legendre Gauss 3 in
  let V := spectral_to_grid_points_matrix_value Legendre Gauss 3 in
  forallb (fun i =>
    forallb (fun j =>
      Qc_ltb (Qc_abs (Qcminus (mat_mul_entry W V i j) (delta i j)))
        (q 1 1000000000000000)) (seq 0 3)) (seq 0 3) = true /\
  this (mat_mul_entry W V 1 1) <> (1 # 1)%Q.
Proof. split; [vm_compute; reflexivity|vm_compute; discriminate]. Qed.

Lemma differentiation_matrix_rows_witness :
  in_range Legendre GaussLobatto 3 /\
  exists D x bary,
    returns (differentiation_matrix Legendre GaussLobatto 3) D /\
    returns (collocation_points Legendre GaussLobatto 3) x /\
    returns (barycentric_weights Legendre GaussLobatto 3) bary /\
    shaped 3 3 D /\
    (forall i j, i < 3 -> j < 3 -> i <> j ->
       mget D i j =
       Fdiv (vget bary j) (Fmul (vget bary i) (Fsub (vget x i) (vget x j)))) /\
    (forall i, i < 3 -> mget D i i = Fsub F0 (sum_except i (mget D i) 3)) /\
    (forall i, i < 3 -> sumF (mget D i) 3 = F0) /\
    (forall i a, i < 3 -> sumF (fun j => Fmul (mget D i j) a) 3 = F0).
Proof.
  assert (H3 : in_range Legendre GaussLobatto 3) by in_range_by_evaluation.
  split; [exact H3|].
  exact (differentiation_matrix_rows rational_field H3).
Defined.

Lemma nodes_separated_three_points :
  nodes_separated (collocation_points_value Legendre GaussLobatto 3) 3.
Proof.
  intros i j Hi Hj.
  (destruct i as [|[|[|i]]]; [| | |lia]);
    (destruct j as [|[|[|j]]]; [| | |lia]); vm_compute; reflexivity.
Qed.

Lemma interpolation_at_collocation_points_is_identity_witness :
  in_range Legendre GaussLobatto 3 /\
  length (collocation_points_value Legendre GaussLobatto 3) = 3 /\
  nodes_separated (collocation_points_value Legendre GaussLobatto 3) 3 /\
  exists x M,
    returns (collocation_points Legendre GaussLobatto 3) x /\
    returns (interpolation_matrix Legendre GaussLobatto 3 x) M /\
    shaped 3 3 M /\ is_identity 3 (mget M).
Proof.
  assert (H3 : in_range Legendre GaussLobatto 3) by in_range_by_evaluation.
  assert (Hlen : length (collocation_points_value Legendre GaussLobatto 3) = 3)
    by reflexivity.
  split; [exact H3|]. split; [exact Hlen|].
  split; [exact nodes_separated_three_points|].
  exact (interpolation_at_collocation_points_is_identity H3 Hlen
           nodes_separated_three_points).
Defined.

(** The filter of three points, squared. *)
Example linear_filter_squared_three_points :
  let L := linear_filter_matrix_value Legendre GaussLobatto 3 in
  map (fun i => map (fun j => this (mat_mul_entry L L i j)) (seq 0 3))
    (seq 0 3) =
  entries L.
Proof. vm_compute. reflexivity. Qed.

Lemma distinct_nodes_three_points :
  distinct_nodes [q (-1) 1; q 0 1; q 1 1] 3.
Proof.
  intros i j Hi Hj Hne.
  (destruct i as [|[|[|i]]]; [| | |lia]);
    (destruct j as [|[|[|j]]]; [| | |lia]); try lia; qc_neq.
Qed.

(** The rows of the targets 1/2 and -1/3, which match no node, sum to 1;
    the row of the target 1 is the one-hot vector of the last node. *)
Example interpolation_rows_three_targets :
  let M :=
    interpolation_matrix_value Legendre GaussLobatto 3
      [q 1 2; q 1 1; q (-1) 3] in
  map (fun k => this (sumF (mget M k) 3)) (seq 0 3) = [1 # 1; 1 # 1; 1 # 1]%Q /\
  map (fun j => this (mget M 1 j)) (seq 0 3) = [0 # 1; 0 # 1; 1 # 1]%Q.
Proof. split; vm_compute; reflexivity. Qed.

Lemma barycentric_weights_are_reciprocal_products_witness :
  distinct_nodes [q (-1) 1; q 0 1; q 1 1] 3 /\
  length (barycentric_weights_loops [q (-1) 1; q 0 1; q 1 1] 3) = 3 /\
  (forall j, j < 3 ->
     node_product [q (-1) 1; q 0 1; q 1 1] j 3 <> F0 /\
     vget (barycentric_weights_loops [q (-1) 1; q 0 1; q 1 1] 3) j =
     Fdiv F1 (node_product [q (-1) 1; q 0 1; q 1 1] j 3)) /\
  (forall BasisType QuadratureType,
     in_range BasisType QuadratureType 3 ->
     exists nodes,
       returns (collocation_points BasisType QuadratureType 3) nodes /\
       returns (barycentric_weights BasisType QuadratureType 3)
         (barycentric_weights_loops nodes 3)).
Proof.
  split; [exact distinct_nodes_three_points|].
  exact (barycentric_weights_are_reciprocal_products rational_field
           distinct_nodes_three_points).
Defined.

(** Any distinct nodes will do: 0, 1/2, 2 and 5. *)
Example barycentric_weights_of_four_nodes :
  map this (barycentric_weights_loops [q 0 1; q 1 2; q 2 1; q 5 1] 4) =
  [-1 # 5; 8 # 27; -1 # 9; 2 # 135]%Q.
Proof. vm_compute. reflexivity. Qed.

(** From the empty cache: a request in range, the same request again, and
    a request with too many points. *)
Lemma request_range_and_purity_witness :
  (exists c',
     request Legendre GaussLobatto DifferentiationMatrix 3 empty_cache =
     (Ok (quantity_value Legendre GaussLobatto DifferentiationMatrix 3), c') /\
     cache_ok c' /\ cache_extends empty_cache c' /\
     request Legendre GaussLobatto DifferentiationMatrix 3 c' =
     (Ok (quantity_value Legendre GaussLobatto DifferentiationMatrix 3), c')) /\
  (exists message,
     request Legendre GaussLobatto DifferentiationMatrix 5 empty_cache =
     (Err (RangeError message), empty_cache)).
Proof.
  split.
  - destruct (request_range_and_purity Legendre GaussLobatto
                DifferentiationMatrix 3 empty_cache) as (_ & Hin & Hempty).
    assert (H3 : in_range Legendre GaussLobatto 3) by in_range_by_evaluation.
    destruct (Hin H3 Hempty) as [H _]. exact H.
  - destruct (request_range_and_purity Legendre GaussLobatto
                DifferentiationMatrix 5 empty_cache) as (Hout & _ & _).
    assert (H5 : ~ in_range Legendre GaussLobatto 5)
      by (unfold in_range; simpl; lia).
    destruct (Hout H5) as [H _]. apply H.
Defined.

Lemma mesh_overloads_dispatch_witness :
  basis three_point_mesh 0 = Legendre /\
  (quadrature three_point_mesh 0 = Gauss \/
   quadrature three_point_mesh 0 = GaussLobatto) /\
  collocation_points_mesh three_point_mesh =
    collocation_points Legendre GaussLobatto 3 /\
  quadrature_weights_mesh three_point_mesh =
    quadrature_weights Legendre GaussLobatto 3 /\
  differentiation_matrix_mesh three_point_mesh =
    differentiation_matrix Legendre GaussLobatto 3 /\
  spectral_to_grid_points_matrix_mesh three_point_mesh =
    spectral_to_grid_points_matrix Legendre GaussLobatto 3 /\
  grid_points_to_spectral_matrix_mesh three_point_mesh =
    grid_points_to_spectral_matrix Legendre GaussLobatto 3 /\
  linear_filter_matrix_mesh three_point_mesh =
    linear_filter_matrix Legendre GaussLobatto 3 /\
  forall target_points,
    interpolation_matrix_mesh three_point_mesh target_points =
    interpolation_matrix Legendre GaussLobatto 3 target_points.
Proof.
  assert (Hb : basis three_point_mesh 0 = Legendre) by reflexivity.
  assert (Hq : quadrature three_point_mesh 0 = Gauss \/
               quadrature three_point_mesh 0 = GaussLobatto)
    by (right; reflexivity).
  split; [exact Hb|]. split; [exact Hq|].
  exact (mesh_overloads_dispatch three_point_mesh Hb Hq).
Defined.

Lemma linear_filter_one_point_witness :
  in_range Legendre Gauss 1 /\
  gauss_orthogonality Legendre 1 /\
  exists L V W,
    returns (linear_filter_matrix Legendre Gauss 1) L /\
    returns (spectral_to_grid_points_matrix Legendre Gauss 1) V /\
    returns (grid_points_to_spectral_matrix Legendre Gauss 1) W /\
    shaped 1 1 L /\
    mget L 0 0 = sumF (fun l => Fmul (mget V 0 l) (mget W l 0)) (Nat.min 2 1) /\
    mget L 0 0 = Fmul (mget V 0 0) (mget W 0 0) /\
    mget L 0 0 = F1 /\ mat_mul_entry L L 0 0 = mget L 0 0.
Proof.
  assert (H1 : in_range Legendre Gauss 1) by in_range_by_evaluation.
  destruct (linear_filter_one_point rational_field H1)
    as (L & V & W & HL & HV & HW & Hs & Hsum & Hprod & Hidem).
  split; [exact H1|]. split; [exact gauss_orthogonality_one_point|].
  exists L, V, W.
  split; [exact HL|]. split; [exact HV|]. split; [exact HW|].
  split; [exact Hs|]. split; [exact Hsum|]. split; [exact Hprod|].
  exact (Hidem gauss_orthogonality_one_point).
Defined.

Example linear_filter_one_point_value :
  entries (value (linear_filter_matrix Legendre Gauss 1 empty_cache)
             (Matrix_new 0 0)) = [[1 # 1]]%Q.
Proof. vm_compute. reflexivity. Qed.

(** ** The further theorems at this instance *)

Lemma distinct_nodes_four_points :
  distinct_nodes (collocation_points_value Legendre GaussLobatto 4) 4.
Proof.
  intros i j Hi Hj Hne.
  (destruct i as [|[|[|[|i]]]]; [| | | |lia]);
    (destruct j as [|[|[|[|j]]]]; [| | | |lia]); try lia; qc_neq.
Qed.

Lemma spectral_to_grid_matrix_samples_basis_witness :
  in_range Legendre GaussLobatto 3 /\
  exists V x,
    returns (spectral_to_grid_points_matrix Legendre GaussLobatto 3) V /\
    returns (collocation_points Legendre GaussLobatto 3) x /\
    shaped 3 3 V /\
    (forall i j, i < 3 -> j < 3 ->
       mget V i j = compute_basis_function_value Legendre j (vget x i)) /\
    (forall (c : DataVector) i, i < 3 ->
       sumF (fun j => Fmul (mget V i j) (vget c j)) 3 =
       sumF (fun j =>
               Fmul (vget c j)
                 (compute_basis_function_value Legendre j (vget x i))) 3).
Proof.
  assert (H3 : in_range Legendre GaussLobatto 3) by in_range_by_evaluation.
  split; [exact H3|].
  exact (spectral_to_grid_matrix_samples_basis rational_field H3).
Defined.

(** Four Gauss-Lobatto points, the inner two rounded to sixteen digits:
    they are distinct, which is all the theorem asks. *)
Lemma differentiation_matrix_exact_on_polynomials_witness :
  in_range Legendre GaussLobatto 4 /\
  distinct_nodes (collocation_points_value Legendre GaussLobatto 4) 4 /\
  exists D x,
    returns (differentiation_matrix Legendre GaussLobatto 4) D /\
    returns (collocation_points Legendre GaussLobatto 4) x /\
    forall p i, length p <= 4 -> i < 4 ->
      sumF (fun j => Fmul (mget D i j) (poly_eval p (vget x j))) 4 =
      poly_deriv_eval p (vget x i).
Proof.
  assert (H4 : in_range Legendre GaussLobatto 4) by in_range_by_evaluation.
  split; [exact H4|]. split; [exact distinct_nodes_four_points|].
  exact (differentiation_matrix_exact_on_polynomials rational_field H4
           distinct_nodes_four_points).
Defined.

(** [2 - x + 3 x^2 + x^3] has the derivative [-1 + 6 x + 3 x^2]: the
    values of the derivative, and the matrix applied to the values of the
    polynomial, at the four points. *)
Example differentiation_matrix_of_cubic :
  let D := differentiation_matrix_value Legendre GaussLobatto 4 in
  let x := collocation_points_value Legendre GaussLobatto 4 in
  let p := [q 2 1; q (-1) 1; q 3 1; q 1 1] in
  map (fun i => this (poly_deriv_eval p (vget x i))) (seq 0 4) =
  map (fun i =>
         this (poly_eval [q (-1) 1; q 6 1; q 3 1] (vget x i))) (seq 0 4) /\
  map (fun i =>
         this (sumF (fun j => Qcmult (mget D i j) (poly_eval p (vget x j))) 4))
    (seq 0 4) =
  map (fun i => this (poly_deriv_eval p (vget x i))) (seq 0 4).
Proof. split; vm_compute; reflexivity. Qed.

Lemma interpolation_matrix_stacks_rows_witness :
  in_range Legendre GaussLobatto 3 /\
  exists M M1 M2,
    returns
      (interpolation_matrix Legendre GaussLobatto 3
         ([q 1 2; q 1 1] ++ [q (-1) 3])) M /\
    returns (interpolation_matrix Legendre GaussLobatto 3 [q 1 2; q 1 1]) M1 /\
    returns (interpolation_matrix Legendre GaussLobatto 3 [q (-1) 3]) M2 /\
    shaped (2 + 1) 3 M /\ shaped 2 3 M1 /\ shaped 1 3 M2 /\
    (forall k j, k < 2 -> j < 3 -> mget M k j = mget M1 k j) /\
    (forall k j, k < 1 -> j < 3 -> mget M (2 + k) j = mget M2 k j).
Proof.
  assert (H3 : in_range Legendre GaussLobatto 3) by in_range_by_evaluation.
  split; [exact H3|].
  exact (interpolation_matrix_stacks_rows [q 1 2; q 1 1] [q (-1) 3] H3).
Defined.

Lemma barycentric_weights_annihilate_low_degrees_witness :
  in_range Legendre GaussLobatto 4 /\
  distinct_nodes (collocation_points_value Legendre GaussLobatto 4) 4 /\
  exists bary x,
    returns (barycentric_weights Legendre GaussLobatto 4) bary /\
    returns (collocation_points Legendre GaussLobatto 4) x /\
    (forall p, length p < 4 ->
       sumF (fun j => Fmul (vget bary j) (poly_eval p (vget x j))) 4 = F0) /\
    sumF (vget bary) 4 = F0.
Proof.
  assert (H4 : in_range Legendre GaussLobatto 4) by in_range_by_evaluation.
  split; [exact H4|]. split; [exact distinct_nodes_four_points|].
  destruct (barycentric_weights_annihilate_low_degrees rational_field H4
              distinct_nodes_four_points)
    as (bary & x & Hbw & Hcp & Hpoly & Hsum).
  exists bary, x. split; [exact Hbw|]. split; [exact Hcp|].
  split; [exact Hpoly|]. apply Hsum. lia.
Defined.

(** From the empty cache, the differentiation matrix: afterwards its
    table and those of the collocation points and of the barycentric
    weights exist, the table of the linear filter does not. *)
Lemma request_initialises_its_tables_witness :
  in_range Legendre GaussLobatto 3 /\
  cache_ok empty_cache /\ cache_closed empty_cache /\
  exists c',
    request Legendre GaussLobatto DifferentiationMatrix 3 empty_cache =
    (Ok (quantity_value Legendre GaussLobatto DifferentiationMatrix 3), c') /\
    c' (Legendre, GaussLobatto, DifferentiationMatrix) <> None /\
    c' (Legendre, GaussLobatto, CollocationPointsAndWeights) <> None /\
    c' (Legendre, GaussLobatto, BarycentricWeights) <> None /\
    c' (Legendre, GaussLobatto, LinearFilterMatrix) = None /\
    c' (Legendre, Gauss, DifferentiationMatrix) = None.
Proof.
  assert (H3 : in_range Legendre GaussLobatto 3) by in_range_by_evaluation.
  split; [exact H3|]. split; [exact cache_ok_empty|].
  split; [exact cache_closed_empty|].
  destruct (request_initialises_its_tables DifferentiationMatrix H3
              cache_ok_empty cache_closed_empty)
    as ((c' & E & _ & _ & _ & Hthere & Hframe) & _).
  exists c'. split; [exact E|].
  split; [apply Hthere; simpl; tauto|].
  split; [apply Hthere; simpl; tauto|].
  split; [apply Hthere; simpl; tauto|].
  split.
  - rewrite Hframe; [reflexivity|]. right. right. simpl.
    intros [H|[H|[H|H]]]; try discriminate H; exact H.
  - rewrite Hframe; [reflexivity|]. right. left. discriminate.
Defined.

Lemma requests_commute_witness :
  in_range Legendre GaussLobatto 3 /\ in_range Legendre Gauss 2 /\
  cache_ok empty_cache /\ cache_closed empty_cache /\
  exists c1 c12 c2 c21,
    request Legendre GaussLobatto DifferentiationMatrix 3 empty_cache =
    (Ok (quantity_value Legendre GaussLobatto DifferentiationMatrix 3), c1) /\
    request Legendre Gauss LinearFilterMatrix 2 c1 =
    (Ok (quantity_value Legendre Gauss LinearFilterMatrix 2), c12) /\
    request Legendre Gauss LinearFilterMatrix 2 empty_cache =
    (Ok (quantity_value Legendre Gauss LinearFilterMatrix 2), c2) /\
    request Legendre GaussLobatto DifferentiationMatrix 3 c2 =
    (Ok (quantity_value Legendre GaussLobatto DifferentiationMatrix 3), c21) /\
    forall key, c12 key = c21 key.
Proof.
  assert (H3 : in_range Legendre GaussLobatto 3) by in_range_by_evaluation.
  assert (H2 : in_range Legendre Gauss 2) by in_range_by_evaluation.
  split; [exact H3|]. split; [exact H2|].
  split; [exact cache_ok_empty|]. split; [exact cache_closed_empty|].
  exact (requests_commute DifferentiationMatrix LinearFilterMatrix H3 H2
           cache_ok_empty cache_closed_empty).
Defined.


(** A mesh with an unknown basis and no points, a mesh with an unknown
    quadrature, and a Gauss-Lobatto mesh with one point. *)
Lemma mesh_overloads_failures_witness :
  mesh_requests_fail
    (mkMesh (fun _ => 0) (fun _ => UnknownBasis) (fun _ => Gauss))
    empty_cache
    (fun e =>
       e = UnsupportedCombinationError
             "Missing basis case for spectral quantity") /\
  mesh_requests_fail
    (mkMesh (fun _ => 3) (fun _ => Legendre) (fun _ => UnknownQuadrature))
    empty_cache
    (fun e =>
       e = UnsupportedCombinationError
             "Missing quadrature case for spectral quantity") /\
  mesh_requests_fail
    (mkMesh (fun _ => 1) (fun _ => Legendre) (fun _ => GaussLobatto))
    empty_cache
    (fun e => exists message, e = RangeError message).
Proof.
  split; [|split].
  - destruct (mesh_overloads_failures
                (mkMesh (fun _ => 0) (fun _ => UnknownBasis) (fun _ => Gauss))
                empty_cache) as (H & _ & _).
    apply H. discriminate.
  - destruct (mesh_overloads_failures
                (mkMesh (fun _ => 3) (fun _ => Legendre)
                   (fun _ => UnknownQuadrature))
                empty_cache) as (_ & H & _).
    apply H; [reflexivity|discriminate|discriminate].
  - destruct (mesh_overloads_failures
                (mkMesh (fun _ => 1) (fun _ => Legendre)
                   (fun _ => GaussLobatto))
                empty_cache) as (_ & _ & H).
    apply H; [reflexivity|right; reflexivity|].
    unfold in_range. simpl. lia.
Defined.


End AtRational.

(** * The real instance: the theorems applied *)

Module AtReal.

Import Stdlib.Reals.Reals Stdlib.setoid_ring.RealField Stdlib.micromega.Lra.
Import Real.
#[local] Existing Instance real_arithmetic.
#[local] Existing Instance legendre_primitives.
#[local] Open Scope R_scope.

(** Unfold everything but the arithmetic of the reals. *)
Ltac evaluate := cbv -[Rplus Rmult Rminus Ropp Rdiv Rinv sqrt IZR].

Ltac in_range_by_evaluation := unfold in_range; simpl; lia.

(** The Legendre polynomials are orthogonal under the Gauss quadrature
    with three points, [-sqrt (3/5)], [0] and [sqrt (3/5)]. *)
Lemma gauss_orthogonality_three_points : gauss_orthogonality Legendre 3.
Proof.
  assert (Hs : sqrt (3 / 5) * sqrt (3 / 5) = 3 / 5) by (apply sqrt_sqrt; lra).
  split.
  - intros i Hi. destruct i as [|[|[|i]]]; [| | |lia]; evaluate; lra.
  - intros i j Hi Hj.
    (destruct i as [|[|[|i]]]; [| | |lia]);
      (destruct j as [|[|[|j]]]; [| | |lia]);
      evaluate; field_simplify; nra.
Qed.

(** The inverse by cofactors inverts the two Vandermonde matrices of three
    points. *)
Lemma blaze_inverts_three_gauss_points :
  blaze_inverts (spectral_to_grid_points_matrix_value Legendre Gauss 3) 3.
Proof.
  assert (Hs : sqrt (3 / 5) * sqrt (3 / 5) = 3 / 5) by (apply sqrt_sqrt; lra).
  assert (Hp : 0 < sqrt (3 / 5)) by (apply sqrt_lt_R0; lra).
  split; [reflexivity|]. split; [reflexivity|].
  split; intros i j Hi Hj;
    (destruct i as [|[|[|i]]]; [| | |lia]);
    (destruct j as [|[|[|j]]]; [| | |lia]);
    evaluate; generalize dependent (sqrt (3 / 5)); intros s Hs Hp;
    (field_simplify_eq; [nra|repeat split; nra]).
Qed.

Lemma blaze_inverts_three_lobatto_points :
  blaze_inverts (spectral_to_grid_points_matrix_value Legendre GaussLobatto 3)
    3.
Proof.
  split; [reflexivity|]. split; [reflexivity|].
  split; intros i j Hi Hj;
    (destruct i as [|[|[|i]]]; [| | |lia]);
    (destruct j as [|[|[|j]]]; [| | |lia]); evaluate; field.
Qed.

Lemma grid_to_spectral_inverts_spectral_to_grid_witness :
  (in_range Legendre Gauss 3 /\
   transform_contract Legendre Gauss 3 /\
   exists G V,
     returns (grid_points_to_spectral_matrix Legendre Gauss 3) G /\
     returns (spectral_to_grid_points_matrix Legendre Gauss 3) V /\
     shaped 3 3 G /\ shaped 3 3 V /\ is_identity 3 (mat_mul_entry G V)) /\
  (in_range Legendre GaussLobatto 3 /\
   transform_contract Legendre GaussLobatto 3 /\
   exists G V,
     returns (grid_points_to_spectral_matrix Legendre GaussLobatto 3) G /\
     returns (spectral_to_grid_points_matrix Legendre GaussLobatto 3) V /\
     shaped 3 3 G /\ shaped 3 3 V /\ is_identity 3 (mat_mul_entry G V)).
Proof.
  assert (HG : in_range Legendre Gauss 3) by in_range_by_evaluation.
  assert (HL : in_range Legendre GaussLobatto 3) by in_range_by_evaluation.
  split.
  - split; [exact HG|]. split; [exact gauss_orthogonality_three_points|].
    exact (grid_to_spectral_inverts_spectral_to_grid real_field HG
             gauss_orthogonality_three_points).
  - split; [exact HL|]. split; [exact blaze_inverts_three_lobatto_points|].
    exact (grid_to_spectral_inverts_spectral_to_grid real_field HL
             blaze_inverts_three_lobatto_points).
Defined.

Lemma analytic_inverse_matches_generic_path_witness :
  in_range Legendre Gauss 3 /\
  gauss_orthogonality Legendre 3 /\
  exists G V w,
    returns (grid_points_to_spectral_matrix Legendre Gauss 3) G /\
    returns (spectral_to_grid_points_matrix Legendre Gauss 3) V /\
    returns (quadrature_weights Legendre Gauss 3) w /\
    (forall i j, (i < 3)%nat -> (j < 3)%nat ->
       mget G i j =
       Fdiv (Fmul (mget V j i) (vget w j))
         (compute_basis_function_normalization_square Legendre i)) /\
    blaze_inverts V 3 /\
    (forall i j, (i < 3)%nat -> (j < 3)%nat ->
       mget G i j = mget (numeric_inverse_loops V 3) i j).
Proof.
  assert (H3 : in_range Legendre Gauss 3) by in_range_by_evaluation.
  destruct (analytic_inverse_matches_generic_path real_field H3)
    as (G & V & w & HG & HV & Hw & Hentries & Hsame).
  assert (EV : V = spectral_to_grid_points_matrix_value Legendre Gauss 3)
    by (apply (returns_unique HV), spectral_to_grid_points_matrix_returns;
        exact H3).
  assert (Hinv : blaze_inverts V 3)
    by (rewrite EV; exact blaze_inverts_three_gauss_points).
  split; [exact H3|]. split; [exact gauss_orthogonality_three_points|].
  exists G, V, w.
  split; [exact HG|]. split; [exact HV|]. split; [exact Hw|].
  split; [exact Hentries|]. split; [exact Hinv|].
  exact (Hsame gauss_orthogonality_three_points Hinv).
Defined.

Lemma linear_filter_is_projector_witness :
  (2 <= 3)%nat /\ in_range Legendre Gauss 3 /\
  transform_contract Legendre Gauss 3 /\
  exists L V W,
    returns (linear_filter_matrix Legendre Gauss 3) L /\
    returns (spectral_to_grid_points_matrix Legendre Gauss 3) V /\
    returns (grid_points_to_spectral_matrix Legendre Gauss 3) W /\
    shaped 3 3 L /\
    (forall i j, (i < 3)%nat -> (j < 3)%nat ->
       mget L i j = sumF (fun l => Fmul (mget V i l) (mget W l j)) 2) /\
    (forall i j, (i < 3)%nat -> (j < 3)%nat ->
       mat_mul_entry L L i j = mget L i j).
Proof.
  assert (H23 : (2 <= 3)%nat) by lia.
  assert (H3 : in_range Legendre Gauss 3) by in_range_by_evaluation.
  destruct (linear_filter_is_projector real_field H23 H3)
    as (L & V & W & HL & HV & HW & Hs & Hentries & Hidem).
  split; [exact H23|]. split; [exact H3|].
  split; [exact gauss_orthogonality_three_points|].
  exists L, V, W.
  split; [exact HL|]. split; [exact HV|]. split; [exact HW|].
  split; [exact Hs|]. split; [exact Hentries|].
  exact (Hidem gauss_orthogonality_three_points).
Defined.

(** Four Gauss-Lobatto points, [-1], [-1/sqrt 5], [1/sqrt 5] and [1]: the
    differentiation matrix applied to the samples of [x^3] gives the
    samples of [3 x^2]. *)
Example four_lobatto_points_differentiate_a_cube :
  let x := collocation_points_value Legendre GaussLobatto 4 in
  let D := differentiation_matrix_value Legendre GaussLobatto 4 in
  forall i, (i < 4)%nat ->
    sumF (fun j => mget D i j * (vget x j * vget x j * vget x j)) 4 =
    3 * (vget x i * vget x i).
Proof.
  assert (Hs : sqrt (1 / 5) * sqrt (1 / 5) = 1 / 5) by (apply sqrt_sqrt; lra).
  assert (Hp : 0 < sqrt (1 / 5)) by (apply sqrt_lt_R0; lra).
  assert (H1 : sqrt (1 / 5) < 1).
  { destruct (Rlt_le_dec (sqrt (1 / 5)) 1) as [H|H]; [exact H|]. nra. }
  intros x D i Hi.
  (destruct i as [|[|[|[|i]]]]; [| | | |lia]);
    evaluate; generalize dependent (sqrt (1 / 5)); intros s Hs Hp H1;
    (field_simplify_eq; [nra|repeat split; nra]).
Qed.

End AtReal.

(** * The code's arithmetic: what the doubles give

    The Legendre basis with up to four Gauss or Gauss-Lobatto points, in
    binary64.  Every statement is settled by evaluating the definitions;
    [equal_within_roundoff] is the comparison of the code, and
    [within 0x1p-51] allows an absolute error of [2^-51]. *)

Module AtBinary64.

Import Stdlib.Floats.Floats.
Import Binary64.
#[local] Existing Instance binary64_arithmetic.
#[local] Existing Instance legendre_primitives.
#[local] Open Scope float_scope.

Ltac in_range_by_evaluation := unfold in_range; simpl; lia.




(** Two doubles differ. *)
Ltac differ_by_evaluation c :=
  let H := fresh "H" in
  intro H; apply (f_equal (fun a => a =? c)) in H;
  vm_compute in H; discriminate H.




(** ** The theorems applied *)


(** The product at three Gauss points: the identity in all but the last
    digits. *)
Example product_of_transforms_three_gauss_points :
  let G := grid_points_to_spectral_matrix_value Legendre Gauss 3 in
  let V := spectral_to_grid_points_matrix_value Legendre Gauss 3 in
  map (fun i => map (fun j => mat_mul_entry G V i j) (seq 0 3)) (seq 0 3) =
  [[1; 0; 0x1p-55];
   [0; 0x1.0000000000001p+0; 0];
   [0x1p-52; 0; 0x1.fffffffffffffp-1]].
Proof. vm_compute. reflexivity. Qed.


(** The two paths at three Gauss points: the entries differ in the last
    digit. *)
Example two_paths_three_gauss_points :
  let V := spectral_to_grid_points_matrix_value Legendre Gauss 3 in
  let G := grid_points_to_spectral_matrix_value Legendre Gauss 3 in
  let N := numeric_inverse_loops V 3 in
  mget G 0 0 = 0x1.1c71c71c71c72p-2 /\
  mget N 0 0 = 0x1.1c71c71c71c71p-2.
Proof. split; vm_compute; reflexivity. Qed.



(** Three Gauss-Lobatto points, [-1], [0] and [1], and the targets [0.5],
    which matches no point, and [1], the last point. *)
Lemma interpolation_matrix_row_witness :
  in_range Legendre GaussLobatto 3 /\
  (exists x bary M,
     returns (collocation_points Legendre GaussLobatto 3) x /\
     returns (barycentric_weights Legendre GaussLobatto 3) bary /\
     returns (interpolation_matrix Legendre GaussLobatto 3 [0x1p-1; 1]) M /\
     shaped 2 3 M /\
     (forall j, (j < 3)%nat ->
        equal_within_roundoff 0x1p-1 (vget x j) = false) /\
     (forall j, (j < 3)%nat ->
        mget M 0 j =
        Fdiv (Fdiv (vget bary j) (Fsub 0x1p-1 (vget x j)))
          (sumF (fun l => Fdiv (vget bary l) (Fsub 0x1p-1 (vget x l))) 3)) /\
     map (mget M 0) (seq 0 3) =
     [- 0x1.fffffffffffffp-4; 0x1.7ffffffffffffp-1; 0x1.7ffffffffffffp-2]) /\
  (exists x bary M,
     returns (collocation_points Legendre GaussLobatto 3) x /\
     returns (barycentric_weights Legendre GaussLobatto 3) bary /\
     returns (interpolation_matrix Legendre GaussLobatto 3 [0x1p-1; 1]) M /\
     shaped 2 3 M /\
     equal_within_roundoff 1 (vget x 2) = true /\
     forall j, (j < 3)%nat -> mget M 1 j = delta 2 j).
Proof.
  assert (H3 : in_range Legendre GaussLobatto 3) by in_range_by_evaluation.
  assert (Hx : forall x,
             returns (collocation_points Legendre GaussLobatto 3) x ->
             x = [-1; 0; 1]).
  { intros x Hx.
    exact (returns_unique Hx (collocation_points_returns H3)). }
  split; [exact H3|]. split.
  - destruct (@interpolation_matrix_row binary64_arithmetic legendre_primitives
                Legendre GaussLobatto 3
                [0x1p-1; 1] 0 H3 ltac:(simpl; lia))
      as (x & bary & M & Hcp & Hbw & HM & Hs & _ & _ & Hnone).
    cbv zeta in Hnone. change (@vget binary64_arithmetic [0x1p-1; 1] 0) with 0x1p-1 in Hnone.
    assert (Hno : forall j, (j < 3)%nat ->
                    equal_within_roundoff 0x1p-1 (vget x j) = false).
    { intros j Hj. rewrite (Hx x Hcp).
      destruct j as [|[|[|j]]]; [| | |lia]; vm_compute; reflexivity. }
    exists x, bary, M.
    split; [exact Hcp|]. split; [exact Hbw|]. split; [exact HM|].
    split; [exact Hs|]. split; [exact Hno|].
    split; [exact (Hnone Hno)|].
    assert (EM : M = interpolation_matrix_value Legendre GaussLobatto 3
                       [0x1p-1; 1]).
    { apply (returns_unique HM). apply interpolation_matrix_returns.
      exact H3. }
    rewrite EM.
    vm_compute. reflexivity.
  - destruct (@interpolation_matrix_row binary64_arithmetic legendre_primitives
                Legendre GaussLobatto 3
                [0x1p-1; 1] 1 H3 ltac:(simpl; lia))
      as (x & bary & M & Hcp & Hbw & HM & Hs & _ & Hone & _).
    cbv zeta in Hone. change (@vget binary64_arithmetic [0x1p-1; 1] 1) with 1 in Hone.
    exists x, bary, M.
    split; [exact Hcp|]. split; [exact Hbw|]. split; [exact HM|].
    split; [exact Hs|].
    split; [rewrite (Hx x Hcp); vm_compute; reflexivity|].
    apply (Hone 2%nat); [lia|rewrite (Hx x Hcp); vm_compute; reflexivity|].
    intros j Hj Hne. rewrite (Hx x Hcp).
    destruct j as [|[|[|j]]]; [| | |lia]; try lia; vm_compute; reflexivity.
Defined.

(** In doubles a row whose target matches no point need not sum to 1:
    at three Gauss-Lobatto points the row of the target [0.5] is
    [-0.12499999999999999], [0.74999999999999989], [0.37499999999999994]
    and sums to [0.99999999999999978]. *)
Lemma interpolation_row_sum_is_not_one :
  exists x M,
    returns (collocation_points Legendre GaussLobatto 3) x /\
    returns (interpolation_matrix Legendre GaussLobatto 3 [0x1p-1]) M /\
    (forall j, (j < 3)%nat ->
       equal_within_roundoff (vget [0x1p-1] 0) (vget x j) = false) /\
    sumF (mget M 0) 3 = 0x1.ffffffffffffep-1 /\
    sumF (mget M 0) 3 <> F1.
Proof.
  assert (H3 : in_range Legendre GaussLobatto 3) by in_range_by_evaluation.
  eexists. eexists.
  split; [apply collocation_points_returns; exact H3|].
  split; [apply interpolation_matrix_returns; exact H3|].
  split.
  - intros j Hj.
    destruct j as [|[|[|j]]]; [| | |lia]; vm_compute; reflexivity.
  - split; [vm_compute; reflexivity|].
    differ_by_evaluation 0x1.ffffffffffffep-1.
Qed.

(** Far from the points the differences [target - x_j] round to one
    double and the weights [0.5], [-1], [0.5] over it add up to zero: the
    row of the target [2^57] is infinite and its sum is not a number. *)
Example interpolation_row_of_a_far_target :
  let M := interpolation_matrix_value Legendre GaussLobatto 3 [0x1p+57] in
  (forall j, (j < 3)%nat ->
     equal_within_roundoff 0x1p+57
       (vget (collocation_points_value Legendre GaussLobatto 3) j) = false) /\
  map (mget M 0) (seq 0 3) = [infinity; neg_infinity; infinity] /\
  is_nan (sumF (mget M 0) 3) = true.
Proof.
  split; [|split; vm_compute; reflexivity].
  intros j Hj.
  destruct j as [|[|[|j]]]; [| | |lia]; vm_compute; reflexivity.
Qed.

End AtBinary64.
